(** * Pathfinder-Visualizer: graph, priority queue, search engines and
      multi-leg orchestrator

    A shallow embedding of [src/graph.js], [src/algorithms.js] and the
    [_run] method of [src/app.js].

    Conventions of the embedding.
    - Node identifiers are JavaScript strings: [string].
    - A JavaScript [Map] is an association list in insertion order
      ([JsMap]); a [Set] is a duplicate-free list in insertion order
      ([JsSet]).  Both orders are observable (events carry copies of
      [visited] and of the distance map).
    - Coordinates and stored weights are integers ([Z]); every [addNode]
      call of the repository passes integer literals.  The sum of two
      integers is exact in binary64 below 2^53, which is the range the
      model covers.  [Infinity] is a separate constructor ([Ext]).
    - Numbers that are not integers (the value of [Math.hypot], the A*
      priorities) go through the interface [Number], with an executable
      binary64 instance and an exact real instance.
    - A generator is the sequence of values it yields, closed by the way
      it stops ([Trace]). *)

From Stdlib Require Import ZArith QArith Qround Reals Rgeom Lia Lra ZifyNat.
From Stdlib Require Uint63 PrimFloat.
From stdpp Require Import base list strings.

Set Default Proof Using "Type".
Local Open Scope Z_scope.

(** ** JavaScript containers *)

Module JsMap.
Section Defs.
Context {K V : Type} `{EqDecision K}.

(** [map.get(k)]; [None] is [undefined]. *)
Fixpoint get (m : list (K * V)) (k : K) : option V :=
  match m with
  | [] => None
  | (k', v) :: m' => if decide (k = k') then Some v else get m' k
  end.

Definition has (m : list (K * V)) (k : K) : bool :=
  match get m k with Some _ => true | None => false end.

(** [map.set(k, v)]: an existing key keeps its position. *)
Fixpoint set (m : list (K * V)) (k : K) (v : V) : list (K * V) :=
  match m with
  | [] => [(k, v)]
  | (k', v') :: m' =>
      if decide (k = k') then (k, v) :: m' else (k', v') :: set m' k v
  end.

Definition keys (m : list (K * V)) : list K := fst <$> m.
Definition values (m : list (K * V)) : list V := snd <$> m.
End Defs.
End JsMap.

Module JsSet.
Section Defs.
Context {K : Type} `{EqDecision K}.

Definition has (s : list K) (k : K) : bool := bool_decide (k ∈ s).

(** [set.add(k)] *)
Definition add (s : list K) (k : K) : list K :=
  if has s k then s else s ++ [k].

(** [new Set(array)] *)
Definition of_array (a : list K) : list K := foldl add [] a.
End Defs.
End JsSet.

(** [array.pop()]: the last element (if any) and the shortened array. *)
Definition array_pop {A : Type} (a : list A) : option A * list A :=
  (last a, take (length a - 1) a).

(** ** Numbers *)

(** A number that is an integer or [Infinity]. *)
Inductive Ext (A : Type) : Type :=
| Infinity : Ext A
| Finite (a : A) : Ext A.
Arguments Infinity {A}.
Arguments Finite {A} a.

Abbreviation Dist := (Ext Z).

(** [a < b] on integers extended with [Infinity]. *)
Definition dist_ltb (a b : Dist) : bool :=
  match a, b with
  | Finite x, Finite y => x <? y
  | Finite _, Infinity => true
  | Infinity, _ => false
  end.

Definition dist_add (a b : Dist) : Dist :=
  match a, b with
  | Finite x, Finite y => Finite (x + y)
  | _, _ => Infinity
  end.

(** [Math.round] on a rational: the nearest integer, halves upwards. *)
Definition Math_round (q : Q) : Z := Qfloor (q + (1 # 2))%Q.

(** [Math.round(Math.hypot(dx, dy))] for integers [dx], [dy]: the integer
    [k] with [(2k-1)^2 <= 4 (dx^2+dy^2) < (2k+1)^2].  The square root of an
    integer is never half an odd integer, so no tie occurs. *)
Definition round_hypot (dx dy : Z) : Z :=
  (Z.sqrt (4 * (dx * dx + dy * dy)) + 1) / 2.

(** The arithmetic the heuristic and the A* priorities need. *)
Class Number (num : Type) := {
  num_of_Z : Z → num;
  num_add : num → num → num;
  num_ltb : num → num → bool;
  num_hypot : Z → Z → num;
}.

(** Binary64, as the JavaScript engine computes. *)
Definition float_of_Z (z : Z) : PrimFloat.float :=
  if z <? 0 then PrimFloat.opp (PrimFloat.of_uint63 (Uint63.of_Z (- z)))
  else PrimFloat.of_uint63 (Uint63.of_Z z).

#[export] Instance float_Number : Number PrimFloat.float := {|
  num_of_Z := float_of_Z;
  num_add := PrimFloat.add;
  num_ltb := PrimFloat.ltb;
  num_hypot dx dy := PrimFloat.sqrt (float_of_Z (dx * dx + dy * dy));
|}.

(** Exact real arithmetic. *)
#[export] Instance real_Number : Number R := {|
  num_of_Z := IZR;
  num_add := Rplus;
  num_ltb a b := if Rlt_dec a b then true else false;
  num_hypot dx dy := R_sqrt.sqrt (IZR (dx * dx + dy * dy));
|}.

(** ** graph.js: class Graph *)

Abbreviation Id := string.

Record Node := mkNode {
  n_id : Id; n_x : Z; n_y : Z; n_label : string; n_type : string }.

Record Edge := mkEdge { e_node : Id; e_weight : Z }.

Record Graph := mkGraph {
  nodes : list (Id * Node);          (* id -> { id, x, y, label, type } *)
  edges : list (Id * list Edge);     (* id -> [{ node, weight }] *)
}.

Inductive Error :=
| NodeNotFound (fromId toId : Id)   (* throw new Error(`Node not found ...`) *)
| TypeError.                        (* property access on undefined *)

Module Graph.
Definition empty : Graph := mkGraph [] [].

Definition addNode (g : Graph) (id : Id) (x y : Z) (label : string)
    (type : option string) : Graph :=
  let nodes' :=
    JsMap.set (nodes g) id (mkNode id x y label (default "default" type)) in
  mkGraph nodes'
    (if JsMap.has (edges g) id then edges g else JsMap.set (edges g) id []).

(** The graph after the call, and the exception if one was thrown. *)
Definition addEdge (g : Graph) (fromId toId : Id) (weight : option Q)
    : Graph * option Error :=
  match JsMap.get (nodes g) fromId, JsMap.get (nodes g) toId with
  | Some a, Some b =>
      let w := match weight with
               | None => round_hypot (n_x b - n_x a) (n_y b - n_y a)
               | Some q => Math_round q
               end in
      match JsMap.get (edges g) fromId with
      | None => (g, Some TypeError)
      | Some l1 =>
          let edges1 := JsMap.set (edges g) fromId (l1 ++ [mkEdge toId w]) in
          match JsMap.get edges1 toId with
          | None => (mkGraph (nodes g) edges1, Some TypeError)
          | Some l2 =>
              (mkGraph (nodes g)
                 (JsMap.set edges1 toId (l2 ++ [mkEdge fromId w])), None)
          end
      end
  | _, _ => (g, Some (NodeNotFound fromId toId))
  end.

Definition getNeighbors (g : Graph) (id : Id) : list Edge :=
  default [] (JsMap.get (edges g) id).

Definition getNode (g : Graph) (id : Id) : option Node :=
  JsMap.get (nodes g) id.

Definition getAllNodes (g : Graph) : list Node := JsMap.values (nodes g).

(** [None]: reading [.x] of [undefined] throws. *)
Definition heuristic {num} `{Number num} (g : Graph) (a b : Id)
    : option num :=
  match JsMap.get (nodes g) a, JsMap.get (nodes g) b with
  | Some nodeA, Some nodeB =>
      Some (num_hypot (n_x nodeB - n_x nodeA) (n_y nodeB - n_y nodeA))
  | _, _ => None
  end.
End Graph.

(** ** algorithms.js: class MinHeap *)

Record Entry (P : Type) := mkEntry { priority : P; node : Id }.
Arguments mkEntry {P} priority node.
Arguments priority {P} e.
Arguments node {P} e.

Module MinHeap.
Section Defs.
Context {P : Type} (lt : P → P → bool).

(** [[data[i], data[j]] = [data[j], data[i]]] *)
Definition swap (data : list (Entry P)) (i j : nat) : list (Entry P) :=
  match data !! i, data !! j with
  | Some a, Some b => <[j := a]> (<[i := b]> data)
  | _, _ => data
  end.

(** [data[a].priority < data[b].priority] *)
Definition lt_at (data : list (Entry P)) (a b : nat) : bool :=
  match data !! a, data !! b with
  | Some x, Some y => lt (priority x) (priority y)
  | _, _ => false
  end.

(** The loop of [_bubbleUp]; the index decreases at every turn, so [i]
    turns are enough. *)
Fixpoint bubbleUp_loop (fuel : nat) (data : list (Entry P)) (i : nat)
    : list (Entry P) :=
  match fuel with
  | O => data
  | S fuel =>
      if (0 <? i)%nat then
        let parent := ((i - 1) / 2)%nat in      (* (i - 1) >> 1 *)
        if lt_at data i parent
        then bubbleUp_loop fuel (swap data i parent) parent
        else data
      else data
  end.

Definition _bubbleUp (data : list (Entry P)) (i : nat) : list (Entry P) :=
  bubbleUp_loop i data i.

(** The loop of [_sinkDown]; the index increases at every turn and
    stays below [n], so [n] turns are enough. *)
Fixpoint sinkDown_loop (fuel : nat) (data : list (Entry P)) (i : nat)
    : list (Entry P) :=
  match fuel with
  | O => data
  | S fuel =>
      let n := length data in
      let smallest := i in
      let l := (2 * i + 1)%nat in
      let r := (2 * i + 2)%nat in
      let smallest :=
        if (l <? n)%nat && lt_at data l smallest then l else smallest in
      let smallest :=
        if (r <? n)%nat && lt_at data r smallest then r else smallest in
      if (smallest =? i)%nat then data
      else sinkDown_loop fuel (swap data i smallest) smallest
  end.

Definition _sinkDown (data : list (Entry P)) (i : nat) : list (Entry P) :=
  sinkDown_loop (length data) data i.

Definition push (data : list (Entry P)) (item : Entry P)
    : list (Entry P) :=
  let data := data ++ [item] in
  _bubbleUp data (length data - 1).

(** The returned entry ([None] is [undefined]) and the heap after. *)
Definition pop (data : list (Entry P))
    : option (Entry P) * list (Entry P) :=
  let top := data !! 0%nat in
  let '(last, data) := array_pop data in
  match last with
  | Some last =>
      (top, if (0 <? length data)%nat
            then _sinkDown (<[0%nat := last]> data) 0
            else data)
  | None => (top, data)
  end.

Definition size (data : list (Entry P)) : nat := length data.
End Defs.
End MinHeap.

(** ** algorithms.js: the generators *)

(** [{type:'visit', node, visited, frontier | distances}] and
    [{type:'done', path, visited, totalDistance?}]; an absent property is
    [None]. *)
Inductive Event :=
| Visit (current : Id) (visited : list Id) (frontier : option (list Id))
        (distances : option (list (Id * Dist)))
| Done (path : list Id) (visited : list Id) (totalDistance : option Dist).

(** What a generator does when it is driven to its end. *)
Inductive Trace :=
| Yield (e : Event) (rest : Trace)
| Return             (* the generator function returned *)
| Throw              (* a TypeError escaped *)
| Hang               (* a loop without [yield] never ends *)
| OutOfFuel.         (* the model was not run long enough *)

Fixpoint events (t : Trace) : list Event :=
  match t with
  | Yield e rest => e :: events rest
  | _ => []
  end.


(** [reconstructPath]: [current] is [None] for [null].  A key that is
    absent gives [undefined], which is not [null]: from there the loop
    never ends.  A walk that ends visits each key at most once, so after
    [length parent] keys without reaching [null] it never ends either. *)
Fixpoint reconstructPath_loop (fuel : nat) (parent : list (Id * option Id))
    (path : list Id) (current : option Id) : option (list Id) :=
  match current with
  | None => Some path
  | Some c =>
      match fuel with
      | O => None
      | S fuel =>
          match JsMap.get parent c with
          | Some next => reconstructPath_loop fuel parent (c :: path) next
          | None => None
          end
      end
  end.

Definition reconstructPath (parent : list (Id * option Id)) (endId : Id)
    : option (list Id) :=
  reconstructPath_loop (length parent) parent [] (Some endId).

(** The two last yields of a successful search. *)
Definition yield_done (parent : list (Id * option Id)) (endId : Id)
    (visited : list Id) (totalDistance : option Dist) : Trace :=
  match reconstructPath parent endId with
  | Some path => Yield (Done path visited totalDistance) Return
  | None => Hang
  end.

(** *** BFS *)

Record BfsState := mkBfs {
  bfs_visited : list Id;
  bfs_parent : list (Id * option Id);
  bfs_queue : list Id }.

Definition bfs_enqueue (current : Id) (st : BfsState) (e : Edge) : BfsState :=
  let neighbor := e_node e in
  if JsSet.has (bfs_visited st) neighbor then st
  else mkBfs (JsSet.add (bfs_visited st) neighbor)
             (JsMap.set (bfs_parent st) neighbor (Some current))
             (bfs_queue st ++ [neighbor]).

Fixpoint bfs_loop (fuel : nat) (g : Graph) (endId : Id) (st : BfsState)
    : Trace :=
  match fuel with
  | O => OutOfFuel
  | S fuel =>
      match bfs_queue st with
      | [] => Yield (Done [] (bfs_visited st) None) Return
      | current :: queue =>
          Yield (Visit current (bfs_visited st)
                   (Some (JsSet.of_array queue)) None)
            (if decide (current = endId)
             then yield_done (bfs_parent st) endId (bfs_visited st) None
             else bfs_loop fuel g endId
                    (foldl (bfs_enqueue current)
                       (mkBfs (bfs_visited st) (bfs_parent st) queue)
                       (Graph.getNeighbors g current)))
      end
  end.

Definition bfs_init (startId : Id) : BfsState :=
  mkBfs (JsSet.add [] startId) (JsMap.set [] startId None) [startId].

Definition bfs (fuel : nat) (g : Graph) (startId endId : Id) : Trace :=
  bfs_loop fuel g endId (bfs_init startId).

(** *** DFS *)

Record DfsState := mkDfs {
  dfs_visited : list Id;
  dfs_parent : list (Id * option Id);
  dfs_stack : list Id }.

Definition dfs_push (current : Id) (st : DfsState) (e : Edge) : DfsState :=
  let neighbor := e_node e in
  if JsSet.has (dfs_visited st) neighbor then st
  else mkDfs (dfs_visited st)
             (JsMap.set (dfs_parent st) neighbor (Some current))
             (dfs_stack st ++ [neighbor]).

(** [for (let i = neighbors.length - 1; i >= 0; i--)] *)
Definition dfs_expand (g : Graph) (current : Id) (st : DfsState) : DfsState :=
  foldl (dfs_push current) st (reverse (Graph.getNeighbors g current)).

Fixpoint dfs_loop (fuel : nat) (g : Graph) (endId : Id) (st : DfsState)
    : Trace :=
  match fuel with
  | O => OutOfFuel
  | S fuel =>
      match array_pop (dfs_stack st) with
      | (None, _) => Yield (Done [] (dfs_visited st) None) Return
      | (Some current, stack) =>
          if JsSet.has (dfs_visited st) current
          then dfs_loop fuel g endId (mkDfs (dfs_visited st) (dfs_parent st) stack)
          else
            let visited := JsSet.add (dfs_visited st) current in
            Yield (Visit current visited (Some (JsSet.of_array stack)) None)
              (if decide (current = endId)
               then yield_done (dfs_parent st) endId visited None
               else dfs_loop fuel g endId
                      (dfs_expand g current
                         (mkDfs visited (dfs_parent st) stack)))
      end
  end.

Definition dfs_init (startId : Id) : DfsState :=
  mkDfs [] (JsMap.set [] startId None) [startId].

Definition dfs (fuel : nat) (g : Graph) (startId endId : Id) : Trace :=
  dfs_loop fuel g endId (dfs_init startId).

(** *** Dijkstra *)

Record DijkstraState := mkDijkstra {
  dj_dist : list (Id * Dist);
  dj_parent : list (Id * option Id);
  dj_visited : list Id;
  dj_heap : list (Entry Z) }.

(** [for (const node of graph.getAllNodes()) map.set(node.id, Infinity)] *)
Definition all_infinity {A : Type} (g : Graph) : list (Id * Ext A) :=
  foldl (λ m nd, JsMap.set m (n_id nd) Infinity) [] (Graph.getAllNodes g).

Definition dijkstra_init (g : Graph) (startId : Id) : DijkstraState :=
  mkDijkstra (JsMap.set (all_infinity g) startId (Finite 0))
             (JsMap.set [] startId None)
             []
             (MinHeap.push Z.ltb [] (mkEntry 0 startId)).

(** The body of the loop over the neighbours of [current];
    [newDist < undefined] is false. *)
Definition dijkstra_relax (current : Id) (currentDist : Z)
    (st : DijkstraState) (e : Edge) : DijkstraState :=
  let neighbor := e_node e in
  if JsSet.has (dj_visited st) neighbor then st
  else
    let newDist := currentDist + e_weight e in
    match JsMap.get (dj_dist st) neighbor with
    | Some d =>
        if dist_ltb (Finite newDist) d
        then mkDijkstra (JsMap.set (dj_dist st) neighbor (Finite newDist))
                        (JsMap.set (dj_parent st) neighbor (Some current))
                        (dj_visited st)
                        (MinHeap.push Z.ltb (dj_heap st)
                           (mkEntry newDist neighbor))
        else st
    | None => st
    end.

Fixpoint dijkstra_loop (fuel : nat) (g : Graph) (endId : Id)
    (st : DijkstraState) : Trace :=
  match fuel with
  | O => OutOfFuel
  | S fuel =>
      if (0 <? MinHeap.size (dj_heap st))%nat then
        match MinHeap.pop Z.ltb (dj_heap st) with
        | (Some top, heap) =>
            let current := node top in
            let currentDist := priority top in
            if JsSet.has (dj_visited st) current
            then dijkstra_loop fuel g endId
                   (mkDijkstra (dj_dist st) (dj_parent st) (dj_visited st) heap)
            else
              let visited := JsSet.add (dj_visited st) current in
              Yield (Visit current visited None (Some (dj_dist st)))
                (if decide (current = endId)
                 then yield_done (dj_parent st) endId visited
                        (JsMap.get (dj_dist st) endId)
                 else dijkstra_loop fuel g endId
                        (foldl (dijkstra_relax current currentDist)
                           (mkDijkstra (dj_dist st) (dj_parent st) visited heap)
                           (Graph.getNeighbors g current)))
        | (None, _) => Throw
        end
      else Yield (Done [] (dj_visited st) (Some Infinity)) Return
  end.

Definition dijkstra (fuel : nat) (g : Graph) (startId endId : Id) : Trace :=
  dijkstra_loop fuel g endId (dijkstra_init g startId).

(** *** A* *)

Section AStar.
Context {num : Type} `{Number num}.

Record AStarState := mkAStar {
  as_gScore : list (Id * Dist);
  as_fScore : list (Id * Ext num);
  as_parent : list (Id * option Id);
  as_visited : list Id;
  as_heap : list (Entry num) }.

(** [None]: [graph.heuristic] threw. *)
Definition aStar_init (g : Graph) (startId endId : Id)
    : option AStarState :=
  h ← Graph.heuristic g startId endId;
  Some (mkAStar (JsMap.set (all_infinity g) startId (Finite 0))
                (JsMap.set (all_infinity g) startId (Finite h))
                (JsMap.set [] startId None)
                []
                (MinHeap.push num_ltb [] (mkEntry h startId))).

(** [tentativeG < gScore.get(neighbor)], with [undefined] on either
    side making the comparison false. *)
Definition aStar_relax (g : Graph) (endId current : Id)
    (st : AStarState) (e : Edge) : option AStarState :=
  let neighbor := e_node e in
  if JsSet.has (as_visited st) neighbor then Some st
  else
    match JsMap.get (as_gScore st) current,
          JsMap.get (as_gScore st) neighbor with
    | Some (Finite gc), Some gn =>
        let tentativeG := gc + e_weight e in
        if dist_ltb (Finite tentativeG) gn then
          h ← Graph.heuristic g neighbor endId;
          let f := num_add (num_of_Z tentativeG) h in
          Some (mkAStar
                  (JsMap.set (as_gScore st) neighbor (Finite tentativeG))
                  (JsMap.set (as_fScore st) neighbor (Finite f))
                  (JsMap.set (as_parent st) neighbor (Some current))
                  (as_visited st)
                  (MinHeap.push num_ltb (as_heap st) (mkEntry f neighbor)))
        else Some st
    | _, _ => Some st
    end.

Fixpoint aStar_loop (fuel : nat) (g : Graph) (endId : Id)
    (st : AStarState) : Trace :=
  match fuel with
  | O => OutOfFuel
  | S fuel =>
      if (0 <? MinHeap.size (as_heap st))%nat then
        match MinHeap.pop num_ltb (as_heap st) with
        | (Some top, heap) =>
            let current := node top in
            if JsSet.has (as_visited st) current
            then aStar_loop fuel g endId
                   (mkAStar (as_gScore st) (as_fScore st) (as_parent st)
                      (as_visited st) heap)
            else
              let visited := JsSet.add (as_visited st) current in
              Yield (Visit current visited None (Some (as_gScore st)))
                (if decide (current = endId)
                 then yield_done (as_parent st) endId visited
                        (JsMap.get (as_gScore st) endId)
                 else
                   match foldl (λ st e, st ≫= λ st, aStar_relax g endId current st e)
                           (Some (mkAStar (as_gScore st) (as_fScore st)
                                    (as_parent st) visited heap))
                           (Graph.getNeighbors g current) with
                   | Some st' => aStar_loop fuel g endId st'
                   | None => Throw
                   end)
        | (None, _) => Throw
        end
      else Yield (Done [] (as_visited st) (Some Infinity)) Return
  end.

Definition aStar (fuel : nat) (g : Graph) (startId endId : Id) : Trace :=
  match aStar_init g startId endId with
  | Some st => aStar_loop fuel g endId st
  | None => Throw
  end.
End AStar.

(** *** The registry [ALGORITHMS] *)

Inductive AlgoKey := key_bfs | key_dfs | key_dijkstra | key_astar.

Definition algo_name (k : AlgoKey) : string :=
  match k with
  | key_bfs => "Breadth-First Search (BFS)"
  | key_dfs => "Depth-First Search (DFS)"
  | key_dijkstra => "Dijkstra's Algorithm"
  | key_astar => "A* Search"
  end.

Definition algo_fn {num} `{Number num} (k : AlgoKey)
    : nat → Graph → Id → Id → Trace :=
  match k with
  | key_bfs => bfs
  | key_dfs => dfs
  | key_dijkstra => dijkstra
  | key_astar => aStar (num := num)
  end.

Definition algo_weighted (k : AlgoKey) : bool :=
  match k with
  | key_bfs | key_dfs => false
  | key_dijkstra | key_astar => true
  end.

(** ** app.js: PathfinderApp._run

    The run is the list of calls it makes on its collaborators (status
    line, statistics panel, renderer, the algorithm registry), in order,
    and the way it ends.  [Wait] marks a [setTimeout]: the run continues
    only when the timer fires.  The code that clears [isRunning]
    ([_reset]) clears the pending timers in the same turn, so a cancelled
    run is the prefix of calls before one of its [Wait]s and the
    [isRunning] tests of a run that continues always pass.  Elapsed time
    is left out. *)

Inductive Status :=
| StatusSelectStart
| StatusAddStop
| StatusDuplicate (name : string)
| StatusRunning (algoName : string) (legs : nat)
| StatusLeg (leg : nat) (fromName toName : string)
| StatusNoPath (fromName toName : string)
| StatusTripComplete (legs : nat) (totalDistance : Dist).

Inductive Effect :=
| UpdateStatus (s : Status)
| ResetVisualization
| RunButton (running : bool)
| NewEngine (fromId toId : Id)
| HighlightVisited (allVisited : list Id)
| SetCurrentVisit (current : option Id)
| UpdateStats (visited legs : nat) (distance : Dist)
| SetPathSegments (segments : list (list Id * string))
| Wait.

Inductive RunEnd :=
| Returned      (* the promise of [_run] is fulfilled *)
| Rejected      (* an exception escaped [_run] *)
| Stuck.        (* a step never comes back: [_run] stays pending *)

Definition LEG_COLORS : list string :=
  ["#00ffc8"; "#ff6b9d"; "#ffd93d"; "#6bcbff";
   "#c084fc"; "#fb923c"; "#34d399"; "#f472b6"].

Record Acc := mkAcc {
  totalVisited : nat;
  totalDistance : Dist;
  allSegments : list (list Id * string);
  allVisited : list Id }.

(** How the promise of one leg is settled. *)
Inductive LegEnd :=
| LegDone (path visited : list Id) (dist : option Dist)  (* resolve(value) *)
| LegNull                                                (* resolve(null) *)
| LegRejected     (* the first step threw, inside the promise executor *)
| LegStuck.       (* a later step threw or never came back *)

(** The function [step], called once directly and then from timers. *)
Fixpoint drive (t : Trace) (leg : nat) (first : bool) (acc : Acc)
    : list Effect * Acc * LegEnd :=
  match t with
  | Yield (Visit current visited _ _) rest =>
      let acc := mkAcc (S (totalVisited acc)) (totalDistance acc)
                   (allSegments acc) (foldl JsSet.add (allVisited acc) visited) in
      let '(eff, acc', e) := drive rest leg false acc in
      (HighlightVisited (allVisited acc) :: SetCurrentVisit (Some current)
         :: UpdateStats (totalVisited acc) (leg + 1) (totalDistance acc)
         :: Wait :: eff, acc', e)
  | Yield (Done path visited dist) _ => ([], acc, LegDone path visited dist)
  | Return => ([], acc, LegNull)
  | Throw => ([], acc, if first then LegRejected else LegStuck)
  | Hang | OutOfFuel => ([], acc, LegStuck)
  end.

(** [_calcPathDist] *)
Fixpoint _calcPathDist (g : Graph) (path : list Id) : Z :=
  match path with
  | a :: (b :: _) as rest =>
      match List.find (λ n, bool_decide (e_node n = b))
              (Graph.getNeighbors g a) with
      | Some edge => e_weight edge + _calcPathDist g rest
      | None => _calcPathDist g rest
      end
  | _ => 0
  end.

(** [legResult.totalDistance || this._calcPathDist(legResult.path)] *)
Definition legDist (g : Graph) (path : list Id) (dist : option Dist) : Dist :=
  match dist with
  | Some Infinity => Infinity
  | Some (Finite d) => if decide (d = 0) then Finite (_calcPathDist g path)
                       else Finite d
  | None => Finite (_calcPathDist g path)
  end.

(** The code after the loop over the legs. *)
Definition finish (legs : nat) (acc : Acc) : list Effect * RunEnd :=
  ([UpdateStats (totalVisited acc) legs (totalDistance acc);
    UpdateStatus (StatusTripComplete legs (totalDistance acc));
    RunButton false], Returned).

Section Run.
Context {num : Type} `{Number num}.

(** The loop over the legs; [route] is what is left of the route,
    starting at stop number [leg], and [legs] is [route.length - 1] of
    the whole route. *)
Fixpoint run_legs (fuel : nat) (g : Graph) (algo : AlgoKey) (legs leg : nat)
    (route : list Id) (acc : Acc) : list Effect * RunEnd :=
  match route with
  | fromId :: ((toId :: _) as rest) =>
      let color := default "" (LEG_COLORS !! (leg `mod` length LEG_COLORS)%nat) in
      let generator := algo_fn (num := num) algo fuel g fromId toId in
      match Graph.getNode g fromId, Graph.getNode g toId with
      | Some f, Some t =>
          let '(eff, acc, e) := drive generator leg true acc in
          let pre := NewEngine fromId toId
                     :: UpdateStatus (StatusLeg (leg + 1) (n_label f) (n_label t))
                     :: eff in
          match e with
          | LegDone path _ dist =>
              match path with
              | _ :: _ =>
                  let acc := mkAcc (totalVisited acc)
                               (dist_add (totalDistance acc) (legDist g path dist))
                               (allSegments acc ++ [(path, color)])
                               (allVisited acc) in
                  let '(eff', e') := run_legs fuel g algo legs (S leg) rest acc in
                  (pre ++ SetCurrentVisit None
                       :: SetPathSegments (allSegments acc)
                       :: UpdateStats (totalVisited acc) (leg + 1) (totalDistance acc)
                       :: (if (leg <? legs - 1)%nat then [Wait] else [])
                       ++ eff', e')
              | [] =>
                  (pre ++ [SetCurrentVisit None;
                           UpdateStatus (StatusNoPath (n_label f) (n_label t));
                           RunButton false], Returned)
              end
          | LegNull => let '(eff', e') := finish legs acc in (pre ++ eff', e')
          | LegRejected => (pre, Rejected)
          | LegStuck => (pre, Stuck)
          end
      | _, _ => ([NewEngine fromId toId], Rejected)
      end
  | _ => finish legs acc
  end.

(** The test for consecutive duplicates: [Some (Some name)] when one is
    found, [Some None] when reading its label throws. *)
Fixpoint find_duplicate (g : Graph) (route : list Id)
    : option (option string) :=
  match route with
  | a :: (b :: _) as rest =>
      if decide (a = b) then Some (n_label <$> Graph.getNode g a)
      else find_duplicate g rest
  | _ => None
  end.

Definition _run (fuel : nat) (g : Graph) (startId : string)
    (waypoints : list string) (algoKey : AlgoKey) : list Effect * RunEnd :=
  let stopIds := filter (λ s, s ≠ "") waypoints in
  if decide (startId = "") then ([UpdateStatus StatusSelectStart], Returned)
  else if decide (length stopIds = 0)%nat
  then ([UpdateStatus StatusAddStop], Returned)
  else
    let route := startId :: stopIds in
    match find_duplicate g route with
    | Some (Some name) => ([UpdateStatus (StatusDuplicate name)], Returned)
    | Some None => ([], Rejected)
    | None =>
        let legs := (length route - 1)%nat in
        let '(eff, e) :=
          run_legs fuel g algoKey legs 0 route (mkAcc 0 (Finite 0) [] []) in
        (ResetVisualization :: RunButton true
           :: UpdateStatus (StatusRunning (algo_name algoKey) legs) :: eff, e)
    end.
End Run.

(** ** Building a graph through its interface *)

Inductive Op :=
| OpAddNode (id : Id) (x y : Z) (label : string) (type : option string)
| OpAddEdge (fromId toId : Id) (weight : option Q).

Definition apply_op (g : Graph) (op : Op) : Graph :=
  match op with
  | OpAddNode id x y label type => Graph.addNode g id x y label type
  | OpAddEdge fromId toId weight => (Graph.addEdge g fromId toId weight).1
  end.

(** The graph after a sequence of calls on a new [Graph]; a call that
    throws leaves the graph as the exception found it. *)
Definition build (ops : list Op) : Graph := foldl apply_op Graph.empty ops.

(** Looking up the weight of the pair [(u, v)], the way [_calcPathDist]
    does. *)
Definition weight_of (g : Graph) (u v : Id) : option Z :=
  e_weight <$> List.find (λ n, bool_decide (e_node n = v))
                 (Graph.getNeighbors g u).

(** What the interface maintains. *)
Record graph_wf (g : Graph) : Prop := {
  wf_id : ∀ k n, JsMap.get (nodes g) k = Some n → n_id n = k;
  wf_adj : ∀ k, JsMap.has (nodes g) k = true → JsMap.has (edges g) k = true;
  wf_target : ∀ k e, e ∈ Graph.getNeighbors g k →
                JsMap.has (nodes g) (e_node e) = true;
}.


(** ** Definitions used by the statements *)


(** The three-node example of the specification. *)
Definition example_ops : list Op :=
  [OpAddNode "A" 0 0 "A" None;
   OpAddNode "B" 10 0 "B" None;
   OpAddNode "C" 0 10 "C" None;
   OpAddEdge "A" "B" (Some (10 # 1)%Q);
   OpAddEdge "A" "C" (Some (10 # 1)%Q);
   OpAddEdge "B" "C" (Some (5 # 1)%Q)].

Definition example_graph : Graph := build example_ops.

(** The path of the [Done] event that [step] receives from a generator,
    when it receives one. *)
Fixpoint received_done (t : Trace) : option (list Id) :=
  match t with
  | Yield (Visit _ _ _ _) rest => received_done rest
  | Yield (Done path _ _) _ => Some path
  | _ => None
  end.

Definition is_engine (x : Effect) : bool :=
  match x with NewEngine _ _ => true | _ => false end.

Definition is_trip_complete (x : Effect) : bool :=
  match x with UpdateStatus (StatusTripComplete _ _) => true | _ => false end.

(** The example graph with one more node, [D], that has no edge. *)
Definition example_graph_D : Graph :=
  build (example_ops ++ [OpAddNode "D" 5 5 "D" None]).

(** The entry at index [a] is not above the entry at index [b]
    ([data[b].priority < data[a].priority] is false). *)
Definition le_at {P} (lt : P → P → bool) (data : list (Entry P))
    (a b : nat) : Prop :=
  ∀ x y, data !! a = Some x → data !! b = Some y →
         lt (priority y) (priority x) = false.

(** The min-heap property: no element is below its parent. *)
Definition heap_ok {P} (lt : P → P → bool) (data : list (Entry P)) : Prop :=
  ∀ j, (0 < j)%nat → le_at lt data ((j - 1) / 2) j.

(** The heap property everywhere but between [i] and its parent, the
    children of [i] being not below the parent of [i]. *)
Definition almost_up {P} (lt : P → P → bool) (data : list (Entry P))
    (i : nat) : Prop :=
  (∀ j, (0 < j)%nat → j ≠ i → le_at lt data ((j - 1) / 2) j) ∧
  (∀ c, (0 < i)%nat → (0 < c)%nat → ((c - 1) / 2)%nat = i →
        le_at lt data ((i - 1) / 2) c).

(** The heap property everywhere but between [i] and its children, the
    children of [i] being not below the parent of [i]. *)
Definition almost_down {P} (lt : P → P → bool) (data : list (Entry P))
    (i : nat) : Prop :=
  (∀ j, (0 < j)%nat → ((j - 1) / 2)%nat ≠ i → le_at lt data ((j - 1) / 2) j) ∧
  (∀ c, (0 < i)%nat → (0 < c)%nat → ((c - 1) / 2)%nat = i →
        le_at lt data ((i - 1) / 2) c).

(** The min-heap property on integer priorities: the priority of every
    element is greater than or equal to its parent's. *)
Definition min_heap (data : list (Entry Z)) : Prop :=
  ∀ i child parent,
    (0 < i)%nat → data !! i = Some child →
    data !! ((i - 1) / 2)%nat = Some parent →
    priority parent ≤ priority child.

(** A path of the graph: the adjacency entries it follows, from [a] to
    [b]. *)
Inductive path (g : Graph) : Id → list Edge → Id → Prop :=
| path_nil a : path g a [] a
| path_cons a e es b :
    e ∈ Graph.getNeighbors g a → path g (e_node e) es b →
    path g a (e :: es) b.

(** The total weight of a path. *)
Definition path_weight (es : list Edge) : Z :=
  foldr (λ e s, e_weight e + s) 0 es.

(** Every stored weight is the default one for the coordinates of its
    endpoints. *)
Definition default_weighted (g : Graph) : Prop :=
  ∀ u e, e ∈ Graph.getNeighbors g u →
    ∃ nu nv, Graph.getNode g u = Some nu ∧
             Graph.getNode g (e_node e) = Some nv ∧
             e_weight e = round_hypot (n_x nv - n_x nu) (n_y nv - n_y nu).


(** The total cost of a path for a cost [c] of its edges. *)
Definition path_cost (c : Edge → Z) (es : list Edge) : Z :=
  foldr (λ e s, c e + s) 0 es.

(** What the searches maintain about [parent]: walking it from a key
    leads to the start, along edges of the graph; [d] counts the steps of
    the walk and [W] adds up the cost of its edges. *)
Record parent_tree (g : Graph) (s : Id) (parent : list (Id * option Id))
    (d : Id → nat) (c : Edge → Z) (W : Id → Z) : Prop := {
  pt_root : JsMap.get parent s = Some None;
  pt_root_d : d s = 0%nat;
  pt_root_W : W s = 0;
  pt_null : ∀ v, JsMap.get parent v = Some None → v = s;
  pt_step : ∀ v u, JsMap.get parent v = Some (Some u) →
      JsMap.has parent u = true ∧ d v = S (d u) ∧
      ∃ e, e ∈ Graph.getNeighbors g u ∧ e_node e = v ∧ W v = W u + c e;
}.

(** The number of adjacency entries of the graph. *)
Definition edge_count (g : Graph) : nat :=
  foldr (λ kv n, (length kv.2 + n)%nat) 0%nat (edges g).

(** The adjacency entries whose target is not in [visited]. *)
Definition unvisited_targets (g : Graph) (visited : list Id) : nat :=
  foldr (λ kv n, (length (filter (λ e, e_node e ∉ visited) kv.2) + n)%nat)
    0%nat (edges g).

(** The adjacency entries of the keys that are not in [visited]. *)
Definition pending (g : Graph) (visited : list Id) : nat :=
  foldr (λ kv n, ((if JsSet.has visited kv.1 then 0 else length kv.2) + n)%nat)
    0%nat (edges g).

(** A queue in which no element is deeper than a later one. *)
Fixpoint dsorted (d : Id → nat) (q : list Id) : Prop :=
  match q with
  | [] => True
  | x :: q' => (∀ y, y ∈ q' → (d x ≤ d y)%nat) ∧ dsorted d q'
  end.

(** Every neighbour of [u] is visited, at most one step deeper. *)
Definition closed (g : Graph) (d : Id → nat) (visited : list Id) (u : Id)
    : Prop :=
  ∀ e, e ∈ Graph.getNeighbors g u →
       e_node e ∈ visited ∧ (d (e_node e) ≤ S (d u))%nat.

(** The invariant of the loop of [bfs], [d] being the depth at which a
    node was discovered and [target] the end of the search. *)
Record bfs_inv (g : Graph) (s target : Id) (d : Id → nat) (st : BfsState)
    : Prop := {
  bi_tree : parent_tree g s (bfs_parent st) d (λ _, 1) (λ v, Z.of_nat (d v));
  bi_keys : ∀ v, JsMap.has (bfs_parent st) v = true ↔ v ∈ bfs_visited st;
  bi_queue : ∀ q, q ∈ bfs_queue st → q ∈ bfs_visited st;
  bi_sorted : dsorted d (bfs_queue st);
  bi_range : ∀ x y, x ∈ bfs_queue st → y ∈ bfs_queue st → (d y ≤ S (d x))%nat;
  bi_expanded : ∀ u, u ∈ bfs_visited st → u ∉ bfs_queue st →
      closed g d (bfs_visited st) u ∧
      ∀ q, q ∈ bfs_queue st → (d u ≤ d q)%nat;
  bi_target : target ∉ bfs_visited st ∨ target ∈ bfs_queue st;
}.

(** The invariant while the neighbours of [c] are enqueued, [done] being
    those already handled. *)
Record bfs_mid (g : Graph) (s target c : Id) (dc : nat) (done : list Edge)
    (d : Id → nat) (st : BfsState) : Prop := {
  bm_tree : parent_tree g s (bfs_parent st) d (λ _, 1) (λ v, Z.of_nat (d v));
  bm_keys : ∀ v, JsMap.has (bfs_parent st) v = true ↔ v ∈ bfs_visited st;
  bm_current : c ∈ bfs_visited st ∧ d c = dc;
  bm_queue : ∀ q, q ∈ bfs_queue st →
      q ∈ bfs_visited st ∧ (dc ≤ d q ≤ S dc)%nat;
  bm_sorted : dsorted d (bfs_queue st);
  bm_expanded : ∀ u, u ∈ bfs_visited st → u ∉ bfs_queue st → u ≠ c →
      closed g d (bfs_visited st) u ∧ (d u ≤ dc)%nat;
  bm_done : ∀ e, e ∈ done →
      e_node e ∈ bfs_visited st ∧ (d (e_node e) ≤ S dc)%nat;
  bm_target : target ≠ c ∧
      (target ∉ bfs_visited st ∨ target ∈ bfs_queue st);
}.

(** The [Done] event that [step] receives from a generator, when it
    receives one. *)
Fixpoint done_event (t : Trace) : option Event :=
  match t with
  | Yield (Visit _ _ _ _) rest => done_event rest
  | Yield (Done path visited dist) _ => Some (Done path visited dist)
  | _ => None
  end.




(** * More of the code: definitions *)

(** ** graph.js: getAllEdges *)

(** [{ from, to, weight }] *)
Record EdgeRecord := mkEdgeRecord { er_from : Id; er_to : Id; er_weight : Z }.

(** [[fromId, toId].sort().join('-')]: the default [sort] orders the two
    strings by their code units and leaves equal strings in place. *)
Definition edge_key (fromId toId : Id) : string :=
  if String.ltb toId fromId then toId +:+ "-" +:+ fromId
  else fromId +:+ "-" +:+ toId.

(** The body of the inner loop: [seen] and [result] after one adjacency
    entry of [fromId]. *)
Definition getAllEdges_entry (fromId : Id)
    (acc : list string * list EdgeRecord) (e : Edge)
    : list string * list EdgeRecord :=
  let key := edge_key fromId (e_node e) in
  if JsSet.has acc.1 key then acc
  else (JsSet.add acc.1 key,
        acc.2 ++ [mkEdgeRecord fromId (e_node e) (e_weight e)]).

Definition getAllEdges_loop (acc : list string * list EdgeRecord)
    (edges : list (Id * list Edge)) : list string * list EdgeRecord :=
  foldl (λ acc kv, foldl (getAllEdges_entry kv.1) acc kv.2) acc edges.

Definition getAllEdges (g : Graph) : list EdgeRecord :=
  (getAllEdges_loop ([], []) (edges g)).2.

(** ** graph.js: createCityMap *)

(** A sequence of calls on a graph, stopped by the first exception. *)
Fixpoint run_ops (g : Graph) (ops : list Op) : Graph * option Error :=
  match ops with
  | [] => (g, None)
  | OpAddNode id x y label type :: ops =>
      run_ops (Graph.addNode g id x y label type) ops
  | OpAddEdge fromId toId weight :: ops =>
      match Graph.addEdge g fromId toId weight with
      | (g', None) => run_ops g' ops
      | (g', Some err) => (g', Some err)
      end
  end.

Definition createCityMap_ops : list Op :=
  [OpAddNode "home" 1200 800 "My Home" (Some "home");
   OpAddNode "city_hall" 1150 700 "City Hall" (Some "government");
   OpAddNode "central_park" 1050 620 "Central Park" (Some "park");
   OpAddNode "main_square" 1300 650 "Main Square" (Some "landmark");
   OpAddNode "post_office" 1250 750 "Post Office" (Some "government");
   OpAddNode "central_bank" 1100 780 "Central Bank" (Some "business");
   OpAddNode "restaurant_row" 1200 900 "Restaurant Row" (Some "shopping");
   OpAddNode "coffee_house" 1320 820 "The Coffee House" (Some "shopping");
   OpAddNode "book_store" 1050 850 "City Book Store" (Some "shopping");
   OpAddNode "fountain_plaza" 1180 640 "Fountain Plaza" (Some "landmark");
   OpAddNode "clock_tower" 1350 730 "Clock Tower" (Some "landmark");
   OpAddNode "north_station" 1100 350 "North Station" (Some "station");
   OpAddNode "university" 900 300 "University" (Some "education");
   OpAddNode "tech_park" 1350 280 "Tech Park" (Some "business");
   OpAddNode "library" 1000 430 "Public Library" (Some "education");
   OpAddNode "science_museum" 1150 250 "Science Museum" (Some "landmark");
   OpAddNode "north_park" 850 400 "Maple Park" (Some "park");
   OpAddNode "yoga_studio" 1250 380 "Yoga Studio" (Some "entertainment");
   OpAddNode "art_gallery" 1050 500 "Art Gallery" (Some "entertainment");
   OpAddNode "organic_market" 950 520 "Organic Market" (Some "shopping");
   OpAddNode "daycare" 1200 450 "Sunshine Daycare" (Some "education");
   OpAddNode "tech_hub" 1550 250 "Innovation Hub" (Some "business");
   OpAddNode "startup_campus" 1650 350 "Startup Campus" (Some "business");
   OpAddNode "data_center" 1500 400 "Data Center" (Some "business");
   OpAddNode "ne_cafe" 1600 180 "Hilltop Café" (Some "shopping");
   OpAddNode "observatory" 1450 150 "Observatory" (Some "education");
   OpAddNode "drone_park" 1700 250 "Drone Park" (Some "park");
   OpAddNode "east_mall" 1700 550 "East Mall" (Some "shopping");
   OpAddNode "hospital" 1800 700 "General Hospital" (Some "hospital");
   OpAddNode "sports_arena" 1650 750 "Sports Arena" (Some "entertainment");
   OpAddNode "east_park" 1900 500 "Riverside Park" (Some "park");
   OpAddNode "pharmacy" 1750 630 "City Pharmacy" (Some "hospital");
   OpAddNode "gym" 1550 650 "Iron Gym" (Some "entertainment");
   OpAddNode "pet_clinic" 1850 600 "Pet Clinic" (Some "hospital");
   OpAddNode "bowling" 1600 500 "Strike Bowling" (Some "entertainment");
   OpAddNode "sushi_bar" 1500 580 "Sushi Paradise" (Some "shopping");
   OpAddNode "east_school" 1700 450 "Eastside School" (Some "education");
   OpAddNode "airport" 1900 950 "Airport" (Some "transport");
   OpAddNode "cargo_depot" 1800 1050 "Cargo Depot" (Some "transport");
   OpAddNode "hotel_grand" 1700 900 "Grand Hotel" (Some "residential");
   OpAddNode "convention_ctr" 1600 950 "Convention Center" (Some "business");
   OpAddNode "se_park" 1850 850 "Palm Garden" (Some "park");
   OpAddNode "driving_school" 1750 1000 "Driving School" (Some "education");
   OpAddNode "car_wash" 1650 1050 "Sparkle Car Wash" (Some "business");
   OpAddNode "gas_station_e" 1550 870 "East Gas Station" (Some "business");
   OpAddNode "south_station" 1100 1150 "South Station" (Some "station");
   OpAddNode "market" 1300 1050 "Old Market" (Some "shopping");
   OpAddNode "museum" 950 1000 "City Museum" (Some "landmark");
   OpAddNode "school" 850 1100 "Lincoln School" (Some "education");
   OpAddNode "harbor" 1200 1300 "Harbor" (Some "transport");
   OpAddNode "fish_market" 1300 1250 "Fish Market" (Some "shopping");
   OpAddNode "lighthouse" 1100 1400 "Lighthouse" (Some "landmark");
   OpAddNode "beach" 1350 1350 "Sunset Beach" (Some "park");
   OpAddNode "surf_shop" 1250 1400 "Surf Shop" (Some "shopping");
   OpAddNode "aquarium" 1050 1250 "City Aquarium" (Some "entertainment");
   OpAddNode "south_clinic" 1150 1050 "South Clinic" (Some "hospital");
   OpAddNode "bakery" 1000 1100 "Golden Bakery" (Some "shopping");
   OpAddNode "power_plant" 500 1100 "Power Plant" (Some "business");
   OpAddNode "recycling" 600 1200 "Recycling Center" (Some "business");
   OpAddNode "sw_park" 700 1050 "Willow Park" (Some "park");
   OpAddNode "community_hall" 650 950 "Community Hall" (Some "government");
   OpAddNode "sw_school" 550 1000 "Riverside School" (Some "education");
   OpAddNode "laundromat" 750 1150 "Quick Wash" (Some "business");
   OpAddNode "west_gate" 500 650 "West Gate" (Some "landmark");
   OpAddNode "factory" 400 500 "Industrial Zone" (Some "business");
   OpAddNode "residential_w" 550 850 "West Residential" (Some "residential");
   OpAddNode "fire_station" 700 700 "Fire Station" (Some "emergency");
   OpAddNode "west_park" 400 850 "Sunset Park" (Some "park");
   OpAddNode "police_hq" 600 750 "Police HQ" (Some "emergency");
   OpAddNode "cinema" 800 720 "Grand Cinema" (Some "entertainment");
   OpAddNode "pizza_place" 700 830 "Tony's Pizza" (Some "shopping");
   OpAddNode "tailor" 500 750 "Master Tailor" (Some "shopping");
   OpAddNode "gas_station_w" 450 600 "West Gas Station" (Some "business");
   OpAddNode "auto_repair" 350 700 "Auto Repair Shop" (Some "business");
   OpAddNode "temple" 600 350 "Heritage Temple" (Some "landmark");
   OpAddNode "monastery" 500 250 "Old Monastery" (Some "landmark");
   OpAddNode "nw_garden" 700 300 "Zen Garden" (Some "park");
   OpAddNode "pottery_studio" 650 450 "Pottery Studio" (Some "entertainment");
   OpAddNode "herb_shop" 550 400 "Herbal Shop" (Some "shopping");
   OpAddNode "waterfall" 450 300 "Silver Waterfall" (Some "park");
   OpAddNode "camping_ground" 350 350 "Camping Ground" (Some "park");
   OpAddNode "archery_range" 400 450 "Archery Range" (Some "entertainment");
   OpAddNode "nw_station" 700 200 "Northwest Station" (Some "station");
   OpAddNode "stadium" 1400 1100 "City Stadium" (Some "entertainment");
   OpAddNode "courthouse" 1000 700 "Courthouse" (Some "government");
   OpAddNode "tv_station" 1500 750 "TV Station" (Some "business");
   OpAddNode "radio_tower" 1450 500 "Radio Tower" (Some "business");
   OpAddNode "zoo" 850 550 "City Zoo" (Some "entertainment");
   OpAddNode "botanical_garden" 750 480 "Botanical Garden" (Some "park");
   OpAddEdge "home" "city_hall" None;
   OpAddEdge "home" "restaurant_row" None;
   OpAddEdge "home" "post_office" None;
   OpAddEdge "home" "central_bank" None;
   OpAddEdge "home" "coffee_house" None;
   OpAddEdge "city_hall" "central_park" None;
   OpAddEdge "city_hall" "main_square" None;
   OpAddEdge "city_hall" "fountain_plaza" None;
   OpAddEdge "city_hall" "post_office" None;
   OpAddEdge "city_hall" "courthouse" None;
   OpAddEdge "central_park" "fountain_plaza" None;
   OpAddEdge "central_park" "art_gallery" None;
   OpAddEdge "central_park" "organic_market" None;
   OpAddEdge "main_square" "clock_tower" None;
   OpAddEdge "main_square" "coffee_house" None;
   OpAddEdge "post_office" "clock_tower" None;
   OpAddEdge "central_bank" "book_store" None;
   OpAddEdge "central_bank" "courthouse" None;
   OpAddEdge "restaurant_row" "book_store" None;
   OpAddEdge "restaurant_row" "market" None;
   OpAddEdge "coffee_house" "tv_station" None;
   OpAddEdge "fountain_plaza" "central_park" None;
   OpAddEdge "north_station" "library" None;
   OpAddEdge "north_station" "science_museum" None;
   OpAddEdge "north_station" "daycare" None;
   OpAddEdge "north_station" "yoga_studio" None;
   OpAddEdge "university" "library" None;
   OpAddEdge "university" "north_park" None;
   OpAddEdge "university" "science_museum" None;
   OpAddEdge "library" "art_gallery" None;
   OpAddEdge "library" "organic_market" None;
   OpAddEdge "north_park" "zoo" None;
   OpAddEdge "north_park" "botanical_garden" None;
   OpAddEdge "art_gallery" "fountain_plaza" None;
   OpAddEdge "daycare" "yoga_studio" None;
   OpAddEdge "tech_park" "yoga_studio" None;
   OpAddEdge "tech_park" "science_museum" None;
   OpAddEdge "tech_park" "tech_hub" None;
   OpAddEdge "organic_market" "zoo" None;
   OpAddEdge "tech_hub" "startup_campus" None;
   OpAddEdge "tech_hub" "observatory" None;
   OpAddEdge "tech_hub" "ne_cafe" None;
   OpAddEdge "startup_campus" "data_center" None;
   OpAddEdge "startup_campus" "drone_park" None;
   OpAddEdge "data_center" "radio_tower" None;
   OpAddEdge "data_center" "east_school" None;
   OpAddEdge "ne_cafe" "drone_park" None;
   OpAddEdge "observatory" "ne_cafe" None;
   OpAddEdge "observatory" "science_museum" None;
   OpAddEdge "east_mall" "bowling" None;
   OpAddEdge "east_mall" "east_school" None;
   OpAddEdge "east_mall" "pharmacy" None;
   OpAddEdge "east_mall" "east_park" None;
   OpAddEdge "hospital" "pharmacy" None;
   OpAddEdge "hospital" "pet_clinic" None;
   OpAddEdge "hospital" "sports_arena" None;
   OpAddEdge "sports_arena" "gym" None;
   OpAddEdge "sports_arena" "hotel_grand" None;
   OpAddEdge "east_park" "pet_clinic" None;
   OpAddEdge "gym" "sushi_bar" None;
   OpAddEdge "gym" "bowling" None;
   OpAddEdge "sushi_bar" "radio_tower" None;
   OpAddEdge "sushi_bar" "tv_station" None;
   OpAddEdge "bowling" "east_school" None;
   OpAddEdge "pharmacy" "hospital" None;
   OpAddEdge "main_square" "radio_tower" None;
   OpAddEdge "airport" "se_park" None;
   OpAddEdge "airport" "cargo_depot" None;
   OpAddEdge "airport" "hotel_grand" None;
   OpAddEdge "hotel_grand" "convention_ctr" None;
   OpAddEdge "hotel_grand" "se_park" None;
   OpAddEdge "convention_ctr" "gas_station_e" None;
   OpAddEdge "convention_ctr" "stadium" None;
   OpAddEdge "cargo_depot" "driving_school" None;
   OpAddEdge "cargo_depot" "car_wash" None;
   OpAddEdge "driving_school" "car_wash" None;
   OpAddEdge "gas_station_e" "tv_station" None;
   OpAddEdge "se_park" "hospital" None;
   OpAddEdge "south_station" "south_clinic" None;
   OpAddEdge "south_station" "harbor" None;
   OpAddEdge "south_station" "bakery" None;
   OpAddEdge "market" "stadium" None;
   OpAddEdge "market" "south_clinic" None;
   OpAddEdge "market" "fish_market" None;
   OpAddEdge "museum" "school" None;
   OpAddEdge "museum" "book_store" None;
   OpAddEdge "museum" "community_hall" None;
   OpAddEdge "school" "bakery" None;
   OpAddEdge "school" "sw_park" None;
   OpAddEdge "harbor" "fish_market" None;
   OpAddEdge "harbor" "lighthouse" None;
   OpAddEdge "harbor" "aquarium" None;
   OpAddEdge "fish_market" "beach" None;
   OpAddEdge "lighthouse" "surf_shop" None;
   OpAddEdge "lighthouse" "aquarium" None;
   OpAddEdge "beach" "surf_shop" None;
   OpAddEdge "south_clinic" "bakery" None;
   OpAddEdge "restaurant_row" "south_clinic" None;
   OpAddEdge "power_plant" "sw_school" None;
   OpAddEdge "power_plant" "recycling" None;
   OpAddEdge "recycling" "laundromat" None;
   OpAddEdge "sw_park" "community_hall" None;
   OpAddEdge "sw_park" "laundromat" None;
   OpAddEdge "community_hall" "sw_school" None;
   OpAddEdge "community_hall" "residential_w" None;
   OpAddEdge "sw_school" "recycling" None;
   OpAddEdge "west_gate" "factory" None;
   OpAddEdge "west_gate" "fire_station" None;
   OpAddEdge "west_gate" "gas_station_w" None;
   OpAddEdge "west_gate" "tailor" None;
   OpAddEdge "fire_station" "police_hq" None;
   OpAddEdge "fire_station" "cinema" None;
   OpAddEdge "police_hq" "tailor" None;
   OpAddEdge "police_hq" "residential_w" None;
   OpAddEdge "residential_w" "west_park" None;
   OpAddEdge "residential_w" "pizza_place" None;
   OpAddEdge "west_park" "tailor" None;
   OpAddEdge "west_park" "auto_repair" None;
   OpAddEdge "cinema" "pizza_place" None;
   OpAddEdge "cinema" "courthouse" None;
   OpAddEdge "cinema" "central_park" None;
   OpAddEdge "gas_station_w" "factory" None;
   OpAddEdge "gas_station_w" "auto_repair" None;
   OpAddEdge "auto_repair" "factory" None;
   OpAddEdge "temple" "monastery" None;
   OpAddEdge "temple" "nw_garden" None;
   OpAddEdge "temple" "herb_shop" None;
   OpAddEdge "temple" "pottery_studio" None;
   OpAddEdge "monastery" "waterfall" None;
   OpAddEdge "monastery" "camping_ground" None;
   OpAddEdge "nw_garden" "nw_station" None;
   OpAddEdge "nw_garden" "botanical_garden" None;
   OpAddEdge "pottery_studio" "herb_shop" None;
   OpAddEdge "pottery_studio" "archery_range" None;
   OpAddEdge "waterfall" "camping_ground" None;
   OpAddEdge "camping_ground" "archery_range" None;
   OpAddEdge "archery_range" "factory" None;
   OpAddEdge "nw_station" "university" None;
   OpAddEdge "nw_station" "north_park" None;
   OpAddEdge "herb_shop" "west_gate" None;
   OpAddEdge "courthouse" "fire_station" None;
   OpAddEdge "zoo" "botanical_garden" None;
   OpAddEdge "botanical_garden" "pottery_studio" None;
   OpAddEdge "clock_tower" "radio_tower" None;
   OpAddEdge "tv_station" "sports_arena" None;
   OpAddEdge "stadium" "beach" None;
   OpAddEdge "pizza_place" "book_store" None;
   OpAddEdge "daycare" "data_center" None].

(** The graph that [createCityMap] returns, and the exception if one was
    thrown on the way. *)
Definition createCityMap : Graph * option Error :=
  run_ops Graph.empty createCityMap_ops.

(** The character ['-'] (code 45). *)
Definition dash : Ascii.ascii :=
  Ascii.Ascii true false true true false true false false.

(** The identifier has no ['-']. *)
Definition plain_id (id : Id) : Prop :=
  dash ∉ String.list_ascii_of_string id.

(** [b] can be reached from [a] along adjacency entries. *)
Definition reachable (g : Graph) (a b : Id) : Prop := ∃ es, path g a es b.

(** What the interface maintains besides [graph_wf]. *)
Record graph_built (g : Graph) : Prop := {
  gb_wf : graph_wf g;
  gb_keys : NoDup (JsMap.keys (edges g));
  gb_nodes : ∀ k, JsMap.has (edges g) k = true → JsMap.has (nodes g) k = true;
  gb_undirected : ∀ u e, e ∈ Graph.getNeighbors g u →
      mkEdge u (e_weight e) ∈ Graph.getNeighbors g (e_node e);
}.

(** The keys under which [getAllEdges] remembers the records. *)
Definition keys_of (result : list EdgeRecord) : list string :=
  (λ r, edge_key (er_from r) (er_to r)) <$> result.

(** [seen] holds the keys of [result], once each. *)
Definition edges_acc_ok (acc : list string * list EdgeRecord) : Prop :=
  acc.1 = keys_of acc.2 ∧ NoDup acc.1.

(** Two roads whose identifiers give the same key. *)
Definition dash_ops : list Op :=
  [OpAddNode "a-b" 0 0 "" None; OpAddNode "c" 3 4 "" None;
   OpAddNode "a" 0 0 "" None; OpAddNode "b-c" 6 8 "" None;
   OpAddEdge "a-b" "c" None; OpAddEdge "a" "b-c" None].

(** ** Definitions used by the statements on DFS *)

(** What the loop of [dfs] maintains between two turns: [parent] leads
    back to the start through visited nodes, and every neighbour of a
    visited node is visited or waits on the stack. *)
Record dfs_inv (g : Graph) (s target : Id) (st : DfsState) : Prop := {
  fi_tree : ∃ d, parent_tree g s (dfs_parent st) d (λ _, 0) (λ _, 0);
  fi_parent : ∀ v u, JsMap.get (dfs_parent st) v = Some (Some u) →
                     u ∈ dfs_visited st;
  fi_visited : ∀ v, v ∈ dfs_visited st → JsMap.has (dfs_parent st) v = true;
  fi_stack : ∀ v, v ∈ dfs_stack st → JsMap.has (dfs_parent st) v = true;
  fi_start : s ∈ dfs_visited st ∨ dfs_stack st = [s];
  fi_closed : ∀ u e, u ∈ dfs_visited st → e ∈ Graph.getNeighbors g u →
      e_node e ∈ dfs_visited st ∨ e_node e ∈ dfs_stack st;
  fi_target : target ∉ dfs_visited st;
}.

(** What holds while the neighbours of [c] are pushed, [done] being
    those already handled. *)
Record dfs_mid (g : Graph) (s target c : Id) (done : list Edge)
    (st : DfsState) : Prop := {
  fm_tree : ∃ d, parent_tree g s (dfs_parent st) d (λ _, 0) (λ _, 0);
  fm_parent : ∀ v u, JsMap.get (dfs_parent st) v = Some (Some u) →
                     u ∈ dfs_visited st;
  fm_visited : ∀ v, v ∈ dfs_visited st → JsMap.has (dfs_parent st) v = true;
  fm_stack : ∀ v, v ∈ dfs_stack st → JsMap.has (dfs_parent st) v = true;
  fm_start : s ∈ dfs_visited st;
  fm_current : c ∈ dfs_visited st;
  fm_closed : ∀ u e, u ∈ dfs_visited st → u ≠ c →
      e ∈ Graph.getNeighbors g u →
      e_node e ∈ dfs_visited st ∨ e_node e ∈ dfs_stack st;
  fm_done : ∀ e, e ∈ done →
      e_node e ∈ dfs_visited st ∨ e_node e ∈ dfs_stack st;
  fm_target : target ∉ dfs_visited st;
}.

(** ** Definitions used by the statements on Dijkstra with any weights *)




(** ** Definitions used by the statements on A* *)

Section AStarInv.
Context {num : Type} `{Number num}.


End AStarInv.

(** Five nodes on a diagonal, joined with the default weights: the road
    from [S] to [G] and the roads through [M1], [M2] and [M3]. *)
Definition detour_ops : list Op :=
  [OpAddNode "S" 0 0 "S" None; OpAddNode "M1" 5 5 "M1" None;
   OpAddNode "M2" 6 6 "M2" None; OpAddNode "M3" 7 7 "M3" None;
   OpAddNode "G" 8 8 "G" None;
   OpAddEdge "S" "G" None; OpAddEdge "S" "M1" None;
   OpAddEdge "M1" "M2" None; OpAddEdge "M2" "M3" None;
   OpAddEdge "M3" "G" None].

Definition detour_graph : Graph := build detour_ops.

(** The entry [e] of [u] has the default weight. *)
Definition default_entry (g : Graph) (u : Id) (e : Edge) : bool :=
  match Graph.getNode g u, Graph.getNode g (e_node e) with
  | Some nu, Some nv =>
      bool_decide (e_weight e
                   = round_hypot (n_x nv - n_x nu) (n_y nv - n_y nu))
  | _, _ => false
  end.

(** The nodes of the [Visit] events of a trace, in order. *)
Fixpoint visit_nodes (t : Trace) : list Id :=
  match t with
  | Yield (Visit current _ _ _) rest => current :: visit_nodes rest
  | Yield (Done _ _ _) rest => visit_nodes rest
  | _ => []
  end.

(** ** Definitions used by the statements on the heap and on the
       orchestrator *)

(** [while (heap.size > 0) out.push(heap.pop())], at most [fuel] times:
    the entries in the order in which [pop] hands them over. *)
Fixpoint drain {P} (lt : P → P → bool) (fuel : nat) (data : list (Entry P))
    : list (Entry P) :=
  match fuel with
  | O => []
  | S fuel =>
      if (0 <? MinHeap.size data)%nat then
        match MinHeap.pop lt data with
        | (Some top, data') => top :: drain lt fuel data'
        | (None, _) => []
        end
      else []
  end.

(** The priorities never decrease along the list. *)
Fixpoint ascending (l : list (Entry Z)) : Prop :=
  match l with
  | [] => True
  | x :: l' => (∀ y, y ∈ l' → priority x ≤ priority y) ∧ ascending l'
  end.


(** The legs of a route: its consecutive pairs. *)
Fixpoint legs_of (route : list Id) : list (Id * Id) :=
  match route with
  | a :: (b :: _) as rest => (a, b) :: legs_of rest
  | _ => []
  end.

(** The engines that a run constructs, in order. *)
Definition engines (eff : list Effect) : list (Id * Id) :=
  omap (λ x, match x with NewEngine a b => Some (a, b) | _ => None end) eff.


(** ** app.js: the trip and its handlers

    The part of the state of [PathfinderApp] and of its [MapRenderer]
    that the handlers of the trip read and write.  The list in the
    sidebar is rebuilt from [waypoints] by [_renderWaypointList] after
    every change of its structure, so an index that a handler of an item
    captured is an index into [waypoints] as it is when the handler runs.
    The status line is left out. *)

Module PathfinderApp.

(** [{ id, nodeId }]; [nodeId] is [''] while nothing is selected. *)
Record Waypoint := mkWaypoint { wp_id : nat; wp_nodeId : string }.

Record Renderer := mkRenderer {
  startNode : option Id;
  waypointNodes : list Id;
  visitedNodes : list Id;
  frontierNodes : list Id;
  pathSegments : list (list Id * string);
  currentVisitNode : option Id }.

Record App := mkApp {
  waypoints : list Waypoint;
  nextWaypointId : nat;
  isRunning : bool;
  animationTimers : list nat;        (* the timers not yet cleared *)
  startSelect_value : string;
  runBtn_disabled : bool;
  statsPanel_active : bool;
  renderer : Renderer }.

(** [MapRenderer.setStart], [setWaypoints] and [resetVisualization] *)
Definition setStart (r : Renderer) (nodeId : Id) : Renderer :=
  mkRenderer (Some nodeId) (waypointNodes r) (visitedNodes r)
    (frontierNodes r) (pathSegments r) (currentVisitNode r).

Definition setWaypoints (r : Renderer) (waypointIds : list Id) : Renderer :=
  mkRenderer (startNode r) waypointIds (visitedNodes r)
    (frontierNodes r) (pathSegments r) (currentVisitNode r).

Definition resetVisualization (r : Renderer) : Renderer :=
  mkRenderer (startNode r) (waypointNodes r) [] [] [] None.

Definition with_waypoints (a : App) (ws : list Waypoint) (next : nat) : App :=
  mkApp ws next (isRunning a) (animationTimers a) (startSelect_value a)
    (runBtn_disabled a) (statsPanel_active a) (renderer a).

Definition with_renderer (a : App) (r : Renderer) : App :=
  mkApp (waypoints a) (nextWaypointId a) (isRunning a) (animationTimers a)
    (startSelect_value a) (runBtn_disabled a) (statsPanel_active a) r.

(** [this.waypoints.map(w => w.nodeId).filter(Boolean)] *)
Definition stops (ws : list Waypoint) : list Id :=
  filter (λ s, s ≠ "") (wp_nodeId <$> ws).

Definition _syncRendererWaypoints (a : App) : App :=
  with_renderer a (setWaypoints (renderer a) (stops (waypoints a))).

(** Every pending timer is cleared. *)
Definition _resetVisualization (a : App) : App :=
  mkApp (waypoints a) (nextWaypointId a) (isRunning a) []
    (startSelect_value a) (runBtn_disabled a) false
    (resetVisualization (renderer a)).

Definition _reset (a : App) : App :=
  let a := _resetVisualization
             (mkApp (waypoints a) (nextWaypointId a) false (animationTimers a)
                (startSelect_value a) (runBtn_disabled a)
                (statsPanel_active a) (renderer a)) in
  mkApp (waypoints a) (nextWaypointId a) (isRunning a) (animationTimers a)
    (startSelect_value a) false false (renderer a).

Definition _addWaypoint (a : App) (nodeId : string) : App :=
  _syncRendererWaypoints
    (with_waypoints a
       (waypoints a ++ [mkWaypoint (nextWaypointId a) nodeId])
       (S (nextWaypointId a))).

Definition _removeWaypoint (a : App) (wpId : nat) : App :=
  _resetVisualization
    (_syncRendererWaypoints
       (with_waypoints a (filter (λ w, wp_id w ≠ wpId) (waypoints a))
          (nextWaypointId a))).

(** [[ws[i], ws[j]] = [ws[j], ws[i]]] *)
Definition swap_at (ws : list Waypoint) (i j : nat) : list Waypoint :=
  match ws !! i, ws !! j with
  | Some wi, Some wj => <[j := wi]> (<[i := wj]> ws)
  | _, _ => ws
  end.

Definition _swapWaypoints (a : App) (i j : Z) : App :=
  let len := Z.of_nat (length (waypoints a)) in
  if (i <? 0) || (j <? 0) || (len <=? i) || (len <=? j) then a
  else
    _resetVisualization
      (_syncRendererWaypoints
         (with_waypoints a (swap_at (waypoints a) (Z.to_nat i) (Z.to_nat j))
            (nextWaypointId a))).

(** The [change] handler of the select of the item at [index]:
    [wp.nodeId = e.target.value]. *)
Definition on_select_change (a : App) (index : nat) (value : string) : App :=
  _resetVisualization
    (_syncRendererWaypoints
       (with_waypoints a
          (alter (λ w, mkWaypoint (wp_id w) value) index (waypoints a))
          (nextWaypointId a))).

(** Where [splice(start, ...)] starts on an array of length [len];
    [None] is [NaN]. *)
Definition splice_start (len : nat) (start : option Z) : nat :=
  let rel := default 0 start in
  Z.to_nat (if rel <? 0 then Z.max (Z.of_nat len + rel) 0
            else Z.min rel (Z.of_nat len)).

(** The [drop] handler of the item at [toIndex]; [fromIndex] is what
    [parseInt] made of the dragged text.  [None] as a result: nothing was
    removed at [fromIndex], and [undefined] is inserted in [waypoints]. *)
Definition on_drop (a : App) (fromIndex : option Z) (toIndex : nat)
    : option App :=
  if decide (fromIndex = Some (Z.of_nat toIndex)) then Some a
  else
    let start := splice_start (length (waypoints a)) fromIndex in
    match waypoints a !! start with
    | Some moved =>
        let rest := delete start (waypoints a) in
        Some (_resetVisualization
                (_syncRendererWaypoints
                   (with_waypoints a
                      (take toIndex rest ++ moved :: drop toIndex rest)
                      (nextWaypointId a))))
    | None => None
    end.

(** [waypoints.find(w => !w.nodeId)] followed by
    [emptyWp.nodeId = nodeId]. *)
Fixpoint fill_first_empty (ws : list Waypoint) (nodeId : string)
    : option (list Waypoint) :=
  match ws with
  | [] => None
  | w :: ws' =>
      if decide (wp_nodeId w = "") then Some (mkWaypoint (wp_id w) nodeId :: ws')
      else (w ::.) <$> fill_first_empty ws' nodeId
  end.

(** [renderer.onNodeClick]; every node of the map is an option of the
    start select. *)
Definition onNodeClick (a : App) (nodeId : string) : App :=
  if isRunning a then a
  else if decide (startSelect_value a = "") then
    mkApp (waypoints a) (nextWaypointId a) (isRunning a) (animationTimers a)
      nodeId (runBtn_disabled a) (statsPanel_active a)
      (setStart (renderer a) nodeId)
  else if decide (nodeId = startSelect_value a) then a
  else
    let '(ws, next) :=
      match fill_first_empty (waypoints a) nodeId with
      | Some ws => (ws, nextWaypointId a)
      | None => (waypoints a ++ [mkWaypoint (nextWaypointId a) nodeId],
                 S (nextWaypointId a))
      end in
    _resetVisualization (_syncRendererWaypoints (with_waypoints a ws next)).

(** The [change] handler of the start select. *)
Definition on_start_change (a : App) (value : string) : App :=
  _resetVisualization
    (mkApp (waypoints a) (nextWaypointId a) (isRunning a) (animationTimers a)
       value (runBtn_disabled a) (statsPanel_active a)
       (setStart (renderer a) value)).

(** The state that the constructor and [_init] leave. *)
Definition init : App :=
  _addWaypoint
    (mkApp [] 1 false [] "home" false false
       (mkRenderer (Some "home") [] [] [] [] None))
    "".

(** What the user does to the trip. *)
Inductive Action :=
| AddStop                                   (* the add-stop button *)
| RemoveStop (wpId : nat)                   (* the delete button of an item *)
| MoveUp (index : nat) | MoveDown (index : nat)
| SelectChange (index : nat) (value : string)
| Drop (fromIndex : option Z) (toIndex : nat)
| NodeClick (nodeId : string)
| StartChange (value : string)
| ResetClick.

Definition handle (a : App) (act : Action) : option App :=
  match act with
  | AddStop => Some (_addWaypoint a "")
  | RemoveStop wpId => Some (_removeWaypoint a wpId)
  | MoveUp index =>
      Some (_swapWaypoints a (Z.of_nat index) (Z.of_nat index - 1))
  | MoveDown index =>
      Some (_swapWaypoints a (Z.of_nat index) (Z.of_nat index + 1))
  | SelectChange index value => Some (on_select_change a index value)
  | Drop fromIndex toIndex => on_drop a fromIndex toIndex
  | NodeClick nodeId => Some (onNodeClick a nodeId)
  | StartChange value => Some (on_start_change a value)
  | ResetClick => Some (_reset a)
  end.



End PathfinderApp.

(** ** renderer.js: MapRenderer._isEdgeInAnyPath *)

(** The loop over [i]: two consecutive nodes of [path] are [a] and [b],
    in one order or the other. *)
Fixpoint path_has_edge (path : list Id) (a b : Id) : bool :=
  match path with
  | x :: (y :: _) as rest =>
      (bool_decide (x = a) && bool_decide (y = b))
      || (bool_decide (x = b) && bool_decide (y = a))
      || path_has_edge rest a b
  | _ => false
  end.

(** The colour of the first segment that has the edge; [None] is
    [null]. *)
Fixpoint _isEdgeInAnyPath (pathSegments : list (list Id * string))
    (a b : Id) : option string :=
  match pathSegments with
  | [] => None
  | seg :: rest =>
      if path_has_edge seg.1 a b then Some seg.2
      else _isEdgeInAnyPath rest a b
  end.

(** [a] and [b] follow each other on [path], in one order or the
    other. *)
Definition on_path (path : list Id) (a b : Id) : Prop :=
  ∃ i, (path !! i = Some a ∧ path !! S i = Some b) ∨
       (path !! i = Some b ∧ path !! S i = Some a).
(** ** Facts about the containers *)

Section JsMapFacts.
Context {K V : Type} `{EqDecision K}.
Implicit Types (m : list (K * V)) (k : K) (v : V).

Lemma get_set m k v k' :
  JsMap.get (JsMap.set m k v) k' =
  if decide (k' = k) then Some v else JsMap.get m k'.
Proof.
  induction m as [|[k0 v0] m IH]; simpl.
  - repeat case_decide; congruence.
  - destruct (decide (k = k0)) as [->|Hne]; simpl;
      repeat case_decide; try congruence.
Qed.


Lemma get_set_ne m k v k' :
  k' ≠ k → JsMap.get (JsMap.set m k v) k' = JsMap.get m k'.
Proof. intros. rewrite get_set. by case_decide. Qed.

Lemma has_set m k v k' :
  JsMap.has (JsMap.set m k v) k' =
  if decide (k' = k) then true else JsMap.has m k'.
Proof. unfold JsMap.has. rewrite get_set. by case_decide. Qed.

Lemma has_true m k : JsMap.has m k = true ↔ is_Some (JsMap.get m k).
Proof.
  unfold JsMap.has. destruct (JsMap.get m k); split; intros Hx;
    try done; by destruct Hx.
Qed.

Lemma has_false m k : JsMap.has m k = false ↔ JsMap.get m k = None.
Proof. unfold JsMap.has. by destruct (JsMap.get m k). Qed.

Lemma set_same m k v : JsMap.get m k = Some v → JsMap.set m k v = m.
Proof.
  induction m as [|[k0 v0] m IH]; simpl; [done|].
  repeat case_decide; subst; intros; simplify_eq; try done.
  f_equal. by apply IH.
Qed.

Lemma length_set m k v :
  length (JsMap.set m k v) =
  if JsMap.has m k then length m else S (length m).
Proof.
  unfold JsMap.has.
  induction m as [|[k0 v0] m IH]; simpl; [done|].
  case_decide; simpl; [done|]. rewrite IH. by destruct (JsMap.get m k).
Qed.

Lemma get_Some_elem_of m k v : JsMap.get m k = Some v → (k, v) ∈ m.
Proof.
  induction m as [|[k0 v0] m IH]; simpl; [done|].
  case_decide; intros; simplify_eq; [left|right; auto].
Qed.

Lemma get_Some_keys m k v : JsMap.get m k = Some v → k ∈ JsMap.keys m.
Proof.
  intros Hg. apply get_Some_elem_of in Hg.
  unfold JsMap.keys. apply list_elem_of_fmap. by exists (k, v).
Qed.
End JsMapFacts.

Section JsSetFacts.
Context {K : Type} `{EqDecision K}.
Implicit Types (s : list K) (k : K).

Lemma set_has_true s k : JsSet.has s k = true ↔ k ∈ s.
Proof. unfold JsSet.has. apply bool_decide_eq_true. Qed.

Lemma set_has_false s k : JsSet.has s k = false ↔ k ∉ s.
Proof. unfold JsSet.has. apply bool_decide_eq_false. Qed.

Lemma elem_of_add s k k' : k' ∈ JsSet.add s k ↔ k' = k ∨ k' ∈ s.
Proof.
  unfold JsSet.add. destruct (JsSet.has s k) eqn:Hh.
  - apply set_has_true in Hh. split; [auto|]. by intros [->|].
  - rewrite elem_of_app, list_elem_of_singleton. tauto.
Qed.

Lemma has_add s k k' :
  JsSet.has (JsSet.add s k) k' = bool_decide (k' = k) || JsSet.has s k'.
Proof.
  apply eq_true_iff_eq. rewrite set_has_true, elem_of_add, orb_true_iff.
  by rewrite bool_decide_eq_true, set_has_true.
Qed.
End JsSetFacts.

Lemma find_app {A} (f : A → bool) (l1 l2 : list A) :
  List.find f (l1 ++ l2) =
  match List.find f l1 with Some x => Some x | None => List.find f l2 end.
Proof. induction l1 as [|a l1 IH]; simpl; [done|]. by destruct (f a). Qed.

(** ** The graph *)

Lemma getNeighbors_addNode g id x y label type k :
  Graph.getNeighbors (Graph.addNode g id x y label type) k =
  Graph.getNeighbors g k.
Proof.
  unfold Graph.getNeighbors, Graph.addNode; simpl.
  destruct (JsMap.has (edges g) id) eqn:Hh; [done|].
  rewrite get_set. case_decide as Hk; [|done].
  subst k. apply has_false in Hh. by rewrite Hh.
Qed.

Lemma getNode_addNode g id x y label type k :
  Graph.getNode (Graph.addNode g id x y label type) k =
  if decide (k = id) then Some (mkNode id x y label (default "default" type))
  else Graph.getNode g k.
Proof. unfold Graph.getNode, Graph.addNode; simpl. apply get_set. Qed.

(** With both adjacency lists present [addEdge] throws only for a missing
    node, and otherwise appends one entry to each list. *)
Lemma addEdge_spec g fromId toId weight :
  JsMap.has (edges g) fromId = true →
  JsMap.has (edges g) toId = true →
  match Graph.getNode g fromId, Graph.getNode g toId with
  | Some a, Some b =>
      let w := match weight with
               | None => round_hypot (n_x b - n_x a) (n_y b - n_y a)
               | Some q => Math_round q
               end in
      ∃ g', Graph.addEdge g fromId toId weight = (g', None) ∧
        nodes g' = nodes g ∧
        (∀ k, JsMap.has (edges g') k = JsMap.has (edges g) k) ∧
        ∀ k, Graph.getNeighbors g' k =
             Graph.getNeighbors g k
             ++ (if decide (k = fromId) then [mkEdge toId w] else [])
             ++ (if decide (k = toId) then [mkEdge fromId w] else [])
  | _, _ =>
      Graph.addEdge g fromId toId weight = (g, Some (NodeNotFound fromId toId))
  end.
Proof.
  intros Hf' Ht. pose proof Hf' as [l1 Hf]%has_true.
  unfold Graph.addEdge, Graph.getNode.
  destruct (JsMap.get (nodes g) fromId) as [a|]; [|done].
  destruct (JsMap.get (nodes g) toId) as [b|]; [|done].
  simpl. rewrite Hf.
  set (w := match weight with None => _ | Some q => _ end).
  assert (is_Some (JsMap.get (JsMap.set (edges g) fromId (l1 ++ [mkEdge toId w])) toId))
    as [l2 Hl2].
  { apply has_true. rewrite has_set. by case_decide. }
  rewrite Hl2. eexists; split; [done|]. split; [done|]. split.
  - intros k. simpl. rewrite !has_set.
    repeat case_decide; subst; rewrite ?Hf', ?Ht; done.
  - intros k. unfold Graph.getNeighbors; simpl.
    rewrite get_set in Hl2. rewrite !get_set.
    repeat case_decide; subst; simplify_eq; simpl;
      rewrite ?Hf, ?Hl2, ?app_nil_r, <-?app_assoc; simpl; done.
Qed.

Lemma graph_wf_empty : graph_wf Graph.empty.
Proof. split; simpl; try done. intros k e. unfold Graph.getNeighbors. simpl. by intros ?%elem_of_nil. Qed.

Lemma graph_wf_addNode g id x y label type :
  graph_wf g → graph_wf (Graph.addNode g id x y label type).
Proof.
  intros [Hid Hadj Htg]. split.
  - intros k n. simpl. rewrite get_set. case_decide; subst.
    + by intros [= <-].
    + apply Hid.
  - intros k. simpl. rewrite has_set.
    destruct (JsMap.has (edges g) id) eqn:Hh.
    + case_decide; subst; auto.
    + rewrite has_set. case_decide; auto.
  - intros k e. rewrite getNeighbors_addNode. intros He%Htg.
    simpl. rewrite has_set. by case_decide.
Qed.

Lemma graph_wf_addEdge g fromId toId weight :
  graph_wf g → graph_wf (Graph.addEdge g fromId toId weight).1.
Proof.
  intros Hwf.
  destruct (Graph.getNode g fromId) as [a|] eqn:Ha; cycle 1.
  { unfold Graph.addEdge. unfold Graph.getNode in Ha. by rewrite Ha. }
  destruct (Graph.getNode g toId) as [b|] eqn:Hb; cycle 1.
  { unfold Graph.addEdge. unfold Graph.getNode in Ha, Hb. by rewrite Ha, Hb. }
  assert (JsMap.has (nodes g) fromId = true) as Hhf by (apply has_true; eauto).
  assert (JsMap.has (nodes g) toId = true) as Hht by (apply has_true; eauto).
  pose proof (addEdge_spec g fromId toId weight
                (wf_adj g Hwf _ Hhf) (wf_adj g Hwf _ Hht)) as Hs.
  rewrite Ha, Hb in Hs. destruct Hs as (g' & -> & Hn & Hh & Hnb). simpl.
  destruct Hwf as [Hid Hadj Htg]. split.
  - intros k n. rewrite Hn. apply Hid.
  - intros k. rewrite Hn, Hh. apply Hadj.
  - intros k e. rewrite Hnb, Hn, !elem_of_app.
    intros [He|[He|He]]; [by eapply Htg| |];
      case_decide; try (by apply elem_of_nil in He);
      apply list_elem_of_singleton in He; subst e; done.
Qed.

Lemma graph_wf_build ops : graph_wf (build ops).
Proof.
  unfold build. induction ops as [|op ops IH] using rev_ind; simpl.
  - apply graph_wf_empty.
  - rewrite foldl_snoc. destruct op; simpl.
    + by apply graph_wf_addNode.
    + by apply graph_wf_addEdge.
Qed.




(** *** Rounding *)





(** C10: calling [addNode] with an id that is already a node replaces the
    attributes stored for that id and leaves the adjacency structure, and
    so the adjacency list of every node, as it was. *)
Theorem addNode_existing_keeps_adjacency g id x y label type :
  graph_wf g →
  JsMap.has (nodes g) id = true →
  let g' := Graph.addNode g id x y label type in
  Graph.getNode g' id = Some (mkNode id x y label (default "default" type)) ∧
  (∀ k, k ≠ id → Graph.getNode g' k = Graph.getNode g k) ∧
  edges g' = edges g ∧
  ∀ k, Graph.getNeighbors g' k = Graph.getNeighbors g k.
Proof.
  intros Hwf Hid g'. repeat split.
  - unfold g'. rewrite getNode_addNode. by case_decide.
  - intros k Hk. unfold g'. rewrite getNode_addNode. by case_decide.
  - unfold g', Graph.addNode; simpl. by rewrite (wf_adj g Hwf id Hid).
  - intros k. apply getNeighbors_addNode.
Qed.

Lemma addNode_existing_keeps_adjacency_witness :
  let g' := Graph.addNode example_graph "A" 7 7 "A2" (Some "park") in
  Graph.getNode g' "A" = Some (mkNode "A" 7 7 "A2" "park") ∧
  (∀ k, k ≠ "A" → Graph.getNode g' k = Graph.getNode example_graph k) ∧
  edges g' = edges example_graph ∧
  ∀ k, Graph.getNeighbors g' k = Graph.getNeighbors example_graph k.
Proof.
  apply (addNode_existing_keeps_adjacency example_graph "A" 7 7 "A2"
           (Some "park")).
  - apply graph_wf_build.
  - reflexivity.
Defined.




(** ** Searches from or to an identifier that is not a node *)

Lemma heuristic_unknown {num} `{Number num} g a b :
  Graph.getNode g a = None ∨ Graph.getNode g b = None →
  Graph.heuristic g a b = None.
Proof.
  unfold Graph.getNode, Graph.heuristic. intros [Ha|Hb].
  - by rewrite Ha.
  - rewrite Hb. by destruct (JsMap.get (nodes g) a).
Qed.

(** C3, as the code has it: A* fails before it yields anything when the
    start or the end is not a node (reading a coordinate of the missing
    node throws); BFS, DFS and Dijkstra do not check their arguments and
    yield a [Visit] of the start as their first event. *)
Theorem unknown_node_behaviour {num} `{Number num} fuel g startId endId :
  Graph.getNode g startId = None ∨ Graph.getNode g endId = None →
  aStar (num := num) fuel g startId endId = Throw ∧
  (∃ rest, bfs (S fuel) g startId endId =
           Yield (Visit startId [startId] (Some []) None) rest) ∧
  (∃ rest, dfs (S fuel) g startId endId =
           Yield (Visit startId [startId] (Some []) None) rest) ∧
  (∃ rest, dijkstra (S fuel) g startId endId =
           Yield (Visit startId [startId] None
                    (Some (JsMap.set (all_infinity g) startId (Finite 0))))
                 rest).
Proof.
  intros Hunknown. split; [|split; [|split]].
  - unfold aStar, aStar_init. by rewrite heuristic_unknown.
  - eexists. reflexivity.
  - eexists. reflexivity.
  - eexists. reflexivity.
Qed.

Lemma unknown_node_behaviour_witness :
  aStar (num := PrimFloat.float) 5 example_graph "Z" "C" = Throw ∧
  (∃ rest, bfs 6 example_graph "Z" "C" =
           Yield (Visit "Z" ["Z"] (Some []) None) rest) ∧
  (∃ rest, dfs 6 example_graph "Z" "C" =
           Yield (Visit "Z" ["Z"] (Some []) None) rest) ∧
  (∃ rest, dijkstra 6 example_graph "Z" "C" =
           Yield (Visit "Z" ["Z"] None
                    (Some (JsMap.set (all_infinity example_graph) "Z" (Finite 0))))
                 rest).
Proof.
  apply (unknown_node_behaviour 5 example_graph "Z" "C").
  left. reflexivity.
Defined.

(** C3 as stated fails: BFS from an identifier that is not a node yields a
    [Visit] and a [Done] event. *)
Lemma bfs_unknown_start_yields_events :
  Graph.getNode example_graph "Z" = None ∧
  bfs 2 example_graph "Z" "C" =
  Yield (Visit "Z" ["Z"] (Some []) None) (Yield (Done [] ["Z"] None) Return).
Proof. split; reflexivity. Qed.

(** ** DFS: what is pushed *)

Lemma dfs_push_fold current (l : list Edge) st :
  let st' := foldl (dfs_push current) st l in
  dfs_visited st' = dfs_visited st ∧
  dfs_stack st' =
  dfs_stack st ++ filter (λ n, n ∉ dfs_visited st) (e_node <$> l).
Proof.
  revert st. induction l as [|e l IH]; intros st; simpl.
  - by rewrite app_nil_r.
  - destruct (IH (dfs_push current st e)) as [Hv Hs].
    rewrite Hv, Hs. unfold dfs_push.
    destruct (JsSet.has (dfs_visited st) (e_node e)) eqn:Hh; simpl.
    + apply set_has_true in Hh. split; [done|].
      rewrite filter_cons_False; [done|]. by intros Hn.
    + apply set_has_false in Hh. split; [done|].
      rewrite filter_cons_True by done. by rewrite <- app_assoc.
Qed.

Lemma array_pop_snoc {A} (l : list A) (x : A) :
  array_pop (l ++ [x]) = (Some x, l).
Proof.
  unfold array_pop. rewrite last_snoc, length_app. simpl.
  replace (length l + 1 - 1)%nat with (length l) by lia.
  by rewrite take_app_length.
Qed.

Lemma dfs_loop_S fuel g endId st :
  dfs_loop (S fuel) g endId st =
  match array_pop (dfs_stack st) with
  | (None, _) => Yield (Done [] (dfs_visited st) None) Return
  | (Some current, stack) =>
      if JsSet.has (dfs_visited st) current
      then dfs_loop fuel g endId (mkDfs (dfs_visited st) (dfs_parent st) stack)
      else
        let visited := JsSet.add (dfs_visited st) current in
        Yield (Visit current visited (Some (JsSet.of_array stack)) None)
          (if decide (current = endId)
           then yield_done (dfs_parent st) endId visited None
           else dfs_loop fuel g endId
                  (dfs_expand g current (mkDfs visited (dfs_parent st) stack)))
  end.
Proof. reflexivity. Qed.

(** C5, as the code has it: a neighbour is pushed only if it is not yet
    visited, without being marked (the test is made again when it is
    popped, and a visited node that is popped is skipped without an
    event); the neighbours are pushed in reverse adjacency order, so the
    first-listed neighbour that is not visited is the next node
    explored. *)
Theorem dfs_expand_pushes_unvisited g current st :
  let unvisited := filter (λ n, n ∉ dfs_visited st)
                     (e_node <$> Graph.getNeighbors g current) in
  dfs_visited (dfs_expand g current st) = dfs_visited st ∧
  dfs_stack (dfs_expand g current st) = dfs_stack st ++ reverse unvisited ∧
  (∀ fuel endId n rest,
     unvisited = n :: rest →
     ∃ t, dfs_loop (S fuel) g endId (dfs_expand g current st) =
          Yield (Visit n (dfs_visited st ++ [n])
                   (Some (JsSet.of_array (dfs_stack st ++ reverse rest))) None)
               t) ∧
  (∀ fuel endId visited parent stack n,
     n ∈ visited →
     dfs_loop (S fuel) g endId (mkDfs visited parent (stack ++ [n])) =
     dfs_loop fuel g endId (mkDfs visited parent stack)).
Proof.
  intros unvisited.
  destruct (dfs_push_fold current (reverse (Graph.getNeighbors g current)) st)
    as [Hv Hs].
  fold (dfs_expand g current st) in Hv, Hs.
  assert (dfs_stack (dfs_expand g current st) = dfs_stack st ++ reverse unvisited)
    as Hstack.
  { rewrite Hs. unfold unvisited. by rewrite fmap_reverse, filter_reverse. }
  split; [done|]. split; [done|]. split.
  - intros fuel endId n rest Hun.
    rewrite dfs_loop_S, Hstack, Hun, reverse_cons, app_assoc, array_pop_snoc, Hv.
    assert (n ∉ dfs_visited st) as Hn.
    { assert (n ∈ unvisited) as Hin by (rewrite Hun; left).
      unfold unvisited in Hin. by apply list_elem_of_filter in Hin as [? _]. }
    apply set_has_false in Hn as Hh. rewrite Hh.
    unfold JsSet.add. rewrite Hh. eexists. reflexivity.
  - intros fuel endId visited parent stack n Hn.
    rewrite dfs_loop_S. simpl dfs_stack.
    rewrite array_pop_snoc. apply set_has_true in Hn. simpl. by rewrite Hn.
Qed.

Lemma dfs_expand_pushes_unvisited_witness :
  let st := mkDfs ["A"] [("A", None)] [] in
  ∃ t, dfs_loop 1 example_graph "C" (dfs_expand example_graph "A" st) =
       Yield (Visit "B" ["A"; "B"] (Some ["C"]) None) t.
Proof.
  intros st.
  destruct (dfs_expand_pushes_unvisited example_graph "A" st)
    as (_ & _ & Hnext & _).
  apply (Hnext 0%nat "C" "B" ["C"]). reflexivity.
Defined.

(** C5 as stated fails: a neighbour that is already visited is not
    pushed. *)
Lemma dfs_visited_neighbour_not_pushed :
  let st := mkDfs ["A"; "B"] [("A", None); ("B", Some "A"); ("C", Some "A")] ["C"] in
  e_node <$> Graph.getNeighbors example_graph "B" = ["A"; "C"] ∧
  dfs_stack (dfs_expand example_graph "B" st) = ["C"; "C"] ∧
  dfs_stack (dfs_expand example_graph "B" st)
    ≠ dfs_stack st ++ reverse (e_node <$> Graph.getNeighbors example_graph "B").
Proof. split; [reflexivity|]. split; [reflexivity|]. by vm_compute. Qed.

(** ** The orchestrator *)

Lemma split_skip {A} (l1 l2 b a : list A) (y : A) :
  l1 ++ l2 = b ++ y :: a → y ∉ l1 →
  ∃ b', b = l1 ++ b' ∧ l2 = b' ++ y :: a.
Proof.
  revert b. induction l1 as [|x l1 IH]; intros b Heq Hn; simpl in *.
  - by exists b.
  - destruct b as [|x' b]; simplify_eq/=.
    + exfalso. apply Hn. left.
    + destruct (IH b) as (b' & -> & ->); [done| |by exists b'].
      intros Hy. apply Hn. by right.
Qed.

Lemma no_engine_split eff before a b after :
  Forall (λ x, is_engine x = false) eff →
  eff ≠ before ++ NewEngine a b :: after.
Proof.
  intros Hall ->. apply Forall_app in Hall as [_ Hall].
  by apply Forall_cons in Hall as [? _].
Qed.

Lemma drive_effects t leg first acc :
  Forall (λ x, is_engine x = false ∧ is_trip_complete x = false)
    (drive t leg first acc).1.1.
Proof.
  revert leg first acc.
  induction t as [ev rest IH| | | |]; intros leg first acc; simpl; try done.
  destruct ev as [current visited frontier distances|path visited dist];
    simpl; [|done].
  specialize (IH leg false
    (mkAcc (S (totalVisited acc)) (totalDistance acc) (allSegments acc)
       (foldl JsSet.add (allVisited acc) visited))).
  destruct (drive rest leg false _) as [[eff acc'] e]. simpl in *.
  repeat (constructor; [done|]). done.
Qed.

Lemma drive_received_done t leg first acc path :
  received_done t = Some path →
  ∃ visited dist, (drive t leg first acc).2 = LegDone path visited dist.
Proof.
  revert first acc.
  induction t as [ev rest IH| | | |]; intros first acc; simpl; try done.
  destruct ev as [current visited frontier distances|path' visited dist];
    simpl.
  - intros Hr.
    destruct (IH false
      (mkAcc (S (totalVisited acc)) (totalDistance acc) (allSegments acc)
         (foldl JsSet.add (allVisited acc) visited)) Hr) as (v & d & Hd).
    destruct (drive rest leg false _) as [[eff acc'] e]. simpl in *. eauto.
  - intros [= ->]. eauto.
Qed.

Section RunFacts.
Context {num : Type} `{Number num}.

Lemma run_legs_abort fuel g algo legs fromId toId f t :
  Graph.getNode g fromId = Some f →
  Graph.getNode g toId = Some t →
  received_done (algo_fn (num := num) algo fuel g fromId toId) = Some [] →
  ∀ route leg acc eff e before after,
    run_legs (num := num) fuel g algo legs leg route acc = (eff, e) →
    eff = before ++ NewEngine fromId toId :: after →
    e = Returned ∧
    Forall (λ x, is_engine x = false) after ∧
    Forall (λ x, is_trip_complete x = false) eff ∧
    ∃ mid, after = mid ++ [UpdateStatus (StatusNoPath (n_label f) (n_label t));
                           RunButton false].
Proof.
  intros Hf Ht Hdone route.
  induction route as [|a route IH]; intros leg acc eff e before after Hrun Heff.
  { simpl in Hrun. unfold finish in Hrun. simplify_eq.
    exfalso. eapply no_engine_split; [|done]. by repeat constructor. }
  destruct route as [|b rest].
  { simpl in Hrun. unfold finish in Hrun. simplify_eq.
    exfalso. eapply no_engine_split; [|done]. by repeat constructor. }
  set (route := b :: rest) in *.
  assert (run_legs (num := num) fuel g algo legs leg (a :: route) acc =
    let color := default "" (LEG_COLORS !! (leg `mod` length LEG_COLORS)%nat) in
    match Graph.getNode g a, Graph.getNode g b with
    | Some fa, Some tb =>
        let '(deff, acc, lend) :=
          drive (algo_fn (num := num) algo fuel g a b) leg true acc in
        let pre := NewEngine a b
                   :: UpdateStatus (StatusLeg (leg + 1) (n_label fa) (n_label tb))
                   :: deff in
        match lend with
        | LegDone path _ dist =>
            match path with
            | _ :: _ =>
                let acc := mkAcc (totalVisited acc)
                             (dist_add (totalDistance acc) (legDist g path dist))
                             (allSegments acc ++ [(path, color)])
                             (allVisited acc) in
                let '(eff', e') := run_legs fuel g algo legs (S leg) route acc in
                (pre ++ SetCurrentVisit None
                     :: SetPathSegments (allSegments acc)
                     :: UpdateStats (totalVisited acc) (leg + 1) (totalDistance acc)
                     :: (if (leg <? legs - 1)%nat then [Wait] else [])
                     ++ eff', e')
            | [] =>
                (pre ++ [SetCurrentVisit None;
                         UpdateStatus (StatusNoPath (n_label fa) (n_label tb));
                         RunButton false], Returned)
            end
        | LegNull => let '(eff', e') := finish legs acc in (pre ++ eff', e')
        | LegRejected => (pre, Rejected)
        | LegStuck => (pre, Stuck)
        end
    | _, _ => ([NewEngine a b], Rejected)
    end) as Hunfold by reflexivity.
  rewrite Hunfold in Hrun. clear Hunfold. cbv zeta in Hrun.
  clearbody route.
  pose proof (drive_effects (algo_fn (num := num) algo fuel g a b) leg true acc)
    as Hdrive.
  assert (∀ deff,
    Forall (λ x, is_engine x = false ∧ is_trip_complete x = false) deff →
    Forall (λ x, is_engine x = false) deff ∧
    Forall (λ x, is_trip_complete x = false) deff) as Hboth.
  { intros deff Hd. split; (eapply Forall_impl; [done|]); by intros ? [??]. }
  destruct (Graph.getNode g a) as [fa|] eqn:Ha; cycle 1.
  { simplify_eq. destruct before as [|? [|? ?]]; simplify_eq/=; try congruence. }
  destruct (Graph.getNode g b) as [tb|] eqn:Hb; cycle 1.
  { simplify_eq. destruct before as [|? [|? ?]]; simplify_eq/=; try congruence. }
  destruct (drive (algo_fn (num := num) algo fuel g a b) leg true acc)
    as [[deff acc'] lend] eqn:Hd. simpl in Hdrive.
  apply Hboth in Hdrive as [He Hc]. clear Hboth.
  destruct before as [|x before].
  - (* the engine of this leg *)
    assert (a = fromId ∧ b = toId) as [-> ->].
    { simpl in Heff. subst eff.
      destruct lend as [[|??] ? ?| | |]; simpl in Hrun;
        try (destruct (run_legs fuel g algo legs (S leg) route _));
        by injection Hrun as -> -> _. }
    rewrite Hf in Ha. rewrite Ht in Hb. simplify_eq.
    destruct (drive_received_done _ leg true acc _ Hdone) as (v & d & Hd').
    rewrite Hd in Hd'. simpl in Hd'. subst lend.
    simpl in Hrun. simplify_eq. split; [done|].
    split; [|split].
    + constructor; [done|]. apply Forall_app. split; [done|].
      by repeat constructor.
    + do 2 (constructor; [done|]). apply Forall_app. split; [done|].
      by repeat constructor.
    + exists (UpdateStatus (StatusLeg (leg + 1) (n_label fa) (n_label tb))
              :: deff ++ [SetCurrentVisit None]).
      simpl. by rewrite <- app_assoc.
  - (* an engine of a later leg *)
    assert (NewEngine fromId toId ∉ deff) as Hnotin.
    { intros Hin. eapply Forall_forall in He; [|done]. done. }
    assert (∀ tl, eff = NewEngine a b
              :: UpdateStatus (StatusLeg (leg + 1) (n_label fa) (n_label tb))
              :: deff ++ tl →
            ∃ b', tl = b' ++ NewEngine fromId toId :: after) as Htail.
    { intros tl Htl. rewrite Htl in Heff. simpl in Heff.
      injection Heff as _ Heff. destruct before as [|x2 before]; [done|].
      simpl in Heff. injection Heff as _ Heff.
      apply split_skip in Heff as (b' & _ & Hx); [|done]. eauto. }
    assert (∀ tl, eff = NewEngine a b
              :: UpdateStatus (StatusLeg (leg + 1) (n_label fa) (n_label tb))
              :: deff ++ tl →
            Forall (λ x, is_engine x = false) tl → False) as Hcontra.
    { intros tl Htl Hall. destruct (Htail tl Htl) as [b' Hb'].
      by eapply no_engine_split. }
    destruct lend as [[|p ps] vis dist| | |]; simpl in Hrun.
    + exfalso. injection Hrun as Hrun _. symmetry in Hrun.
      eapply Hcontra; [done|]. by repeat constructor.
    + destruct (run_legs fuel g algo legs (S leg) route _)
        as [eff' e'] eqn:Hrec.
      injection Hrun as Hrun ->. symmetry in Hrun.
      destruct (Htail _ Hrun) as [b' Hb'].
      assert (∃ b'', eff' = b'' ++ NewEngine fromId toId :: after)
        as [b'' Heff'].
      { do 3 (destruct b' as [|? b']; [done|]; injection Hb' as _ Hb').
        destruct (leg <? legs - 1)%nat; simpl in Hb'; [|by eauto].
        destruct b' as [|? b']; [done|]. injection Hb' as _ Hb'. eauto. }
      destruct (IH _ _ _ _ _ _ Hrec Heff') as (-> & Hafter & Hcomp & Hmid).
      split; [done|]. split; [done|]. split; [|done].
      rewrite Hrun.
      do 2 (constructor; [done|]). apply Forall_app. split; [done|].
      do 3 (constructor; [done|]).
      apply Forall_app. split; [|done].
      destruct (leg <? legs - 1)%nat; by repeat constructor.
    + exfalso. injection Hrun as Hrun _. symmetry in Hrun.
      eapply Hcontra; [done|]. by repeat constructor.
    + exfalso. injection Hrun as Hrun _. symmetry in Hrun.
      rewrite <- (app_nil_r deff) in Hrun.
      eapply Hcontra; [done|]. by repeat constructor.
    + exfalso. injection Hrun as Hrun _. symmetry in Hrun.
      rewrite <- (app_nil_r deff) in Hrun.
      eapply Hcontra; [done|]. by repeat constructor.
Qed.

(** C6: when a leg between two nodes of the graph gives [step] a [Done]
    event with an empty path, no engine is constructed after the one of
    that leg, "Trip complete" is never reported, and the run ends by
    reporting "No path found" with the labels of the leg's start and
    end. *)
Theorem empty_path_aborts_trip fuel g startId waypoints algoKey
    eff e before after fromId toId f t :
  _run (num := num) fuel g startId waypoints algoKey = (eff, e) →
  eff = before ++ NewEngine fromId toId :: after →
  Graph.getNode g fromId = Some f →
  Graph.getNode g toId = Some t →
  received_done (algo_fn (num := num) algoKey fuel g fromId toId) = Some [] →
  e = Returned ∧
  Forall (λ x, is_engine x = false) after ∧
  Forall (λ x, is_trip_complete x = false) eff ∧
  ∃ mid, after = mid ++ [UpdateStatus (StatusNoPath (n_label f) (n_label t));
                         RunButton false].
Proof.
  intros Hrun Heff Hf Ht Hdone. unfold _run in Hrun.
  destruct (decide (startId = "")).
  { simplify_eq. exfalso. eapply no_engine_split; [|done]. by repeat constructor. }
  destruct (decide (length (filter (λ s, s ≠ "") waypoints) = 0%nat)).
  { simplify_eq. exfalso. eapply no_engine_split; [|done]. by repeat constructor. }
  destruct (find_duplicate g _) as [[name|]|].
  { simplify_eq. exfalso. eapply no_engine_split; [|done]. by repeat constructor. }
  { simplify_eq. exfalso. eapply no_engine_split; [|done]. by repeat constructor. }
  destruct (run_legs _ _ _ _ _ _ _) as [eff' e'] eqn:Hlegs.
  injection Hrun as Hrun ->. rewrite <- Hrun in Heff |- *. clear Hrun.
  assert (∃ b', eff' = b' ++ NewEngine fromId toId :: after) as [b' Hb'].
  { do 3 (destruct before as [|? before]; [done|];
          simpl in Heff; injection Heff as _ Heff).
    eauto. }
  destruct (run_legs_abort _ _ _ _ _ _ _ _ Hf Ht Hdone _ _ _ _ _ _ _ Hlegs Hb')
    as (-> & Hafter & Hcomp & Hmid).
  split; [done|]. split; [done|]. split; [|done].
  by repeat (constructor; [done|]).
Qed.
End RunFacts.

Lemma empty_path_aborts_trip_witness :
  let r := _run (num := PrimFloat.float) 10 example_graph_D "A" ["D"; "B"] key_bfs in
  r.2 = Returned ∧
  Forall (λ x, is_trip_complete x = false) r.1 ∧
  last r.1 = Some (RunButton false).
Proof.
  intros r.
  destruct (empty_path_aborts_trip (num := PrimFloat.float) 10 example_graph_D
              "A" ["D"; "B"] key_bfs r.1 r.2
              [ResetVisualization; RunButton true;
               UpdateStatus (StatusRunning "Breadth-First Search (BFS)" 2)]
              (List.skipn 4 r.1) "A" "D"
              (mkNode "A" 0 0 "A" "default") (mkNode "D" 5 5 "D" "default")
              eq_refl eq_refl eq_refl eq_refl eq_refl)
    as (He & _ & Hc & _).
  split; [exact He|]. split; [exact Hc|]. reflexivity.
Defined.

(** ** The binary heap *)

Section HeapFacts.
Context {P : Type} (lt : P → P → bool).
Implicit Types (data : list (Entry P)) (i j k : nat).

Lemma length_swap data i j : length (MinHeap.swap data i j) = length data.
Proof.
  unfold MinHeap.swap. destruct (data !! i), (data !! j); try done.
  by rewrite !length_insert.
Qed.

Lemma swap_lookup data i j k :
  (i < length data)%nat → (j < length data)%nat →
  MinHeap.swap data i j !! k =
  data !! (if decide (k = j) then i else if decide (k = i) then j else k).
Proof.
  intros Hi Hj. unfold MinHeap.swap.
  destruct (lookup_lt_is_Some_2 _ _ Hi) as [a Ha].
  destruct (lookup_lt_is_Some_2 _ _ Hj) as [b Hb].
  rewrite Ha, Hb.
  destruct (decide (k = j)) as [->|Hkj].
  - rewrite list_lookup_insert_eq by (by rewrite length_insert). done.
  - rewrite list_lookup_insert_ne by done.
    destruct (decide (k = i)) as [->|Hki].
    + by rewrite list_lookup_insert_eq.
    + by rewrite list_lookup_insert_ne.
Qed.

Lemma delete_insert_same {A} (l : list A) i x :
  delete i (<[i := x]> l) = delete i l.
Proof.
  rewrite !delete_take_drop.
  by rewrite take_insert_ge, drop_insert_lt by lia.
Qed.

Lemma swap_Permutation data i j : MinHeap.swap data i j ≡ₚ data.
Proof.
  unfold MinHeap.swap.
  destruct (data !! i) as [a|] eqn:Ha; [|done].
  destruct (data !! j) as [b|] eqn:Hb; [|done].
  destruct (decide (i = j)) as [->|Hij].
  - simplify_eq. rewrite list_insert_insert_eq. by rewrite list_insert_id.
  - set (d1 := <[i := b]> data).
    assert (d1 !! j = Some b) as Hd1j.
    { unfold d1. by rewrite list_lookup_insert_ne. }
    assert (d1 !! i = Some b) as Hd1i.
    { unfold d1. apply list_lookup_insert_eq. by eapply lookup_lt_Some. }
    assert (delete j d1 ≡ₚ delete i data) as Hdel.
    { apply (Permutation_cons_inv (a := b)).
      rewrite <- (delete_Permutation d1 j b Hd1j).
      rewrite (delete_Permutation d1 i b Hd1i).
      unfold d1. by rewrite delete_insert_same. }
    rewrite (delete_Permutation (<[j := a]> d1) j a); cycle 1.
    { apply list_lookup_insert_eq. by eapply lookup_lt_Some. }
    rewrite delete_insert_same, Hdel.
    by rewrite <- (delete_Permutation data i a Ha).
Qed.

Lemma lt_at_true data a b :
  MinHeap.lt_at lt data a b = true →
  ∃ x y, data !! a = Some x ∧ data !! b = Some y ∧
         lt (priority x) (priority y) = true.
Proof.
  unfold MinHeap.lt_at. destruct (data !! a), (data !! b); try done. eauto.
Qed.

Lemma lt_at_false data a b :
  MinHeap.lt_at lt data a b = false → le_at lt data b a.
Proof.
  unfold MinHeap.lt_at, le_at. intros Hlt x y Hx Hy.
  by rewrite Hx, Hy in Hlt.
Qed.

Lemma bubbleUp_loop_S fuel data i :
  MinHeap.bubbleUp_loop lt (S fuel) data i =
  if (0 <? i)%nat then
    if MinHeap.lt_at lt data i ((i - 1) / 2)
    then MinHeap.bubbleUp_loop lt fuel
           (MinHeap.swap data i ((i - 1) / 2)) ((i - 1) / 2)
    else data
  else data.
Proof. reflexivity. Qed.

(** The index [_sinkDown] moves to: [i] itself when no child is below. *)
Lemma sinkDown_loop_S fuel data i :
  MinHeap.sinkDown_loop lt (S fuel) data i =
  let n := length data in
  let l := (2 * i + 1)%nat in
  let r := (2 * i + 2)%nat in
  let s1 := if (l <? n)%nat && MinHeap.lt_at lt data l i then l else i in
  let s2 := if (r <? n)%nat && MinHeap.lt_at lt data r s1 then r else s1 in
  if (s2 =? i)%nat then data
  else MinHeap.sinkDown_loop lt fuel (MinHeap.swap data i s2) s2.
Proof. reflexivity. Qed.

Lemma bubbleUp_Permutation fuel data i :
  MinHeap.bubbleUp_loop lt fuel data i ≡ₚ data.
Proof.
  revert data i. induction fuel as [|fuel IH]; intros data i; [done|].
  rewrite bubbleUp_loop_S.
  destruct (0 <? i)%nat; [|done].
  destruct (MinHeap.lt_at lt data i ((i - 1) / 2)); [|done].
  by rewrite IH, swap_Permutation.
Qed.

Lemma sinkDown_Permutation fuel data i :
  MinHeap.sinkDown_loop lt fuel data i ≡ₚ data.
Proof.
  revert data i. induction fuel as [|fuel IH]; intros data i; [done|].
  rewrite sinkDown_loop_S. cbv zeta.
  match goal with |- context [if ?c then data else _] => destruct c end;
    [done|].
  by rewrite IH, swap_Permutation.
Qed.

Lemma push_Permutation data item : MinHeap.push lt data item ≡ₚ item :: data.
Proof.
  unfold MinHeap.push, MinHeap._bubbleUp.
  rewrite bubbleUp_Permutation. by rewrite Permutation_app_comm.
Qed.

Lemma pop_Permutation data top data' :
  MinHeap.pop lt data = (Some top, data') → data ≡ₚ top :: data'.
Proof.
  unfold MinHeap.pop, array_pop.
  destruct data as [|x data _] using rev_ind; [done|].
  rewrite last_snoc, length_app. simpl.
  replace (length data + 1 - 1)%nat with (length data) by lia.
  rewrite take_app_length.
  destruct data as [|y data]; simpl.
  - intros [= <- <-]. done.
  - intros [= <- <-]. unfold MinHeap._sinkDown.
    rewrite sinkDown_Permutation. simpl.
    by rewrite <- Permutation_cons_append.
Qed.

Lemma pop_nonempty data :
  data ≠ [] → ∃ top data', MinHeap.pop lt data = (Some top, data').
Proof.
  intros Hne. unfold MinHeap.pop, array_pop.
  destruct data as [|x data _] using rev_ind; [done|].
  rewrite last_snoc. destruct (data ++ [x]) as [|y l] eqn:Hd.
  { by destruct data. }
  simpl. eauto.
Qed.
End HeapFacts.
Section HeapOrder.
Context {P : Type} (ltb : P → P → bool).
Hypothesis ltb_asym : ∀ a b, ltb a b = true → ltb b a = false.
Hypothesis ltb_negtrans :
  ∀ a b c, ltb b a = false → ltb c b = false → ltb c a = false.
Implicit Types (data : list (Entry P)) (i j k : nat).

Lemma le_at_trans data a b c :
  is_Some (data !! b) →
  le_at ltb data a b → le_at ltb data b c → le_at ltb data a c.
Proof using ltb_negtrans.
  intros [y Hy] Hab Hbc x z Hx Hz.
  eapply ltb_negtrans; [by eapply Hab | by eapply Hbc].
Qed.

Lemma lt_at_le_at data a b :
  MinHeap.lt_at ltb data a b = true → le_at ltb data a b.
Proof using ltb_asym.
  intros (x & y & Hx & Hy & Hlt)%lt_at_true x' y' Hx' Hy'.
  simplify_eq. by apply ltb_asym.
Qed.

Lemma le_at_swap data i j a b :
  (i < length data)%nat → (j < length data)%nat →
  le_at ltb data
    (if decide (a = j) then i else if decide (a = i) then j else a)
    (if decide (b = j) then i else if decide (b = i) then j else b) →
  le_at ltb (MinHeap.swap data i j) a b.
Proof.
  intros Hi Hj Hle x y. rewrite !swap_lookup by done. apply Hle.
Qed.

Lemma bubbleUp_ok fuel data i :
  (i ≤ fuel)%nat → (i < length data)%nat →
  almost_up ltb data i →
  heap_ok ltb (MinHeap.bubbleUp_loop ltb fuel data i).
Proof using ltb_asym ltb_negtrans.
  revert data i.
  induction fuel as [|fuel IH]; intros data i Hfuel Hi [Hup Hgp].
  { intros j Hj. apply Hup; lia. }
  rewrite bubbleUp_loop_S.
  destruct (Nat.ltb_spec 0 i) as [H0|H0]; cycle 1.
  { intros j Hj. apply Hup; lia. }
  remember ((i - 1) / 2)%nat as p eqn:Hpdef.
  destruct (MinHeap.lt_at ltb data i p) eqn:Hlt; cycle 1.
  { intros j Hj. destruct (decide (j = i)) as [->|Hji].
    - rewrite <- Hpdef. by apply lt_at_false.
    - by apply Hup. }
  apply lt_at_le_at in Hlt as Hip.
  assert (is_Some (data !! p)) as Hp by (apply lookup_lt_is_Some; lia).
  assert (∀ j q, (0 < j)%nat → j ≠ i → q = ((j - 1) / 2)%nat →
                 le_at ltb data q j) as Hup'.
  { intros j q ? ? ->. by apply Hup. }
  assert (∀ c q, (0 < c)%nat → ((c - 1) / 2)%nat = i → q = p →
                 le_at ltb data q c) as Hgp'.
  { intros c q ? ? ->. by apply Hgp. }
  apply IH; [lia|rewrite length_swap; lia|]. split.
  - intros j Hj Hjp. apply le_at_swap; [lia..|].
    repeat case_decide; try (exfalso; lia);
      solve [ exact Hip | apply Hup'; lia | apply Hgp'; lia
            | eapply le_at_trans; [exact Hp|exact Hip|apply Hup'; lia] ].
  - intros c Hp0 Hc Hcp. apply le_at_swap; [lia..|].
    repeat case_decide; try (exfalso; lia);
      solve [ apply Hup'; lia
            | eapply le_at_trans; [exact Hp|apply Hup'; lia|apply Hup'; lia] ].
Qed.

Lemma ltb_irrefl a : ltb a a = false.
Proof using ltb_asym.
  destruct (ltb a a) eqn:Ha; [|done]. by rewrite (ltb_asym _ _ Ha) in Ha.
Qed.

Lemma le_at_refl data a : le_at ltb data a a.
Proof using ltb_asym. intros x y Hx Hy. simplify_eq. apply ltb_irrefl. Qed.

Lemma le_at_None data a b : data !! b = None → le_at ltb data a b.
Proof. intros Hb x y _ Hy. by rewrite Hb in Hy. Qed.

Lemma sinkDown_ok fuel data i :
  (length data - i ≤ fuel)%nat →
  almost_down ltb data i →
  heap_ok ltb (MinHeap.sinkDown_loop ltb fuel data i).
Proof using ltb_asym ltb_negtrans.
  revert data i.
  induction fuel as [|fuel IH]; intros data i Hfuel [Hdown Hgp].
  { simpl. intros j Hj. destruct (decide (((j - 1) / 2)%nat = i)) as [Hq|Hq].
    - apply le_at_None, lookup_ge_None. lia.
    - by apply Hdown. }
  rewrite sinkDown_loop_S. cbv zeta.
  set (n := length data) in *.
  set (l := (2 * i + 1)%nat). set (r := (2 * i + 2)%nat).
  set (s1 := if (l <? n)%nat && MinHeap.lt_at ltb data l i then l else i).
  set (s2 := if (r <? n)%nat && MinHeap.lt_at ltb data r s1 then r else s1).
  assert ((s1 = l ∧ (l < n)%nat ∧ le_at ltb data l i) ∨
          (s1 = i ∧ le_at ltb data i l)) as Hs1.
  { unfold s1. destruct (Nat.ltb_spec l n) as [Hl|Hl]; simpl.
    - destruct (MinHeap.lt_at ltb data l i) eqn:Hlt.
      + left. split; [done|]. split; [done|]. by apply lt_at_le_at.
      + right. split; [done|]. by apply lt_at_false.
    - right. split; [done|]. apply le_at_None, lookup_ge_None. fold n. lia. }
  assert ((s2 = r ∧ (r < n)%nat ∧ le_at ltb data r s1) ∨
          (s2 = s1 ∧ le_at ltb data s1 r)) as Hs2.
  { unfold s2. destruct (Nat.ltb_spec r n) as [Hr|Hr]; simpl.
    - destruct (MinHeap.lt_at ltb data r s1) eqn:Hlt.
      + left. split; [done|]. split; [done|]. by apply lt_at_le_at.
      + right. split; [done|]. by apply lt_at_false.
    - right. split; [done|]. apply le_at_None, lookup_ge_None. fold n. lia. }
  clearbody s1 s2.
  destruct (Nat.eqb_spec s2 i) as [Heq|Hne].
  { (* no child is below *)
    assert (s1 = i ∧ le_at ltb data i l ∧ le_at ltb data i r)
      as (? & Hil & Hir).
    { destruct Hs1 as [(E1 & ? & ?)|[E1 ?]], Hs2 as [(E2 & ? & ?)|[E2 ?]];
        try (exfalso; unfold l, r in *; lia).
      rewrite E1 in *. done. }
    intros j Hj. destruct (decide (((j - 1) / 2)%nat = i)) as [Hq|Hq].
    - assert (j = l ∨ j = r) as [->| ->] by (unfold l, r; lia);
        by rewrite Hq.
    - by apply Hdown. }
  (* the smaller child moves up *)
  assert ((s2 = l ∨ s2 = r) ∧ (s2 < n)%nat ∧ le_at ltb data s2 i ∧
          le_at ltb data s2 l ∧ le_at ltb data s2 r) as (Hm & Hmn & Hmi & Hml & Hmr).
  { destruct Hs1 as [(E1 & ? & ?)|[E1 ?]], Hs2 as [(E2 & ? & ?)|[E2 ?]];
      try (exfalso; lia); rewrite ?E2, ?E1 in *.
    - (* s1 = l, s2 = r *)
      split; [by right|]. split; [done|]. split; [|split]; try done.
      + eapply le_at_trans; [|done|done]. apply lookup_lt_is_Some. by fold n.
      + apply le_at_refl.
    - (* s1 = l, s2 = l *)
      split; [by left|]. split; [done|]. split; [done|].
      split; [apply le_at_refl|done].
    - (* s1 = i, s2 = r *)
      split; [by right|]. split; [done|]. split; [done|].
      split; [|apply le_at_refl].
      eapply le_at_trans; [|done|done]. apply lookup_lt_is_Some.
      fold n. unfold r in *. lia. }
  assert (i < s2)%nat as His by (unfold l, r in *; lia).
  assert (∀ j q, (0 < j)%nat → ((j - 1) / 2)%nat ≠ i → q = ((j - 1) / 2)%nat →
                 le_at ltb data q j) as Hdown'.
  { intros j q ? ? ->. by apply Hdown. }
  assert (∀ c q, (0 < i)%nat → (0 < c)%nat → ((c - 1) / 2)%nat = i →
                 q = ((i - 1) / 2)%nat → le_at ltb data q c) as Hgp'.
  { intros c q ? ? ? ->. by apply Hgp. }
  assert (∀ c, ((c - 1) / 2)%nat = i → (0 < c)%nat → le_at ltb data s2 c)
    as Hchild.
  { intros c Hc Hc0. assert (c = l ∨ c = r) as [->| ->]
      by (unfold l, r; lia); done. }
  apply IH; [rewrite length_swap; fold n; lia|]. split.
  - intros j Hj Hjm. apply le_at_swap; [fold n; lia..|].
    repeat case_decide; try (exfalso; unfold l, r in *; lia);
      solve [ exact Hmi | apply Hdown'; lia | apply Hgp'; lia
            | apply Hchild; lia ].
  - intros c Hm0 Hc Hcm. apply le_at_swap; [fold n; lia..|].
    repeat case_decide; try (exfalso; unfold l, r in *; lia);
      solve [ apply Hdown'; lia ].
Qed.

(** The root is not above any entry. *)
Lemma heap_root_min data top e :
  heap_ok ltb data → data !! 0%nat = Some top → e ∈ data →
  ltb (priority e) (priority top) = false.
Proof using ltb_asym ltb_negtrans.
  intros Hok Htop [j Hj]%list_elem_of_lookup.
  cut (le_at ltb data 0 j); [intros Hle; by eapply Hle|].
  clear e Hj. induction (lt_wf j) as [j _ IH].
  destruct (decide (j = 0)%nat) as [->|Hj0]; [apply le_at_refl|].
  destruct (data !! j) as [x|] eqn:Hx; [|by apply le_at_None].
  eapply (le_at_trans _ _ ((j - 1) / 2)).
  - apply lookup_lt_is_Some. apply lookup_lt_Some in Hx. lia.
  - apply IH. lia.
  - apply Hok. lia.
Qed.

Lemma heap_ok_nil : heap_ok ltb [].
Proof. intros j _ x y Hx. by rewrite lookup_nil in Hx. Qed.

Lemma push_heap_ok data item :
  heap_ok ltb data → heap_ok ltb (MinHeap.push ltb data item).
Proof using ltb_asym ltb_negtrans.
  intros Hok. unfold MinHeap.push, MinHeap._bubbleUp.
  rewrite length_app. simpl.
  replace (length data + 1 - 1)%nat with (length data) by lia.
  apply bubbleUp_ok; [done|rewrite length_app; simpl; lia|]. split.
  - intros j Hj Hjn. destruct (decide (j < length data)%nat) as [Hlt|Hge].
    + intros x y. rewrite !lookup_app_l by lia. apply Hok. lia.
    + apply le_at_None, lookup_ge_None. rewrite length_app. simpl. lia.
  - intros c Hn Hc Hcn. apply le_at_None, lookup_ge_None.
    rewrite length_app. simpl. lia.
Qed.

Lemma pop_heap_ok data top data' :
  heap_ok ltb data → MinHeap.pop ltb data = (Some top, data') →
  heap_ok ltb data'.
Proof using ltb_asym ltb_negtrans.
  intros Hok. unfold MinHeap.pop, array_pop.
  destruct data as [|x data _] using rev_ind; [done|].
  rewrite last_snoc, length_app. simpl.
  replace (length data + 1 - 1)%nat with (length data) by lia.
  rewrite take_app_length.
  destruct data as [|y data]; simpl.
  { intros [= <- <-]. apply heap_ok_nil. }
  intros [= <- <-]. unfold MinHeap._sinkDown.
  apply sinkDown_ok; [lia|]. split.
  - intros j Hj Hq.
    destruct (decide (j < S (length data))%nat) as [Hlt|Hge]; cycle 1.
    { apply le_at_None, lookup_ge_None. simpl. lia. }
    intros a b Ha Hb. apply (Hok j Hj).
    + destruct ((j - 1) / 2)%nat as [|q] eqn:Hqe; [done|].
      simpl in *. apply lookup_app_l_Some. done.
    + destruct j as [|j]; [lia|]. simpl in *. by apply lookup_app_l_Some.
  - intros c Hc. lia.
Qed.

Lemma pop_top data top data' :
  MinHeap.pop ltb data = (Some top, data') → data !! 0%nat = Some top.
Proof.
  unfold MinHeap.pop, array_pop. destruct (last data); by intros [= -> _].
Qed.

Lemma pop_min data top data' e :
  heap_ok ltb data → MinHeap.pop ltb data = (Some top, data') → e ∈ data' →
  ltb (priority e) (priority top) = false.
Proof using ltb_asym ltb_negtrans.
  intros Hok Hpop He. eapply heap_root_min; [done|by eapply pop_top|].
  rewrite (pop_Permutation _ _ _ _ Hpop). by right.
Qed.
End HeapOrder.

(** *** Integer priorities *)

Lemma Zltb_asym a b : (a <? b) = true → (b <? a) = false.
Proof. lia. Qed.

Lemma Zltb_negtrans a b c :
  (b <? a) = false → (c <? b) = false → (c <? a) = false.
Proof. lia. Qed.

Lemma min_heap_heap_ok data : min_heap data ↔ heap_ok Z.ltb data.
Proof.
  unfold min_heap, heap_ok, le_at. split.
  - intros Hm j Hj x y Hx Hy. specialize (Hm j y x Hj Hy Hx). lia.
  - intros Hok i child parent Hi Hc Hp. specialize (Hok i Hi _ _ Hp Hc). lia.
Qed.

(** C9: the empty heap is a min-heap, [push] and [pop] keep the min-heap
    property, and [pop] on a non-empty heap returns an entry of the heap
    whose priority is at most that of every entry that remains. *)
Theorem minheap_push_pop_invariant :
  min_heap [] ∧
  (∀ data item, min_heap data → min_heap (MinHeap.push Z.ltb data item)) ∧
  (∀ data, min_heap data → data ≠ [] →
     ∃ top data',
       MinHeap.pop Z.ltb data = (Some top, data') ∧
       min_heap data' ∧
       data ≡ₚ top :: data' ∧
       ∀ e, e ∈ data' → priority top ≤ priority e).
Proof.
  split; [|split].
  - apply min_heap_heap_ok, heap_ok_nil.
  - intros data item Hm%min_heap_heap_ok. apply min_heap_heap_ok.
    by apply (push_heap_ok Z.ltb Zltb_asym Zltb_negtrans).
  - intros data Hm%min_heap_heap_ok Hne.
    destruct (pop_nonempty Z.ltb data Hne) as (top & data' & Hpop).
    exists top, data'. split; [done|]. split; [|split].
    + apply min_heap_heap_ok.
      by eapply (pop_heap_ok Z.ltb Zltb_asym Zltb_negtrans).
    + by eapply pop_Permutation.
    + intros e He.
      pose proof (pop_min Z.ltb Zltb_asym Zltb_negtrans _ _ _ _ Hm Hpop He).
      lia.
Qed.

Lemma minheap_push_pop_invariant_witness :
  let data := MinHeap.push Z.ltb (MinHeap.push Z.ltb [] (mkEntry 5 "a"))
                (mkEntry 3 "b") in
  min_heap data ∧
  ∃ top data', MinHeap.pop Z.ltb data = (Some top, data') ∧
    min_heap data' ∧ data ≡ₚ top :: data' ∧
    ∀ e, e ∈ data' → priority top ≤ priority e.
Proof.
  intros data.
  destruct minheap_push_pop_invariant as (Hnil & Hpush & Hpop).
  assert (min_heap data) as Hdata by (apply Hpush, Hpush, Hnil).
  split; [exact Hdata|]. apply Hpop; [exact Hdata|]. discriminate.
Defined.

(** ** The heuristic and the default weights *)









(** ** Paths and the walk back through [parent] *)

Lemma path_snoc g a es b e :
  path g a es b → e ∈ Graph.getNeighbors g b →
  path g a (es ++ [e]) (e_node e).
Proof.
  induction 1 as [a|a e' es b He' Hp IH]; intros He; simpl.
  - apply path_cons; [done|apply path_nil].
  - apply path_cons; [done|]. by apply IH.
Qed.

Lemma path_cost_snoc c es e : path_cost c (es ++ [e]) = path_cost c es + c e.
Proof. induction es as [|e' es IH]; simpl; lia. Qed.


Lemma path_cost_length es : path_cost (λ _, 1) es = Z.of_nat (length es).
Proof. induction es as [|e es IH]; simpl; lia. Qed.

Lemma reconstructPath_loop_None fuel parent acc :
  reconstructPath_loop fuel parent acc None = Some acc.
Proof. by destruct fuel. Qed.

Section ParentTree.
Context (g : Graph) (s : Id) (parent : list (Id * option Id))
        (d : Id → nat) (c : Edge → Z) (W : Id → Z).
Hypothesis Htree : parent_tree g s parent d c W.

Lemma walk_tree n :
  ∀ v fuel acc,
    JsMap.has parent v = true → d v = n → (n < fuel)%nat →
    ∃ es,
      reconstructPath_loop fuel parent acc (Some v)
        = Some ((s :: (e_node <$> es)) ++ acc) ∧
      path g s es v ∧ length es = n ∧ path_cost c es = W v ∧
      ∀ i x, (s :: (e_node <$> es)) !! i = Some x →
             JsMap.has parent x = true ∧ d x = i.
Proof using Htree.
  induction n as [|n IH]; intros v fuel acc Hv Hd Hfuel.
  - destruct fuel as [|fuel]; [lia|].
    apply has_true in Hv as [[u|] Hu].
    { apply (pt_step _ _ _ _ _ _ Htree) in Hu as (_ & Hdu & _). lia. }
    apply (pt_null _ _ _ _ _ _ Htree) in Hu as Hvs. subst v.
    exists []. simpl. rewrite Hu, reconstructPath_loop_None.
    split; [done|]. split; [apply path_nil|].
    split; [done|]. split; [by rewrite (pt_root_W _ _ _ _ _ _ Htree)|].
    intros [|i] x Hx; simplify_eq/=. split; [|done].
    apply has_true. by rewrite Hu.
  - destruct fuel as [|fuel]; [lia|].
    apply has_true in Hv as Hv'. destruct Hv' as [[u|] Hu]; cycle 1.
    { apply (pt_null _ _ _ _ _ _ Htree) in Hu. subst v.
      rewrite (pt_root_d _ _ _ _ _ _ Htree) in Hd. lia. }
    destruct (pt_step _ _ _ _ _ _ Htree _ _ Hu) as (Hhu & Hdu & e & He & Hev & HW).
    destruct (IH u fuel (v :: acc) Hhu ltac:(lia) ltac:(lia))
      as (es & Hloop & Hpath & Hlen & Hcost & Hpos).
    exists (es ++ [e]). simpl. rewrite Hu, Hloop.
    split. { rewrite fmap_app. simpl. rewrite Hev. by rewrite <- !app_assoc. }
    split. { rewrite <- Hev. by eapply path_snoc. }
    split. { rewrite length_app. simpl. lia. }
    split. { rewrite path_cost_snoc. lia. }
    intros i x. rewrite fmap_app. simpl.
    change (s :: (e_node <$> es) ++ [e_node e])
      with ((s :: (e_node <$> es)) ++ [e_node e]).
    intros [Hx|[Hge Hx]]%lookup_app_Some.
    + by apply Hpos.
    + simpl in Hge, Hx. rewrite length_fmap in Hge, Hx.
      apply list_lookup_singleton_Some in Hx as [Hi <-].
      rewrite Hev. split; [done|]. lia.
Qed.

(** [reconstructPath] from a key of [parent] returns the path from the
    start that [parent] records. *)
Lemma reconstructPath_tree v :
  JsMap.has parent v = true →
  ∃ es,
    reconstructPath parent v = Some (s :: (e_node <$> es)) ∧
    path g s es v ∧ length es = d v ∧ path_cost c es = W v.
Proof using Htree.
  intros Hv.
  destruct (walk_tree (d v) v (S (d v)) [] Hv eq_refl ltac:(lia))
    as (es & _ & _ & Hlen & _ & Hpos).
  assert (d v < length parent)%nat as Hfuel.
  { set (p := s :: (e_node <$> es)) in *.
    assert (NoDup p) as Hnd.
    { apply NoDup_alt. intros i j x Hi Hj.
      apply Hpos in Hi as [_ Hi]. apply Hpos in Hj as [_ Hj]. lia. }
    assert (p ⊆ JsMap.keys parent) as Hsub.
    { intros x [i Hx]%list_elem_of_lookup.
      apply Hpos in Hx as [[o Hx]%has_true _]. by eapply get_Some_keys. }
    pose proof (submseteq_length _ _ (NoDup_submseteq _ _ Hnd Hsub)) as Hle.
    unfold JsMap.keys in Hle. rewrite length_fmap in Hle.
    unfold p in Hle. simpl in Hle. rewrite length_fmap in Hle. lia. }
  destruct (walk_tree (d v) v (length parent) [] Hv eq_refl Hfuel)
    as (es' & Hloop & Hpath & Hlen' & Hcost & _).
  exists es'. unfold reconstructPath. rewrite Hloop, app_nil_r. done.
Qed.
End ParentTree.

(** ** Termination measures *)

Lemma filter_length_mono {A} (P Q : A → Prop)
    `{∀ x, Decision (P x)} `{∀ x, Decision (Q x)} (l : list A) :
  (∀ x, x ∈ l → Q x → P x) →
  (length (filter Q l) ≤ length (filter P l))%nat.
Proof.
  induction l as [|a l IH]; intros HQP; [done|].
  rewrite !filter_cons.
  assert (length (filter Q l) ≤ length (filter P l))%nat as Hle.
  { apply IH. intros x Hx. apply HQP. by right. }
  destruct (decide (Q a)) as [Hq|Hq].
  - rewrite decide_True by (apply HQP; [left|done]). simpl. lia.
  - destruct (decide (P a)); simpl; lia.
Qed.

Lemma filter_length_lt {A} (P Q : A → Prop)
    `{∀ x, Decision (P x)} `{∀ x, Decision (Q x)} (l : list A) x0 :
  (∀ x, x ∈ l → Q x → P x) → x0 ∈ l → P x0 → ¬ Q x0 →
  (length (filter Q l) < length (filter P l))%nat.
Proof.
  induction l as [|a l IH]; intros HQP Hin HP HnQ.
  { by apply elem_of_nil in Hin. }
  rewrite !filter_cons.
  assert (length (filter Q l) ≤ length (filter P l))%nat as Hle.
  { apply filter_length_mono. intros x Hx. apply HQP. by right. }
  apply elem_of_cons in Hin as [->|Hin].
  - rewrite decide_False by done. rewrite decide_True by done. simpl. lia.
  - assert (length (filter Q l) < length (filter P l))%nat as Hlt.
    { apply IH; try done. intros x Hx. apply HQP. by right. }
    destruct (decide (Q a)) as [Hq|Hq].
    + rewrite decide_True by (apply HQP; [left|done]). simpl. lia.
    + destruct (decide (P a)); simpl; lia.
Qed.

Lemma getNeighbors_entry g u e :
  e ∈ Graph.getNeighbors g u → ∃ adj, (u, adj) ∈ edges g ∧ e ∈ adj.
Proof.
  unfold Graph.getNeighbors.
  destruct (JsMap.get (edges g) u) as [adj|] eqn:Hg; simpl.
  - intros He. exists adj. split; [|done]. by apply get_Some_elem_of.
  - by intros ?%elem_of_nil.
Qed.

Lemma unvisited_targets_add g visited e u :
  e ∈ Graph.getNeighbors g u → e_node e ∉ visited →
  (unvisited_targets g (visited ++ [e_node e]) < unvisited_targets g visited)%nat.
Proof.
  intros (adj & Hin & He)%getNeighbors_entry Hn. unfold unvisited_targets.
  induction (edges g) as [|[k a] m IH]; [by apply elem_of_nil in Hin|].
  simpl.
  assert (∀ l : list Edge,
    length (filter (λ e', e_node e' ∉ visited ++ [e_node e]) l)
    ≤ length (filter (λ e', e_node e' ∉ visited) l))%nat as Hmono.
  { intros l. apply filter_length_mono. intros x _ Hx Hv. apply Hx.
    apply elem_of_app. by left. }
  assert (foldr (λ kv n, (length (filter (λ e', e_node e' ∉ visited ++ [e_node e]) kv.2) + n)%nat) 0%nat m
          ≤ foldr (λ kv n, (length (filter (λ e', e_node e' ∉ visited) kv.2) + n)%nat) 0%nat m)%nat
    as Hrest.
  { clear IH Hin. induction m as [|[k' a'] m IHm]; simpl; [done|].
    specialize (Hmono a'). lia. }
  apply elem_of_cons in Hin as [[= <- <-]|Hin].
  - assert (length (filter (λ e', e_node e' ∉ visited ++ [e_node e]) adj)
            < length (filter (λ e', e_node e' ∉ visited) adj))%nat.
    { apply (filter_length_lt _ _ _ e); try done.
      - intros x _ Hx Hv. apply Hx. apply elem_of_app. by left.
      - intros Hx. apply Hx. apply elem_of_app. right. left. }
    lia.
  - specialize (IH Hin). specialize (Hmono a). lia.
Qed.

Lemma unvisited_targets_le_edge_count g visited :
  (unvisited_targets g visited ≤ edge_count g)%nat.
Proof.
  unfold unvisited_targets, edge_count.
  induction (edges g) as [|[k a] m IH]; simpl; [done|].
  pose proof (length_filter (λ e, e_node e ∉ visited) a). lia.
Qed.

(** ** The tree recorded by [parent] grows *)

Lemma parent_tree_ext g s parent d d' c W W' :
  (∀ x, d x = d' x) → (∀ x, W x = W' x) →
  parent_tree g s parent d c W → parent_tree g s parent d' c W'.
Proof.
  intros Hd HW [Hr Hrd HrW Hnull Hstep]. split; try done.
  - by rewrite <- Hd.
  - by rewrite <- HW.
  - intros v u Hvu. destruct (Hstep v u Hvu) as (Hu & Hdv & e & He & Hev & HWv).
    split; [done|]. split; [by rewrite <- !Hd|].
    exists e. by rewrite <- !HW.
Qed.

Lemma parent_tree_extend g s parent d c W n u e :
  parent_tree g s parent d c W →
  JsMap.has parent u = true → n ≠ s → u ≠ n →
  (∀ v, JsMap.get parent v ≠ Some (Some n)) →
  e ∈ Graph.getNeighbors g u → e_node e = n →
  parent_tree g s (JsMap.set parent n (Some u))
    (λ x, if decide (x = n) then S (d u) else d x) c
    (λ x, if decide (x = n) then W u + c e else W x).
Proof.
  intros [Hr Hrd HrW Hnull Hstep] Hu Hns Hun Hleaf He Hen.
  assert (s ≠ n) as Hsn by done. split.
  - by rewrite get_set_ne.
  - simpl. by destruct (decide (s = n)).
  - simpl. by destruct (decide (s = n)).
  - intros v. rewrite get_set. case_decide; [done|]. apply Hnull.
  - intros v p. cbv beta. rewrite get_set, has_set.
    destruct (decide (v = n)) as [->|Hvn].
    + intros [= <-].
      rewrite !(decide_False (P := u = n)) by done.
      split; [done|]. split; [done|]. by exists e.
    + intros Hvp. destruct (Hstep v p Hvp) as (Hp & Hdv & e' & He' & Hev' & HWv).
      assert (p ≠ n) as Hpn by (intros ->; by eapply Hleaf).
      rewrite !(decide_False (P := p = n)) by done.
      split; [done|]. split; [done|]. by exists e'.
Qed.

(** ** BFS: the invariant *)

Lemma dsorted_ext d d' q :
  (∀ x, x ∈ q → d x = d' x) → dsorted d q → dsorted d' q.
Proof.
  induction q as [|x q IH]; simpl; [done|]. intros Heq [Hx Hq]. split.
  - intros y Hy. rewrite <- !Heq; [by apply Hx|by right|by left].
  - apply IH; [|done]. intros y Hy. apply Heq. by right.
Qed.

Lemma dsorted_snoc d q n :
  dsorted d q → (∀ x, x ∈ q → (d x ≤ d n)%nat) → dsorted d (q ++ [n]).
Proof.
  induction q as [|x q IH]; simpl; intros Hq Hn.
  - split; [|done]. by intros y ?%elem_of_nil.
  - destruct Hq as [Hx Hq]. split.
    + intros y [Hy|Hy%list_elem_of_singleton]%elem_of_app.
      * by apply Hx.
      * subst y. apply Hn. left.
    + apply IH; [done|]. intros y Hy. apply Hn. by right.
Qed.

Lemma bfs_enqueue_step g s target c dc done d st e :
  bfs_mid g s target c dc done d st →
  e ∈ Graph.getNeighbors g c →
  ∃ d',
    bfs_mid g s target c dc (done ++ [e]) d' (bfs_enqueue c st e) ∧
    (length (bfs_queue (bfs_enqueue c st e))
       + unvisited_targets g (bfs_visited (bfs_enqueue c st e))
     ≤ length (bfs_queue st) + unvisited_targets g (bfs_visited st))%nat.
Proof.
  intros [Htree Hkeys [Hc Hdc] Hqueue Hsorted Hexp Hdone [Htc Htarget]] He.
  unfold bfs_enqueue.
  destruct (JsSet.has (bfs_visited st) (e_node e)) eqn:Hvis.
  - (* already visited *)
    apply set_has_true in Hvis. exists d. split; [|lia].
    split; try done. intros e' [He'|He'%list_elem_of_singleton]%elem_of_app.
    { by apply Hdone. }
    subst e'. split; [done|].
    destruct (decide (e_node e ∈ bfs_queue st)) as [Hq|Hq].
    { by apply Hqueue. }
    destruct (decide (e_node e = c)) as [->|Hne]; [lia|].
    destruct (Hexp _ Hvis Hq Hne) as [_ ?]. lia.
  - (* discovered now *)
    apply set_has_false in Hvis. set (n := e_node e) in *.
    assert (JsSet.add (bfs_visited st) n = bfs_visited st ++ [n]) as Hadd.
    { unfold JsSet.add. apply set_has_false in Hvis. by rewrite Hvis. }
    rewrite Hadd. simpl.
    assert (JsMap.has (bfs_parent st) n = false) as Hnokey.
    { apply not_true_is_false. by rewrite Hkeys. }
    assert (n ≠ s) as Hns.
    { intros ->. apply Hvis, Hkeys, has_true.
      rewrite (pt_root _ _ _ _ _ _ Htree). eauto. }
    assert (c ≠ n) as Hcn by (by intros ->).
    assert (∀ x, x ∈ bfs_visited st →
              (if decide (x = n) then S (d c) else d x) = d x) as Hold.
    { intros x Hx. rewrite decide_False; [done|]. by intros ->. }
    assert ((if decide (n = n) then S (d c) else d n) = S (d c)) as Hnew.
    { by rewrite decide_True. }
    exists (λ x, if decide (x = n) then S (d c) else d x). split; [split|].
    + simpl.
      assert (∀ v, JsMap.get (bfs_parent st) v ≠ Some (Some n)) as Hleaf.
      { intros v Hv. apply (pt_step _ _ _ _ _ _ Htree) in Hv as [Hn _].
        congruence. }
      assert (JsMap.has (bfs_parent st) c = true) as Hhc by (by apply Hkeys).
      pose proof (parent_tree_extend _ _ _ _ _ _ n c e Htree Hhc Hns Hcn
                    Hleaf He eq_refl) as Htree'.
      eapply parent_tree_ext; [| |exact Htree']; [done|].
      intros x. simpl. destruct (decide (x = n)); lia.
    + intros v. simpl. rewrite has_set, elem_of_app, list_elem_of_singleton.
      destruct (decide (v = n)) as [->|Hvn]; [tauto|]. rewrite Hkeys. tauto.
    + simpl. rewrite (Hold c) by done. split; [|done].
      apply elem_of_app. by left.
    + simpl. intros q [Hq|Hq%list_elem_of_singleton]%elem_of_app.
      * destruct (Hqueue q Hq) as [Hqv Hqd]. rewrite (Hold q) by done.
        split; [|done]. apply elem_of_app. by left.
      * subst q. rewrite Hnew. split; [|lia].
        apply elem_of_app. right. left.
    + simpl. apply dsorted_snoc.
      * eapply dsorted_ext; [|done]. intros x Hx. simpl.
        apply Hqueue in Hx as [? _]. by rewrite (Hold x).
      * intros x Hx. apply Hqueue in Hx as [Hxv Hxd].
        rewrite Hnew, (Hold x) by done. lia.
    + simpl. intros u Hu Huq Huc.
      assert (u ≠ n) as Hun.
      { intros ->. apply Huq, elem_of_app. right. left. }
      apply elem_of_app in Hu as [Hu|Hu%list_elem_of_singleton]; [|done].
      assert (u ∉ bfs_queue st) as Huq'.
      { intros ?. apply Huq, elem_of_app. by left. }
      destruct (Hexp u Hu Huq' Huc) as [Hcl Hdu].
      rewrite (Hold u) by done. split; [|done].
      intros e' He'. destruct (Hcl e' He') as [Hv' Hd'].
      rewrite (Hold u), (Hold (e_node e')) by done.
      split; [|done]. apply elem_of_app. by left.
    + simpl. intros e' [He'|He'%list_elem_of_singleton]%elem_of_app.
      * destruct (Hdone e' He') as [Hv' Hd'].
        rewrite (Hold (e_node e')) by done.
        split; [|done]. apply elem_of_app. by left.
      * subst e'. fold n. rewrite Hnew. split; [|lia].
        apply elem_of_app. right. left.
    + simpl. split; [done|].
      destruct (decide (target = n)) as [->|Htn].
      * right. apply elem_of_app. right. left.
      * destruct Htarget as [Ht|Ht].
        -- left. rewrite elem_of_app, list_elem_of_singleton. tauto.
        -- right. apply elem_of_app. by left.
    + simpl. rewrite length_app. simpl.
      pose proof (unvisited_targets_add g (bfs_visited st) e c He Hvis).
      fold n in H. lia.
Qed.

Lemma bfs_enqueue_fold g s target c dc rest :
  ∀ done d st,
    (∀ e, e ∈ rest → e ∈ Graph.getNeighbors g c) →
    bfs_mid g s target c dc done d st →
    ∃ d',
      bfs_mid g s target c dc (done ++ rest) d' (foldl (bfs_enqueue c) st rest) ∧
      (length (bfs_queue (foldl (bfs_enqueue c) st rest))
         + unvisited_targets g (bfs_visited (foldl (bfs_enqueue c) st rest))
       ≤ length (bfs_queue st) + unvisited_targets g (bfs_visited st))%nat.
Proof.
  induction rest as [|e rest IH]; intros done d st Hsub Hmid; simpl.
  - exists d. rewrite app_nil_r. split; [done|lia].
  - destruct (bfs_enqueue_step _ _ _ _ _ _ _ _ e Hmid) as (d1 & Hmid1 & Hle1).
    { apply Hsub. left. }
    destruct (IH (done ++ [e]) d1 (bfs_enqueue c st e)) as (d2 & Hmid2 & Hle2).
    { intros e' He'. apply Hsub. by right. }
    { done. }
    exists d2. rewrite <- app_assoc in Hmid2. split; [done|lia].
Qed.

(** Every node at the end of a path from the start is visited within the
    length of the path, unless the queue still holds a node less deep. *)
Lemma bfs_reach g s target d st :
  bfs_inv g s target d st →
  ∀ a es b, path g a es b →
  ∀ m, (a ∈ bfs_visited st ∧ (d a ≤ m)%nat) ∨
       (∃ q, q ∈ bfs_queue st ∧ (S (d q) ≤ m)%nat) →
       (b ∈ bfs_visited st ∧ (d b ≤ m + length es)%nat) ∨
       (∃ q, q ∈ bfs_queue st ∧ (S (d q) ≤ m + length es)%nat).
Proof.
  intros Hinv a es b Hpath.
  induction Hpath as [a|a e es b He Hpath IH]; intros m Hm; simpl.
  - destruct Hm as [[? ?]|(q & ? & ?)]; [left|right; exists q];
      split; try done; lia.
  - replace (m + S (length es))%nat with (S m + length es)%nat by lia.
    apply IH. destruct Hm as [[Ha Hda]|(q & Hq & Hdq)].
    + destruct (decide (a ∈ bfs_queue st)) as [Hq|Hq].
      * right. exists a. split; [done|lia].
      * destruct (bi_expanded _ _ _ _ _ Hinv a Ha Hq) as [Hcl _].
        destruct (Hcl e He) as [Hv Hd]. left. split; [done|lia].
    + right. exists q. split; [done|lia].
Qed.

Lemma bfs_inv_init g s target :
  bfs_inv g s target (λ _, 0%nat) (bfs_init s).
Proof.
  unfold bfs_init. split; simpl.
  - split; simpl; try done.
    + by rewrite decide_True.
    + intros v. by case_decide.
    + intros v u. by case_decide.
  - intros v. unfold JsMap.has, JsSet.add. simpl.
    rewrite list_elem_of_singleton. case_decide; split; try done; by intros ->.
  - intros q ->%list_elem_of_singleton. unfold JsSet.add. simpl. left.
  - split; [|done]. by intros y ?%elem_of_nil.
  - lia.
  - intros u Hu Hnq. unfold JsSet.add in Hu. simpl in Hu. done.
  - destruct (decide (target = s)) as [->|Hne].
    + right. left.
    + left. unfold JsSet.add. simpl. by rewrite list_elem_of_singleton.
Qed.

Lemma bfs_loop_shortest g s target es0 :
  path g s es0 target →
  ∀ fuel st d,
    bfs_inv g s target d st →
    (length (bfs_queue st) + unvisited_targets g (bfs_visited st) < fuel)%nat →
    ∃ es,
      received_done (bfs_loop fuel g target st) = Some (s :: (e_node <$> es)) ∧
      path g s es target ∧
      ∀ es', path g s es' target → (length es ≤ length es')%nat.
Proof.
  intros Hreach fuel.
  induction fuel as [|fuel IH]; intros st d Hinv Hfuel; [lia|].
  assert (s ∈ bfs_visited st ∧ d s = 0%nat) as [Hs Hds].
  { split; [|apply (pt_root_d _ _ _ _ _ _ (bi_tree _ _ _ _ _ Hinv))].
    apply (bi_keys _ _ _ _ _ Hinv), has_true.
    rewrite (pt_root _ _ _ _ _ _ (bi_tree _ _ _ _ _ Hinv)). eauto. }
  assert (∀ es', path g s es' target →
            (target ∈ bfs_visited st ∧ (d target ≤ length es')%nat) ∨
            (∃ q, q ∈ bfs_queue st ∧ (S (d q) ≤ length es')%nat)) as Hfind.
  { intros es' Hp.
    apply (bfs_reach _ _ _ _ _ Hinv _ _ _ Hp 0%nat). left. split; [done|lia]. }
  simpl. destruct (bfs_queue st) as [|c queue] eqn:Hq.
  { (* the queue cannot be empty before the target is dequeued *)
    exfalso. destruct (Hfind es0 Hreach) as [[Ht _]|(q & Hq' & _)].
    - destruct (bi_target _ _ _ _ _ Hinv) as [Hn|Hn]; [done|].
      rewrite ?Hq in Hn. by apply elem_of_nil in Hn.
    - by apply elem_of_nil in Hq'. }
  simpl.
  assert (c ∈ bfs_visited st) as Hcv.
  { apply (bi_queue _ _ _ _ _ Hinv). rewrite ?Hq. left. }
  pose proof (bi_sorted _ _ _ _ _ Hinv) as Hsorted.
  rewrite ?Hq in Hsorted. destruct Hsorted as [Hhead Hsorted].
  destruct (decide (c = target)) as [->|Hct].
  - (* the target is dequeued *)
    unfold yield_done.
    destruct (reconstructPath_tree _ _ _ _ _ _ (bi_tree _ _ _ _ _ Hinv) target)
      as (es & Hrec & Hpath & Hlen & _).
    { by apply (bi_keys _ _ _ _ _ Hinv). }
    rewrite Hrec. simpl. exists es. split; [done|]. split; [done|].
    intros es' Hp. rewrite Hlen.
    destruct (Hfind es' Hp) as [[_ ?]|(q & Hq' & Hdq)]; [done|].
    rewrite ?Hq in Hq'. apply elem_of_cons in Hq' as [->|Hq']; [lia|].
    specialize (Hhead q Hq'). lia.
  - (* another node is dequeued and expanded *)
    assert (bfs_mid g s target c (d c) [] d
              (mkBfs (bfs_visited st) (bfs_parent st) queue)) as Hmid.
    { split; simpl.
      - apply (bi_tree _ _ _ _ _ Hinv).
      - apply (bi_keys _ _ _ _ _ Hinv).
      - done.
      - intros q Hq'. split.
        + apply (bi_queue _ _ _ _ _ Hinv). rewrite ?Hq. by right.
        + split; [by apply Hhead|].
          apply (bi_range _ _ _ _ _ Hinv); rewrite ?Hq; [left|by right].
      - done.
      - intros u Hu Huq Huc.
        destruct (bi_expanded _ _ _ _ _ Hinv u Hu) as [Hcl Hle].
        { rewrite ?Hq. intros [->|?]%elem_of_cons; done. }
        split; [done|]. apply Hle. rewrite ?Hq. left.
      - by intros e ?%elem_of_nil.
      - split; [done|]. destruct (bi_target _ _ _ _ _ Hinv) as [Ht|Ht];
          [by left|]. rewrite ?Hq in Ht.
        apply elem_of_cons in Ht as [->|Ht]; [done|by right]. }
    destruct (bfs_enqueue_fold _ _ _ _ _ (Graph.getNeighbors g c) [] d _
                (λ e He, He) Hmid) as (d' & Hmid' & Hle).
    simpl in Hle, Hmid'.
    set (st' := foldl (bfs_enqueue c) _ (Graph.getNeighbors g c)) in *.
    apply (IH st' d'); [|rewrite ?Hq in Hfuel; simpl in Hfuel; lia].
    destruct Hmid' as [Htree Hkeys [Hc Hdc] Hqueue Hsorted' Hexp Hdone [_ Htarget]].
    split; try done.
    + intros q Hq'. by apply Hqueue.
    + intros x y Hx Hy. apply Hqueue in Hx as [_ ?].
      apply Hqueue in Hy as [_ ?]. lia.
    + intros u Hu Huq. destruct (decide (u = c)) as [->|Huc].
      * split.
        -- intros e He. destruct (Hdone e He) as [? ?]. split; [done|lia].
        -- intros q Hq'. apply Hqueue in Hq' as [_ ?]. lia.
      * destruct (Hexp u Hu Huq Huc) as [Hcl Hdu]. split; [done|].
        intros q Hq'. apply Hqueue in Hq' as [_ ?]. lia.
Qed.

(** C4: when the end is reachable, BFS run long enough hands over a [Done]
    event whose path is a path of the graph from the start to the end
    with the fewest edges, whatever the weights. *)
Theorem bfs_path_has_fewest_edges g startId endId es0 fuel :
  path g startId es0 endId →
  (edge_count g + 2 ≤ fuel)%nat →
  ∃ es,
    received_done (bfs fuel g startId endId)
      = Some (startId :: (e_node <$> es)) ∧
    path g startId es endId ∧
    ∀ es', path g startId es' endId → (length es ≤ length es')%nat.
Proof.
  intros Hreach Hfuel. unfold bfs.
  eapply bfs_loop_shortest; [done|apply bfs_inv_init|].
  pose proof (unvisited_targets_le_edge_count g (bfs_visited (bfs_init startId))).
  change (length (bfs_queue (bfs_init startId))) with 1%nat. lia.
Qed.

Lemma bfs_path_has_fewest_edges_witness :
  ∃ es,
    received_done (bfs 8 example_graph "A" "C") = Some ("A" :: (e_node <$> es)) ∧
    path example_graph "A" es "C" ∧
    ∀ es', path example_graph "A" es' "C" → (length es ≤ length es')%nat.
Proof.
  apply (bfs_path_has_fewest_edges example_graph "A" "C" [mkEdge "C" 10] 8).
  - apply path_cons; [right; left|apply path_nil].
  - vm_compute. lia.
Defined.

(** ** Dijkstra: the invariant *)



Lemma length_push {P} (lt : P → P → bool) data item :
  length (MinHeap.push lt data item) = S (length data).
Proof. by rewrite (push_Permutation lt data item). Qed.





Lemma pending_add g visited c :
  c ∉ visited →
  (pending g (visited ++ [c]) + length (Graph.getNeighbors g c)
   ≤ pending g visited)%nat.
Proof.
  intros Hc. unfold pending, Graph.getNeighbors.
  induction (edges g) as [|[k adj] m IH]; simpl; [done|].
  assert (foldr (λ kv n, ((if JsSet.has (visited ++ [c]) kv.1 then 0
                           else length kv.2) + n)%nat) 0%nat m
          ≤ foldr (λ kv n, ((if JsSet.has visited kv.1 then 0
                             else length kv.2) + n)%nat) 0%nat m)%nat as Hmono.
  { clear IH. induction m as [|[k' a'] m IHm]; simpl; [done|].
    destruct (JsSet.has visited k') eqn:Hk'.
    - apply set_has_true in Hk'.
      assert (JsSet.has (visited ++ [c]) k' = true) as ->.
      { apply set_has_true, elem_of_app. by left. }
      lia.
    - destruct (JsSet.has (visited ++ [c]) k'); lia. }
  destruct (decide (c = k)) as [->|Hck].
  - assert (JsSet.has (visited ++ [k]) k = true) as ->.
    { apply set_has_true, elem_of_app. right. left. }
    apply set_has_false in Hc. rewrite Hc. simpl. lia.
  - assert (JsSet.has (visited ++ [c]) k = JsSet.has visited k) as ->.
    { apply eq_true_iff_eq. rewrite !set_has_true, elem_of_app,
        list_elem_of_singleton.
      split; [intros [?|?]; [done|congruence]|by left]. }
    lia.
Qed.

Lemma pending_le_edge_count g visited : (pending g visited ≤ edge_count g)%nat.
Proof.
  unfold pending, edge_count.
  induction (edges g) as [|[k a] m IH]; simpl; [done|].
  destruct (JsSet.has visited k); lia.
Qed.





Lemma dijkstra_loop_S fuel g endId st :
  dijkstra_loop (S fuel) g endId st =
  if (0 <? MinHeap.size (dj_heap st))%nat then
    match MinHeap.pop Z.ltb (dj_heap st) with
    | (Some top, heap) =>
        if JsSet.has (dj_visited st) (node top)
        then dijkstra_loop fuel g endId
               (mkDijkstra (dj_dist st) (dj_parent st) (dj_visited st) heap)
        else
          Yield (Visit (node top) (JsSet.add (dj_visited st) (node top)) None
                   (Some (dj_dist st)))
            (if decide (node top = endId)
             then yield_done (dj_parent st) endId
                    (JsSet.add (dj_visited st) (node top))
                    (JsMap.get (dj_dist st) endId)
             else dijkstra_loop fuel g endId
                    (foldl (dijkstra_relax (node top) (priority top))
                       (mkDijkstra (dj_dist st) (dj_parent st)
                          (JsSet.add (dj_visited st) (node top)) heap)
                       (Graph.getNeighbors g (node top))))
    | (None, _) => Throw
    end
  else Yield (Done [] (dj_visited st) (Some Infinity)) Return.
Proof. reflexivity. Qed.





(** ** Every search ends, with one sequence of events *)



(** *** BFS *)

Lemma bfs_loop_S fuel g endId st :
  bfs_loop (S fuel) g endId st =
  match bfs_queue st with
  | [] => Yield (Done [] (bfs_visited st) None) Return
  | current :: queue =>
      Yield (Visit current (bfs_visited st) (Some (JsSet.of_array queue)) None)
        (if decide (current = endId)
         then yield_done (bfs_parent st) endId (bfs_visited st) None
         else bfs_loop fuel g endId
                (foldl (bfs_enqueue current)
                   (mkBfs (bfs_visited st) (bfs_parent st) queue)
                   (Graph.getNeighbors g current)))
  end.
Proof. reflexivity. Qed.





(** *** DFS *)


Lemma array_pop_Some {A} (l : list A) x l' :
  array_pop l = (Some x, l') → l = l' ++ [x].
Proof.
  destruct l as [|y l _] using rev_ind; [done|].
  rewrite array_pop_snoc. by intros [= -> ->].
Qed.

Lemma dfs_expand_measure g c st :
  dfs_visited (dfs_expand g c st) = dfs_visited st ∧
  (length (dfs_stack (dfs_expand g c st))
   ≤ length (dfs_stack st) + length (Graph.getNeighbors g c))%nat.
Proof.
  destruct (dfs_push_fold c (reverse (Graph.getNeighbors g c)) st) as [Hv Hs].
  fold (dfs_expand g c st) in Hv, Hs. split; [done|].
  rewrite Hs, length_app.
  pose proof (length_filter (λ n, n ∉ dfs_visited st)
                (e_node <$> reverse (Graph.getNeighbors g c))) as Hf.
  rewrite length_fmap, length_reverse in Hf. lia.
Qed.


(** *** Dijkstra *)



Lemma dijkstra_relax_measure c p st e :
  dj_visited (dijkstra_relax c p st e) = dj_visited st ∧
  (length (dj_heap (dijkstra_relax c p st e)) ≤ S (length (dj_heap st)))%nat.
Proof.
  unfold dijkstra_relax.
  destruct (JsSet.has (dj_visited st) (e_node e)); [split; [done|lia]|].
  destruct (JsMap.get (dj_dist st) (e_node e)) as [d0|]; [|split; [done|lia]].
  destruct (dist_ltb _ d0); [|split; [done|lia]].
  simpl. rewrite length_push. split; [done|lia].
Qed.

Lemma dijkstra_relax_fold_measure c p rest :
  ∀ st,
    dj_visited (foldl (dijkstra_relax c p) st rest) = dj_visited st ∧
    (length (dj_heap (foldl (dijkstra_relax c p) st rest))
     ≤ length (dj_heap st) + length rest)%nat.
Proof.
  induction rest as [|e rest IH]; intros st; simpl; [split; [done|lia]|].
  destruct (IH (dijkstra_relax c p st e)) as [Hv Hl].
  destruct (dijkstra_relax_measure c p st e) as [Hv' Hl'].
  split; [congruence|lia].
Qed.


(** *** A* *)

Section AStarFacts.
Context {num : Type} `{Number num}.

Lemma aStar_loop_S fuel g endId (st : AStarState) :
  aStar_loop fuel g endId st =
  match fuel with
  | O => OutOfFuel
  | S fuel =>
      if (0 <? MinHeap.size (as_heap st))%nat then
        match MinHeap.pop num_ltb (as_heap st) with
        | (Some top, heap) =>
            if JsSet.has (as_visited st) (node top)
            then aStar_loop fuel g endId
                   (mkAStar (as_gScore st) (as_fScore st) (as_parent st)
                      (as_visited st) heap)
            else
              Yield (Visit (node top) (JsSet.add (as_visited st) (node top))
                       None (Some (as_gScore st)))
                (if decide (node top = endId)
                 then yield_done (as_parent st) endId
                        (JsSet.add (as_visited st) (node top))
                        (JsMap.get (as_gScore st) endId)
                 else
                   match foldl (λ st e, st ≫= λ st, aStar_relax g endId (node top) st e)
                           (Some (mkAStar (as_gScore st) (as_fScore st)
                                    (as_parent st)
                                    (JsSet.add (as_visited st) (node top)) heap))
                           (Graph.getNeighbors g (node top)) with
                   | Some st' => aStar_loop fuel g endId st'
                   | None => Throw
                   end)
        | (None, _) => Throw
        end
      else Yield (Done [] (as_visited st) (Some Infinity)) Return
  end.
Proof. by destruct fuel. Qed.


Lemma aStar_relax_measure g endId c st e st' :
  aStar_relax g endId c st e = Some st' →
  as_visited st' = as_visited st ∧
  (length (as_heap st') ≤ S (length (as_heap st)))%nat.
Proof.
  unfold aStar_relax.
  destruct (JsSet.has (as_visited st) (e_node e)).
  { intros [= <-]. split; [done|lia]. }
  destruct (JsMap.get (as_gScore st) c) as [[|gc]|];
    try (intros [= <-]; split; [done|lia]).
  destruct (JsMap.get (as_gScore st) (e_node e)) as [gn|];
    try (intros [= <-]; split; [done|lia]).
  destruct (dist_ltb _ gn); try (intros [= <-]; split; [done|lia]).
  destruct (Graph.heuristic g (e_node e) endId) as [hn|]; [|done].
  simpl. intros [= <-]. simpl. rewrite length_push. split; [done|lia].
Qed.

Lemma aStar_relax_fold_measure g endId c rest :
  ∀ st st',
    foldl (λ st e, st ≫= λ st, aStar_relax g endId c st e) (Some st) rest
      = Some st' →
    as_visited st' = as_visited st ∧
    (length (as_heap st') ≤ length (as_heap st) + length rest)%nat.
Proof.
  induction rest as [|e rest IH]; intros st st'; simpl.
  { intros [= <-]. split; [done|lia]. }
  destruct (aStar_relax g endId c st e) as [st1|] eqn:Hrelax; cycle 1.
  { intros Hnone. exfalso. clear -Hnone.
    induction rest as [|e' rest IH']; simpl in *; [done|by apply IH']. }
  intros Hfold. destruct (IH _ _ Hfold) as [Hv Hl].
  destruct (aStar_relax_measure _ _ _ _ _ _ Hrelax) as [Hv' Hl'].
  split; [congruence|lia].
Qed.


End AStarFacts.


(** * More of the code: properties *)

(** ** The interface of [Graph] *)

Lemma path_app g a es b es' c :
  path g a es b → path g b es' c → path g a (es ++ es') c.
Proof.
  induction 1 as [a|a e es b He Hp IH]; intros Hq; simpl; [done|].
  apply path_cons; [done|]. by apply IH.
Qed.

Lemma path_weight_app es es' :
  path_weight (es ++ es') = path_weight es + path_weight es'.
Proof. induction es as [|e es IH]; simpl; lia. Qed.

Lemma keys_set {K V} `{EqDecision K} (m : list (K * V)) k v :
  JsMap.keys (JsMap.set m k v) =
  if JsMap.has m k then JsMap.keys m else JsMap.keys m ++ [k].
Proof.
  unfold JsMap.keys, JsMap.has.
  induction m as [|[k' v'] m IH]; [done|].
  cbn [JsMap.set JsMap.get]. case_decide; subst; [by rewrite !fmap_cons|].
  rewrite !fmap_cons, IH. by destruct (JsMap.get m k).
Qed.

Lemma has_keys {K V} `{EqDecision K} (m : list (K * V)) k :
  JsMap.has m k = true ↔ k ∈ JsMap.keys m.
Proof.
  unfold JsMap.keys, JsMap.has.
  induction m as [|[k' v'] m IH]; simpl.
  - split; [done|by intros ?%elem_of_nil].
  - case_decide; subst.
    + split; [intros _; left|done].
    + rewrite IH. split; [by right|]. by intros [?|?]%elem_of_cons.
Qed.

Lemma NoDup_keys_set {K V} `{EqDecision K} (m : list (K * V)) k v :
  NoDup (JsMap.keys m) → NoDup (JsMap.keys (JsMap.set m k v)).
Proof.
  intros Hnd. rewrite keys_set.
  destruct (JsMap.has m k) eqn:Hk; [done|].
  apply NoDup_app. split; [done|]. split; [|apply NoDup_singleton].
  intros x Hx ->%list_elem_of_singleton.
  apply has_keys in Hx. congruence.
Qed.

Lemma get_elem_of_NoDup {K V} `{EqDecision K} (m : list (K * V)) k v :
  NoDup (JsMap.keys m) → (k, v) ∈ m → JsMap.get m k = Some v.
Proof.
  unfold JsMap.keys.
  induction m as [|[k' v'] m IH]; simpl; intros Hnd Hin.
  { by apply elem_of_nil in Hin. }
  apply NoDup_cons in Hnd as [Hk' Hnd].
  apply elem_of_cons in Hin as [Heq|Hin].
  - simplify_eq. by rewrite decide_True.
  - case_decide; subst; [|by apply IH].
    exfalso. apply Hk'. apply list_elem_of_fmap. by exists (k', v).
Qed.


Lemma graph_built_empty : graph_built Graph.empty.
Proof.
  split; simpl.
  - apply graph_wf_empty.
  - apply NoDup_nil_2.
  - done.
  - intros u e. unfold Graph.getNeighbors. simpl. by intros ?%elem_of_nil.
Qed.

Lemma graph_built_addNode g id x y label type :
  graph_built g → graph_built (Graph.addNode g id x y label type).
Proof.
  intros [Hwf Hkeys Hnodes Hund]. split.
  - by apply graph_wf_addNode.
  - simpl. destruct (JsMap.has (edges g) id); [done|by apply NoDup_keys_set].
  - intros k. simpl. rewrite has_set.
    destruct (JsMap.has (edges g) id) eqn:Hid.
    + intros Hk. case_decide; [done|by apply Hnodes].
    + rewrite has_set. case_decide; [done|apply Hnodes].
  - intros u e. rewrite !getNeighbors_addNode. apply Hund.
Qed.

Lemma graph_built_addEdge g fromId toId weight :
  graph_built g → graph_built (Graph.addEdge g fromId toId weight).1.
Proof.
  intros [Hwf Hkeys Hnodes Hund].
  destruct (Graph.getNode g fromId) as [a|] eqn:Ha; cycle 1.
  { unfold Graph.addEdge. unfold Graph.getNode in Ha. by rewrite Ha. }
  destruct (Graph.getNode g toId) as [b|] eqn:Hb; cycle 1.
  { unfold Graph.addEdge. unfold Graph.getNode in Ha, Hb. by rewrite Ha, Hb. }
  assert (JsMap.has (nodes g) fromId = true) as Hhf by (apply has_true; eauto).
  assert (JsMap.has (nodes g) toId = true) as Hht by (apply has_true; eauto).
  pose proof (graph_wf_addEdge g fromId toId weight Hwf) as Hwf'.
  pose proof (addEdge_spec g fromId toId weight
                (wf_adj g Hwf _ Hhf) (wf_adj g Hwf _ Hht)) as Hs.
  rewrite Ha, Hb in Hs. cbv zeta in Hs.
  destruct Hs as (g' & Heq & Hn & Hh & Hnb). rewrite Heq in Hwf' |- *.
  simpl in *. split; [done| | |].
  - (* the keys of the adjacency map are those of [g], in the same order *)
    clear -Heq Hkeys Hwf Hhf Hht.
    unfold Graph.addEdge in Heq. unfold Graph.getNode in *.
    destruct (JsMap.get (nodes g) fromId); [|simplify_eq; done].
    destruct (JsMap.get (nodes g) toId); [|simplify_eq; done].
    destruct (JsMap.get (edges g) fromId); [|simplify_eq; done].
    simpl in Heq.
    destruct (JsMap.get (JsMap.set (edges g) fromId _) toId);
      simplify_eq; simpl; by repeat apply NoDup_keys_set.
  - intros k. rewrite Hh, Hn. apply Hnodes.
  - intros u e. rewrite !Hnb, !elem_of_app.
    intros [He|[He|He]].
    + left. by apply Hund.
    + case_decide; [|by apply elem_of_nil in He].
      apply list_elem_of_singleton in He. subst. simpl.
      right. right. rewrite decide_True by done. left.
    + case_decide; [|by apply elem_of_nil in He].
      apply list_elem_of_singleton in He. subst. simpl.
      right. left. rewrite decide_True by done. left.
Qed.

Lemma graph_built_build ops : graph_built (build ops).
Proof.
  unfold build. induction ops as [|op ops IH] using rev_ind.
  - apply graph_built_empty.
  - rewrite foldl_snoc. destruct op; simpl.
    + by apply graph_built_addNode.
    + by apply graph_built_addEdge.
Qed.



Lemma path_reverse g a es b :
  graph_built g → path g a es b →
  ∃ es', path g b es' a ∧ path_weight es' = path_weight es ∧
         length es' = length es.
Proof.
  intros Hb. induction 1 as [a|a e es b He Hp (es' & Hp' & Hw & Hl)].
  - exists []. split; [apply path_nil|done].
  - exists (es' ++ [mkEdge a (e_weight e)]). split; [|split].
    + apply (path_snoc _ _ _ _ (mkEdge a (e_weight e)) Hp').
      by apply (gb_undirected _ Hb).
    + rewrite path_weight_app. simpl. lia.
    + rewrite length_app. simpl. lia.
Qed.

(** X2: a graph built through [addNode] and [addEdge] is undirected: a
    path from [a] to [b] can be walked back from [b] to [a], through as
    many entries and with the same total weight. *)
Theorem built_graph_paths_reverse ops a es b :
  path (build ops) a es b →
  ∃ es', path (build ops) b es' a ∧ path_weight es' = path_weight es ∧
         length es' = length es.
Proof. apply path_reverse, graph_built_build. Qed.

Lemma built_graph_paths_reverse_witness :
  ∃ es', path example_graph "C" es' "A" ∧
         path_weight es' = path_weight [mkEdge "B" 10; mkEdge "C" 5] ∧
         length es' = length [mkEdge "B" 10; mkEdge "C" 5].
Proof.
  apply (built_graph_paths_reverse example_ops "A"
           [mkEdge "B" 10; mkEdge "C" 5] "C").
  apply path_cons; [left|].
  apply path_cons; [right; left|apply path_nil].
Defined.

(** *** [getAllEdges] *)

Lemma edge_key_sym a b : edge_key a b = edge_key b a.
Proof.
  unfold edge_key, String.ltb. rewrite (String.compare_antisym a b).
  destruct (String.compare b a) eqn:Hc; simpl; try done.
  by apply String.compare_eq_iff in Hc as ->.
Qed.

Lemma getAllEdges_entry_spec k acc e :
  edges_acc_ok acc →
  edges_acc_ok (getAllEdges_entry k acc e) ∧
  edge_key k (e_node e) ∈ (getAllEdges_entry k acc e).1 ∧
  ((getAllEdges_entry k acc e = acc ∧ edge_key k (e_node e) ∈ acc.1) ∨
   ((getAllEdges_entry k acc e).2
      = acc.2 ++ [mkEdgeRecord k (e_node e) (e_weight e)] ∧
    (getAllEdges_entry k acc e).1 = acc.1 ++ [edge_key k (e_node e)] ∧
    edge_key k (e_node e) ∉ acc.1)).
Proof.
  intros [Hkeys Hnd]. unfold getAllEdges_entry. cbv zeta.
  destruct (JsSet.has acc.1 (edge_key k (e_node e))) eqn:Hhas.
  - apply set_has_true in Hhas. split; [done|]. split; [done|]. by left.
  - apply set_has_false in Hhas as Hnot.
    assert (JsSet.add acc.1 (edge_key k (e_node e))
            = acc.1 ++ [edge_key k (e_node e)]) as Hadd.
    { unfold JsSet.add. by rewrite Hhas. }
    simpl. rewrite Hadd. split; [|split].
    + split; simpl.
      * unfold keys_of in *. rewrite fmap_app. simpl. by rewrite Hkeys.
      * apply NoDup_app. split; [done|]. split; [|apply NoDup_singleton].
        by intros x Hx ->%list_elem_of_singleton.
    + apply elem_of_app. right. left.
    + right. done.
Qed.

Lemma getAllEdges_inner k l :
  ∀ acc, edges_acc_ok acc →
    let acc' := foldl (getAllEdges_entry k) acc l in
    edges_acc_ok acc' ∧
    (∀ e, e ∈ l → edge_key k (e_node e) ∈ acc'.1) ∧
    ∃ new, acc'.2 = acc.2 ++ new ∧ acc'.1 = acc.1 ++ keys_of new ∧
      ∀ r, r ∈ new → ∃ l1 e l2,
        l = l1 ++ e :: l2 ∧ r = mkEdgeRecord k (e_node e) (e_weight e) ∧
        ∀ x, x ∈ l1 → e_node x ≠ e_node e.
Proof.
  induction l as [|e l IH]; intros acc Hok; simpl.
  { split; [done|]. split; [by intros e ?%elem_of_nil|].
    exists []. rewrite !app_nil_r. split; [done|]. split; [done|].
    by intros r ?%elem_of_nil. }
  destruct (getAllEdges_entry_spec k acc e Hok) as (Hok1 & Hin1 & Hcase).
  set (acc1 := getAllEdges_entry k acc e) in *.
  destruct (IH acc1 Hok1) as (Hok' & Hall & new' & Hres & Hseen & Hnew).
  set (acc' := foldl (getAllEdges_entry k) acc1 l) in *.
  split; [done|].
  assert (∀ r, r ∈ new' → ∃ l1 e' l2,
            e :: l = l1 ++ e' :: l2 ∧
            r = mkEdgeRecord k (e_node e') (e_weight e') ∧
            ∀ x, x ∈ l1 → e_node x ≠ e_node e') as Hnew'.
  { intros r Hr. destruct (Hnew r Hr) as (l1 & e' & l2 & -> & -> & Hl1).
    exists (e :: l1), e', l2. split; [done|]. split; [done|].
    intros x [->|Hx]%elem_of_cons; [|by apply Hl1].
    intros Heq. destruct Hok' as [_ Hnd]. rewrite Hseen in Hnd.
    apply NoDup_app in Hnd as (_ & Hdisj & _).
    apply (Hdisj _ Hin1). unfold keys_of. apply list_elem_of_fmap.
    eexists. split; [|exact Hr]. simpl. by rewrite Heq. }
  split.
  { intros e0 [->|He0]%elem_of_cons; [|by apply Hall].
    rewrite Hseen. apply elem_of_app. by left. }
  destruct Hcase as [[Heq Hin]|(Hres1 & Hseen1 & Hnot)].
  - exists new'. rewrite <- Heq. done.
  - exists (mkEdgeRecord k (e_node e) (e_weight e) :: new').
    split; [|split].
    + rewrite Hres, Hres1. by rewrite <- app_assoc.
    + rewrite Hseen, Hseen1. by rewrite <- app_assoc.
    + intros r [->|Hr]%elem_of_cons; [|by apply Hnew'].
      exists [], e, l. split; [done|]. split; [done|].
      by intros x ?%elem_of_nil.
Qed.

Lemma getAllEdges_outer E :
  ∀ acc, edges_acc_ok acc →
    let acc' := getAllEdges_loop acc E in
    edges_acc_ok acc' ∧
    (∀ k l e, (k, l) ∈ E → e ∈ l → edge_key k (e_node e) ∈ acc'.1) ∧
    ∃ new, acc'.2 = acc.2 ++ new ∧ acc'.1 = acc.1 ++ keys_of new ∧
      ∀ r, r ∈ new → ∃ l l1 e l2,
        (er_from r, l) ∈ E ∧ l = l1 ++ e :: l2 ∧
        r = mkEdgeRecord (er_from r) (e_node e) (e_weight e) ∧
        ∀ x, x ∈ l1 → e_node x ≠ e_node e.
Proof.
  unfold getAllEdges_loop.
  induction E as [|[k l] E IH]; intros acc Hok; simpl.
  { split; [done|]. split; [by intros k l e ?%elem_of_nil|].
    exists []. rewrite !app_nil_r. split; [done|]. split; [done|].
    by intros r ?%elem_of_nil. }
  destruct (getAllEdges_inner k l acc Hok)
    as (Hok1 & Hall1 & new1 & Hres1 & Hseen1 & Hnew1).
  set (acc1 := foldl (getAllEdges_entry k) acc l) in *.
  destruct (IH acc1 Hok1) as (Hok' & Hall & new' & Hres & Hseen & Hnew).
  split; [done|]. split.
  - intros k0 l0 e [Heq|Hin]%elem_of_cons He; [|by eapply Hall].
    simplify_eq. rewrite Hseen. apply elem_of_app. left. by apply Hall1.
  - exists (new1 ++ new'). split; [|split].
    + rewrite Hres, Hres1. by rewrite <- app_assoc.
    + rewrite Hseen, Hseen1. unfold keys_of.
      by rewrite fmap_app, <- app_assoc.
    + intros r [Hr|Hr]%elem_of_app.
      * destruct (Hnew1 r Hr) as (l1 & e & l2 & -> & -> & Hl1).
        exists (l1 ++ e :: l2), l1, e, l2. simpl.
        split; [left|done].
      * destruct (Hnew r Hr) as (l0 & l1 & e & l2 & Hin & -> & Hr' & Hl1).
        exists (l1 ++ e :: l2), l1, e, l2. split; [by right|done].
Qed.

Lemma getAllEdges_spec g :
  NoDup (JsMap.keys (edges g)) →
  NoDup (keys_of (getAllEdges g)) ∧
  (∀ u e, e ∈ Graph.getNeighbors g u →
          edge_key u (e_node e) ∈ keys_of (getAllEdges g)) ∧
  (∀ r, r ∈ getAllEdges g →
        List.find (λ n, bool_decide (e_node n = er_to r))
          (Graph.getNeighbors g (er_from r))
        = Some (mkEdge (er_to r) (er_weight r))).
Proof.
  intros Hnd. unfold getAllEdges.
  destruct (getAllEdges_outer (edges g) ([], [])) as
    ([Hkeys Hnd'] & Hall & new & Hres & Hseen & Hnew).
  { split; [done|apply NoDup_nil_2]. }
  simpl in Hres, Hseen. rewrite <- Hkeys. split; [done|]. split.
  - intros u e He. apply getNeighbors_entry in He as (adj & Hin & He).
    by eapply Hall.
  - intros r Hr. rewrite Hres in Hr.
    destruct (Hnew r Hr) as (l & l1 & e & l2 & Hin & -> & -> & Hl1).
    simpl in *. unfold Graph.getNeighbors.
    rewrite (get_elem_of_NoDup _ _ _ Hnd Hin). simpl.
    rewrite find_app.
    destruct (List.find _ l1) as [x|] eqn:Hfind.
    { apply List.find_some in Hfind as [Hx Hb].
      apply bool_decide_eq_true in Hb.
      apply list_elem_of_In in Hx. by apply Hl1 in Hx. }
    simpl. rewrite bool_decide_eq_true_2 by done. by destruct e.
Qed.

(** X3: [getAllEdges] on a graph built through the interface.  Every
    record it returns is an adjacency entry of its [from] node, with the
    weight that the first entry from [from] to [to] has (the weight
    [_calcPathDist] adds for this step), and no pair of nodes is listed
    twice, in either direction. *)
Theorem getAllEdges_lists_each_pair_once ops :
  let g := build ops in
  (∀ r, r ∈ getAllEdges g →
        mkEdge (er_to r) (er_weight r) ∈ Graph.getNeighbors g (er_from r) ∧
        weight_of g (er_from r) (er_to r) = Some (er_weight r)) ∧
  (∀ i j r1 r2,
     getAllEdges g !! i = Some r1 → getAllEdges g !! j = Some r2 → i ≠ j →
     ¬ (er_from r1 = er_from r2 ∧ er_to r1 = er_to r2) ∧
     ¬ (er_from r1 = er_to r2 ∧ er_to r1 = er_from r2)).
Proof.
  intros g.
  destruct (getAllEdges_spec g (gb_keys _ (graph_built_build ops)))
    as (Hnd & _ & Hfind).
  split.
  - intros r Hr. specialize (Hfind r Hr). split.
    + apply List.find_some in Hfind as [Hin _]. by apply list_elem_of_In.
    + unfold weight_of. by rewrite Hfind.
  - intros i j r1 r2 Hi Hj Hij.
    assert (edge_key (er_from r1) (er_to r1) ≠ edge_key (er_from r2) (er_to r2))
      as Hne.
    { intros Heq. apply Hij.
      eapply NoDup_lookup; [exact Hnd| |]; unfold keys_of;
        rewrite list_lookup_fmap; [by rewrite Hi|].
      rewrite Hj. simpl. by rewrite Heq. }
    split; intros [H1 H2]; apply Hne; rewrite H1, H2; [done|].
    apply edge_key_sym.
Qed.

Lemma plain_id_String c s : plain_id (String c s) ↔ c ≠ dash ∧ plain_id s.
Proof.
  unfold plain_id. simpl. rewrite not_elem_of_cons.
  split; intros [Hc Hs]; (split; [congruence|done]).
Qed.

Lemma append_dash_inj x :
  ∀ y x' y', plain_id x → plain_id x' →
    x +:+ "-" +:+ y = x' +:+ "-" +:+ y' → x = x' ∧ y = y'.
Proof.
  induction x as [|c x IH]; intros y [|c' x'] y' Hx Hx' Heq; simpl in Heq.
  - by simplify_eq.
  - apply plain_id_String in Hx' as [Hc _]. by simplify_eq.
  - apply plain_id_String in Hx as [Hc _]. by simplify_eq.
  - apply plain_id_String in Hx as [_ Hx].
    apply plain_id_String in Hx' as [_ Hx'].
    injection Heq as -> Heq.
    by destruct (IH _ _ _ Hx Hx' Heq) as [-> ->].
Qed.

Lemma edge_key_inj a b c d :
  plain_id a → plain_id b → plain_id c → plain_id d →
  edge_key a b = edge_key c d →
  (a = c ∧ b = d) ∨ (a = d ∧ b = c).
Proof.
  intros Ha Hb Hc Hd. unfold edge_key.
  destruct (String.ltb b a), (String.ltb d c);
    intros [-> ->]%append_dash_inj; auto.
Qed.

Lemma plain_ids_check g :
  bool_decide (Forall plain_id (JsMap.keys (nodes g))) = true →
  ∀ k, JsMap.has (nodes g) k = true → plain_id k.
Proof.
  intros Hall%bool_decide_eq_true k Hk%has_keys.
  by eapply Forall_forall in Hall.
Qed.

(** X4: when no node identifier has a ['-'], [getAllEdges] lists every
    pair of joined nodes: for each adjacency entry there is a record with
    the same two ends, in one of the two directions.  Identifiers with a
    ['-'] can hide a road: the roads [a-b]--[c] and [a]--[b-c] have the
    same key, and only the first is returned. *)
Theorem getAllEdges_covers_plain_ids :
  (∀ ops,
     let g := build ops in
     (∀ k, JsMap.has (nodes g) k = true → plain_id k) →
     ∀ u e, e ∈ Graph.getNeighbors g u →
       ∃ r, r ∈ getAllEdges g ∧
         ((er_from r = u ∧ er_to r = e_node e) ∨
          (er_from r = e_node e ∧ er_to r = u))) ∧
  (Graph.getNeighbors (build dash_ops) "a" = [mkEdge "b-c" 10] ∧
   getAllEdges (build dash_ops) = [mkEdgeRecord "a-b" "c" 5]).
Proof.
  split; [|done].
  intros ops g Hplain u e He.
  pose proof (graph_built_build ops) as Hb. fold g in Hb.
  destruct (getAllEdges_spec g (gb_keys _ Hb)) as (_ & Hcover & Hfind).
  pose proof (Hcover u e He) as Hkey.
  unfold keys_of in Hkey. apply list_elem_of_fmap in Hkey as (r & Hkey & Hr).
  exists r. split; [done|].
  assert (∀ v x, x ∈ Graph.getNeighbors g v →
            plain_id v ∧ plain_id (e_node x)) as Hends.
  { intros v x Hx. split.
    - apply Hplain, (gb_nodes _ Hb), has_true.
      unfold Graph.getNeighbors in Hx.
      destruct (JsMap.get (edges g) v); [eauto|by apply elem_of_nil in Hx].
    - apply Hplain. by eapply (wf_target _ (gb_wf _ Hb)). }
  destruct (Hends u e He) as [Hu He'].
  destruct (Hends (er_from r) (mkEdge (er_to r) (er_weight r))) as [Hf Ht].
  { specialize (Hfind r Hr). apply List.find_some in Hfind as [Hin _].
    by apply list_elem_of_In. }
  simpl in Ht.
  destruct (edge_key_inj _ _ _ _ Hu He' Hf Ht Hkey) as [[-> ->]|[-> ->]]; auto.
Qed.

Lemma getAllEdges_covers_plain_ids_witness :
  ∃ r, r ∈ getAllEdges example_graph ∧
    ((er_from r = "C" ∧ er_to r = "B") ∨ (er_from r = "B" ∧ er_to r = "C")).
Proof.
  refine (proj1 getAllEdges_covers_plain_ids example_ops _
            "C" (mkEdge "B" 5) _).
  - apply plain_ids_check. vm_compute. reflexivity.
  - vm_compute. right. left.
Defined.

(** ** BFS: what a search that fails has seen *)

(** One turn of the loop of [bfs] that does not dequeue the target. *)
Lemma bfs_inv_step g s target d st c queue :
  bfs_inv g s target d st → bfs_queue st = c :: queue → c ≠ target →
  ∃ d',
    bfs_inv g s target d'
      (foldl (bfs_enqueue c) (mkBfs (bfs_visited st) (bfs_parent st) queue)
         (Graph.getNeighbors g c)) ∧
    (length (bfs_queue
               (foldl (bfs_enqueue c)
                  (mkBfs (bfs_visited st) (bfs_parent st) queue)
                  (Graph.getNeighbors g c)))
     + unvisited_targets g
         (bfs_visited
            (foldl (bfs_enqueue c)
               (mkBfs (bfs_visited st) (bfs_parent st) queue)
               (Graph.getNeighbors g c)))
     ≤ length queue + unvisited_targets g (bfs_visited st))%nat.
Proof.
  intros Hinv Hq Hct.
  assert (c ∈ bfs_visited st) as Hcv.
  { apply (bi_queue _ _ _ _ _ Hinv). rewrite Hq. left. }
  pose proof (bi_sorted _ _ _ _ _ Hinv) as Hsorted.
  rewrite Hq in Hsorted. destruct Hsorted as [Hhead Hsorted].
  assert (bfs_mid g s target c (d c) [] d
            (mkBfs (bfs_visited st) (bfs_parent st) queue)) as Hmid.
  { split; simpl.
    - apply (bi_tree _ _ _ _ _ Hinv).
    - apply (bi_keys _ _ _ _ _ Hinv).
    - done.
    - intros q Hq'. split.
      + apply (bi_queue _ _ _ _ _ Hinv). rewrite Hq. by right.
      + split; [by apply Hhead|].
        apply (bi_range _ _ _ _ _ Hinv); rewrite Hq; [left|by right].
    - done.
    - intros u Hu Huq Huc.
      destruct (bi_expanded _ _ _ _ _ Hinv u Hu) as [Hcl Hle].
      { rewrite Hq. intros [->|?]%elem_of_cons; done. }
      split; [done|]. apply Hle. rewrite Hq. left.
    - by intros e ?%elem_of_nil.
    - split; [done|]. destruct (bi_target _ _ _ _ _ Hinv) as [Ht|Ht];
        [by left|]. rewrite Hq in Ht.
      apply elem_of_cons in Ht as [->|Ht]; [done|by right]. }
  destruct (bfs_enqueue_fold _ _ _ _ _ (Graph.getNeighbors g c) [] d _
              (λ e He, He) Hmid) as (d' & Hmid' & Hle).
  simpl in Hle, Hmid'. exists d'. split; [|done].
  destruct Hmid' as [Htree Hkeys [Hc Hdc] Hqueue Hsorted' Hexp Hdone [_ Htarget]].
  split; try done.
  - intros q Hq'. by apply Hqueue.
  - intros x y Hx Hy. apply Hqueue in Hx as [_ ?].
    apply Hqueue in Hy as [_ ?]. lia.
  - intros u Hu Huq. destruct (decide (u = c)) as [->|Huc].
    + split.
      * intros e He. destruct (Hdone e He) as [? ?]. split; [done|lia].
      * intros q Hq'. apply Hqueue in Hq' as [_ ?]. lia.
    + destruct (Hexp u Hu Huq Huc) as [Hcl Hdu]. split; [done|].
      intros q Hq'. apply Hqueue in Hq' as [_ ?]. lia.
Qed.

Lemma bfs_inv_visited_reachable g s target d st v :
  bfs_inv g s target d st → v ∈ bfs_visited st → reachable g s v.
Proof.
  intros Hinv Hv.
  destruct (reconstructPath_tree _ _ _ _ _ _ (bi_tree _ _ _ _ _ Hinv) v)
    as (es & _ & Hpath & _).
  { by apply (bi_keys _ _ _ _ _ Hinv). }
  by exists es.
Qed.

(** The loop of [bfs] ends with a [Done] event: with a path of the graph
    to the target, or, when the queue runs empty, with no path and all
    that can be reached in [visited]. *)
Lemma bfs_loop_outcome g s target :
  ∀ fuel st d,
    bfs_inv g s target d st →
    (length (bfs_queue st) + unvisited_targets g (bfs_visited st) < fuel)%nat →
    ∃ p visited,
      done_event (bfs_loop fuel g target st) = Some (Done p visited None) ∧
      (∀ v, v ∈ visited → reachable g s v) ∧
      ((∃ es, p = s :: (e_node <$> es) ∧ path g s es target) ∨
       (p = [] ∧ (∀ v, reachable g s v → v ∈ visited) ∧
        ¬ reachable g s target)).
Proof.
  induction fuel as [|fuel IH]; intros st d Hinv Hfuel; [lia|].
  rewrite bfs_loop_S.
  destruct (bfs_queue st) as [|c queue] eqn:Hq.
  - (* the queue is empty *)
    simpl. exists [], (bfs_visited st). split; [done|].
    split; [intros v; apply (bfs_inv_visited_reachable _ _ _ _ _ _ Hinv)|].
    right. split; [done|].
    assert (s ∈ bfs_visited st) as Hs.
    { apply (bi_keys _ _ _ _ _ Hinv), has_true.
      rewrite (pt_root _ _ _ _ _ _ (bi_tree _ _ _ _ _ Hinv)). eauto. }
    assert (∀ v, reachable g s v → v ∈ bfs_visited st) as Hall.
    { intros v [es Hp].
      destruct (bfs_reach _ _ _ _ _ Hinv _ _ _ Hp (d s)) as [[? _]|(q & Hq' & _)].
      - left. split; [done|lia].
      - done.
      - rewrite Hq in Hq'. by apply elem_of_nil in Hq'. }
    split; [done|]. intros Ht%Hall.
    destruct (bi_target _ _ _ _ _ Hinv) as [Hn|Hn]; [done|].
    rewrite Hq in Hn. by apply elem_of_nil in Hn.
  - simpl. destruct (decide (c = target)) as [->|Hct].
    + unfold yield_done.
      destruct (reconstructPath_tree _ _ _ _ _ _ (bi_tree _ _ _ _ _ Hinv) target)
        as (es & Hrec & Hpath & _).
      { apply (bi_keys _ _ _ _ _ Hinv), (bi_queue _ _ _ _ _ Hinv).
        rewrite Hq. left. }
      rewrite Hrec. simpl. exists (s :: (e_node <$> es)), (bfs_visited st).
      split; [done|].
      split; [intros v; apply (bfs_inv_visited_reachable _ _ _ _ _ _ Hinv)|].
      left. by exists es.
    + destruct (bfs_inv_step _ _ _ _ _ _ _ Hinv Hq Hct) as (d' & Hinv' & Hle).
      apply (IH _ d' Hinv'). simpl in Hfuel. lia.
Qed.

Lemma bfs_outcome g s target fuel :
  (edge_count g + 2 ≤ fuel)%nat →
  ∃ p visited,
    done_event (bfs fuel g s target) = Some (Done p visited None) ∧
    (∀ v, v ∈ visited → reachable g s v) ∧
    ((∃ es, p = s :: (e_node <$> es) ∧ path g s es target) ∨
     (p = [] ∧ (∀ v, reachable g s v → v ∈ visited) ∧
      ¬ reachable g s target)).
Proof.
  intros Hfuel. unfold bfs.
  apply (bfs_loop_outcome _ _ _ _ _ _ (bfs_inv_init g s target)).
  pose proof (unvisited_targets_le_edge_count g (bfs_visited (bfs_init s))).
  change (length (bfs_queue (bfs_init s))) with 1%nat. lia.
Qed.

(** X5: BFS answers "no path" exactly when there is none.  Run long
    enough, [bfs] ends with a [Done] event; its path is empty if and only
    if the end cannot be reached from the start; every node of its
    [visited] set can be reached from the start; and when the path is
    empty, [visited] holds every node that can be reached. *)
Theorem bfs_no_path_iff_unreachable g startId endId fuel :
  (edge_count g + 2 ≤ fuel)%nat →
  ∃ p visited,
    done_event (bfs fuel g startId endId) = Some (Done p visited None) ∧
    (p = [] ↔ ¬ reachable g startId endId) ∧
    (∀ v, v ∈ visited → reachable g startId v) ∧
    (p = [] → ∀ v, reachable g startId v → v ∈ visited).
Proof.
  intros Hfuel.
  destruct (bfs_outcome g startId endId fuel Hfuel)
    as (p & visited & Hdone & Hvis & Hcase).
  exists p, visited. split; [done|].
  destruct Hcase as [(es & -> & Hpath)|(-> & Hall & Hno)].
  - split; [|split; [done|done]].
    split; [done|]. intros Hno. destruct Hno. by exists es.
  - split; [done|]. split; [done|]. done.
Qed.

Lemma bfs_no_path_iff_unreachable_witness :
  ∃ p visited,
    done_event (bfs 8 example_graph_D "A" "D") = Some (Done p visited None) ∧
    (p = [] ↔ ¬ reachable example_graph_D "A" "D") ∧
    (∀ v, v ∈ visited → reachable example_graph_D "A" v) ∧
    (p = [] → ∀ v, reachable example_graph_D "A" v → v ∈ visited).
Proof.
  apply (bfs_no_path_iff_unreachable example_graph_D "A" "D" 8).
  vm_compute. lia.
Defined.

(** ** The city map *)

Lemma createCityMap_built : createCityMap = (build createCityMap_ops, None).
Proof. vm_compute. reflexivity. Qed.

Lemma createCityMap_from_home v :
  JsMap.has (nodes (build createCityMap_ops)) v = true →
  reachable (build createCityMap_ops) "home" v.
Proof.
  intros Hv%has_keys.
  set (g := build createCityMap_ops) in *.
  destruct (bfs_outcome g "home" "" 298) as (p & visited & Hdone & Hvis & _).
  { vm_compute. lia. }
  assert (match done_event (bfs 298 g "home" "") with
          | Some (Done _ visited _) =>
              bool_decide (Forall (λ k, k ∈ visited) (JsMap.keys (nodes g)))
          | _ => false
          end = true) as Hall by (vm_compute; reflexivity).
  rewrite Hdone in Hall. apply bool_decide_eq_true in Hall.
  apply Hvis. by eapply Forall_forall in Hall.
Qed.

(** X6: [createCityMap] does not throw.  The map it returns has 89
    nodes, none with a ['-'] in its identifier, and 146 roads as
    [getAllEdges] lists them; every weight is positive; and every node can
    be reached from every other node, so that no leg between two nodes
    of the map is without a path. *)
Theorem createCityMap_is_connected :
  let g := createCityMap.1 in
  createCityMap.2 = None ∧
  length (Graph.getAllNodes g) = 89%nat ∧
  length (getAllEdges g) = 146%nat ∧
  (∀ k, JsMap.has (nodes g) k = true → plain_id k) ∧
  (∀ u e, e ∈ Graph.getNeighbors g u → 0 < e_weight e) ∧
  (∀ a b, JsMap.has (nodes g) a = true → JsMap.has (nodes g) b = true →
          reachable g a b).
Proof.
  rewrite createCityMap_built. cbv zeta. simpl fst. simpl snd.
  set (g := build createCityMap_ops).
  split; [done|]. split; [by vm_compute|]. split; [by vm_compute|].
  split; [|split].
  - apply plain_ids_check. vm_compute. reflexivity.
  - intros u e (adj & Hin & He)%getNeighbors_entry.
    assert (Forall (λ kv, Forall (λ e, 0 < e_weight e) kv.2) (edges g)) as Hall.
    { apply (bool_decide_unpack _). vm_compute. exact I. }
    eapply Forall_forall in Hall; [|exact Hin].
    by eapply Forall_forall in Hall.
  - intros a b Ha Hb.
    destruct (createCityMap_from_home a Ha) as [es Hp].
    destruct (createCityMap_from_home b Hb) as [es' Hp'].
    destruct (path_reverse g _ _ _ (graph_built_build _) Hp) as (es'' & Hp'' & _).
    exists (es'' ++ es'). by eapply path_app.
Qed.

Lemma createCityMap_is_connected_witness :
  reachable createCityMap.1 "lighthouse" "observatory".
Proof.
  apply createCityMap_is_connected; vm_compute; reflexivity.
Defined.

(** ** DFS: the path it returns *)

Section ParentTreeSimple.
Context (g : Graph) (s : Id) (parent : list (Id * option Id))
        (d : Id → nat) (c : Edge → Z) (W : Id → Z).
Hypothesis Htree : parent_tree g s parent d c W.

(** The path that [reconstructPath] returns has no node twice. *)
Lemma reconstructPath_tree_NoDup v :
  JsMap.has parent v = true →
  ∃ es,
    reconstructPath parent v = Some (s :: (e_node <$> es)) ∧
    path g s es v ∧ path_cost c es = W v ∧
    NoDup (s :: (e_node <$> es)).
Proof using Htree.
  intros Hv.
  assert (∀ es : list Edge,
            (∀ i x, (s :: (e_node <$> es)) !! i = Some x →
                    JsMap.has parent x = true ∧ d x = i) →
            NoDup (s :: (e_node <$> es))) as Hnodup.
  { intros es Hpos. apply NoDup_alt. intros i j x Hi Hj.
    apply Hpos in Hi as [_ Hi]. apply Hpos in Hj as [_ Hj]. lia. }
  destruct (walk_tree _ _ _ _ _ _ Htree (d v) v (S (d v)) [] Hv eq_refl
              ltac:(lia)) as (es & _ & _ & Hlen & _ & Hpos).
  assert (d v < length parent)%nat as Hfuel.
  { set (p := s :: (e_node <$> es)) in *.
    assert (p ⊆ JsMap.keys parent) as Hsub.
    { intros x [i Hx]%list_elem_of_lookup.
      apply Hpos in Hx as [[o Hx]%has_true _]. by eapply get_Some_keys. }
    pose proof (submseteq_length _ _
                  (NoDup_submseteq _ _ (Hnodup es Hpos) Hsub)) as Hle.
    unfold JsMap.keys in Hle. rewrite length_fmap in Hle.
    unfold p in Hle. simpl in Hle. rewrite length_fmap in Hle. lia. }
  destruct (walk_tree _ _ _ _ _ _ Htree (d v) v (length parent) [] Hv eq_refl
              Hfuel) as (es' & Hloop & Hpath & _ & Hcost & Hpos').
  exists es'. unfold reconstructPath. rewrite Hloop, app_nil_r.
  split; [done|]. split; [done|]. split; [done|]. by apply Hnodup.
Qed.
End ParentTreeSimple.

Lemma array_pop_None {A} (l : list A) l' : array_pop l = (None, l') → l = [].
Proof.
  unfold array_pop. intros [= Hlast _].
  destruct l as [|x l] using rev_ind; [done|]. by rewrite last_snoc in Hlast.
Qed.

Lemma dfs_push_step g s target c done st e :
  dfs_mid g s target c done st →
  e ∈ Graph.getNeighbors g c →
  dfs_mid g s target c (done ++ [e]) (dfs_push c st e).
Proof.
  intros [[d Htree] Hparent Hvisited Hstack Hs Hc Hclosed Hdone Htarget] He.
  unfold dfs_push. cbv zeta.
  destruct (JsSet.has (dfs_visited st) (e_node e)) eqn:Hvis.
  - apply set_has_true in Hvis. split; try done; [by exists d|].
    intros e' [He'|He'%list_elem_of_singleton]%elem_of_app; [by apply Hdone|].
    subst e'. by left.
  - apply set_has_false in Hvis. set (n := e_node e) in *.
    assert (n ≠ s) as Hns by (by intros ->).
    assert (c ≠ n) as Hcn by (by intros ->).
    split; simpl.
    + exists (λ x, if decide (x = n) then S (d c) else d x).
      assert (∀ v, JsMap.get (dfs_parent st) v ≠ Some (Some n)) as Hleaf.
      { intros v Hv. by apply Hparent in Hv. }
      pose proof (parent_tree_extend _ _ _ _ _ _ n c e Htree (Hvisited c Hc)
                    Hns Hcn Hleaf He eq_refl) as Htree'.
      eapply parent_tree_ext; [| |exact Htree']; [done|].
      intros x. simpl. by destruct (decide (x = n)).
    + intros v u. rewrite get_set. case_decide; [by intros [= <-]|].
      apply Hparent.
    + intros v Hv. rewrite has_set. case_decide; [done|by apply Hvisited].
    + intros v. rewrite has_set. case_decide; [done|].
      intros [Hv|Hv%list_elem_of_singleton]%elem_of_app; [by apply Hstack|done].
    + done.
    + done.
    + intros u e' Hu Huc He'. rewrite elem_of_app.
      destruct (Hclosed u e' Hu Huc He'); auto.
    + intros e' [He'|He'%list_elem_of_singleton]%elem_of_app.
      * rewrite elem_of_app. destruct (Hdone e' He'); auto.
      * subst e'. right. apply elem_of_app. right. left.
    + done.
Qed.

Lemma dfs_push_fold_mid g s target c rest :
  ∀ done st,
    (∀ e, e ∈ rest → e ∈ Graph.getNeighbors g c) →
    dfs_mid g s target c done st →
    dfs_mid g s target c (done ++ rest) (foldl (dfs_push c) st rest).
Proof.
  induction rest as [|e rest IH]; intros done st Hrest Hmid; simpl.
  { by rewrite app_nil_r. }
  replace (done ++ e :: rest) with ((done ++ [e]) ++ rest)
    by (by rewrite <- app_assoc).
  apply IH; [intros e' He'; apply Hrest; by right|].
  apply dfs_push_step; [done|]. apply Hrest. left.
Qed.

Lemma dfs_inv_init g s target : dfs_inv g s target (dfs_init s).
Proof.
  unfold dfs_init. split; simpl.
  - exists (λ _, 0%nat). split; simpl; try done.
    + by rewrite decide_True.
    + intros v. by case_decide.
    + intros v u. by case_decide.
  - intros v u. by case_decide.
  - by intros v ?%elem_of_nil.
  - intros v ->%list_elem_of_singleton. unfold JsMap.has. simpl.
    by rewrite decide_True.
  - by right.
  - by intros u e ?%elem_of_nil.
  - by intros ?%elem_of_nil.
Qed.

Lemma dfs_inv_visited_reachable g s target st v :
  dfs_inv g s target st → JsMap.has (dfs_parent st) v = true →
  reachable g s v.
Proof.
  intros Hinv Hv. destruct (fi_tree _ _ _ _ Hinv) as [d Htree].
  destruct (reconstructPath_tree _ _ _ _ _ _ Htree v Hv) as (es & _ & Hpath & _).
  by exists es.
Qed.

(** The loop of [dfs] ends with a [Done] event: with a path of the graph
    to the target that passes no node twice, or, when the stack runs
    empty, with no path and all that can be reached in [visited]. *)
Lemma dfs_loop_outcome g s target :
  ∀ fuel st,
    dfs_inv g s target st →
    (length (dfs_stack st) + pending g (dfs_visited st) < fuel)%nat →
    ∃ p visited,
      done_event (dfs_loop fuel g target st) = Some (Done p visited None) ∧
      (∀ v, v ∈ visited → reachable g s v) ∧
      ((∃ es, p = s :: (e_node <$> es) ∧ path g s es target ∧ NoDup p) ∨
       (p = [] ∧ (∀ v, reachable g s v → v ∈ visited) ∧
        ¬ reachable g s target)).
Proof.
  induction fuel as [|fuel IH]; intros st Hinv Hfuel; [lia|].
  rewrite dfs_loop_S.
  destruct (array_pop (dfs_stack st)) as [[current|] stack] eqn:Hpop.
  - apply array_pop_Some in Hpop as Hstack.
    destruct (JsSet.has (dfs_visited st) current) eqn:Hvis.
    + (* popped a node that is visited *)
      apply set_has_true in Hvis. apply IH.
      * destruct Hinv as [Htree Hparent Hvisited Hstk Hs Hclosed Htarget].
        split; simpl; try done.
        -- intros v Hv. apply Hstk. rewrite Hstack. apply elem_of_app. by left.
        -- left. destruct Hs as [Hs|Hs]; [done|].
           rewrite Hs in Hstack. destruct stack as [|x stack]; simplify_eq/=.
           ++ done.
           ++ by destruct stack.
        -- intros u e Hu He. destruct (Hclosed u e Hu He) as [?|Hin]; [by left|].
           rewrite Hstack in Hin.
           apply elem_of_app in Hin as [?|Hin%list_elem_of_singleton];
             [by right|subst; by left].
      * simpl. rewrite Hstack, length_app in Hfuel. simpl in Hfuel. lia.
    + apply set_has_false in Hvis as Hvis'.
      assert (JsSet.add (dfs_visited st) current = dfs_visited st ++ [current])
        as Hadd.
      { unfold JsSet.add. by rewrite Hvis. }
      cbv zeta. rewrite Hadd. simpl.
      assert (JsMap.has (dfs_parent st) current = true) as Hkey.
      { apply (fi_stack _ _ _ _ Hinv). rewrite Hstack.
        apply elem_of_app. right. left. }
      assert (∀ v, v ∈ dfs_visited st ++ [current] → reachable g s v) as Hreach.
      { intros v [Hv|Hv%list_elem_of_singleton]%elem_of_app.
        - apply (dfs_inv_visited_reachable _ _ _ _ _ Hinv).
          by apply (fi_visited _ _ _ _ Hinv).
        - subst v. by apply (dfs_inv_visited_reachable _ _ _ _ _ Hinv). }
      destruct (decide (current = target)) as [->|Hct].
      * (* the target is popped *)
        unfold yield_done. destruct (fi_tree _ _ _ _ Hinv) as [d Htree].
        destruct (reconstructPath_tree_NoDup _ _ _ _ _ _ Htree target Hkey)
          as (es & Hrec & Hpath & _ & Hnd).
        rewrite Hrec. simpl.
        exists (s :: (e_node <$> es)), (dfs_visited st ++ [target]).
        split; [done|]. split; [done|]. left. by exists es.
      * (* another node is popped and expanded *)
        assert (s ∈ dfs_visited st ++ [current]) as Hs'.
        { apply elem_of_app.
          destruct (fi_start _ _ _ _ Hinv) as [Hs|Hs]; [by left|].
          right. rewrite Hs in Hstack.
          destruct stack as [|x stack]; simplify_eq/=; [left|by destruct stack]. }
        assert (dfs_mid g s target current []
                  (mkDfs (dfs_visited st ++ [current]) (dfs_parent st) stack))
          as Hmid.
        { destruct Hinv as [Htree Hparent Hvisited Hstk Hs Hclosed Htarget].
          split; simpl; try done.
          - intros v u Hv. apply elem_of_app. left. by eapply Hparent.
          - intros v [Hv|Hv%list_elem_of_singleton]%elem_of_app;
              [by apply Hvisited|by subst v].
          - intros v Hv. apply Hstk. rewrite Hstack. apply elem_of_app. by left.
          - apply elem_of_app. right. left.
          - intros u e [Hu|Hu%list_elem_of_singleton]%elem_of_app Huc He;
              [|done].
            rewrite elem_of_app.
            destruct (Hclosed u e Hu He) as [?|Hin]; [by left; left|].
            rewrite Hstack in Hin.
            apply elem_of_app in Hin as [?|Hin%list_elem_of_singleton];
              [by right|left; right; rewrite Hin; left].
          - by intros e ?%elem_of_nil.
          - intros [?|?%list_elem_of_singleton]%elem_of_app; done. }
        pose proof (dfs_push_fold_mid g s target current
                      (reverse (Graph.getNeighbors g current)) [] _
                      (λ e He, proj1 (elem_of_reverse _ _) He) Hmid) as Hmid'.
        fold (dfs_expand g current
                (mkDfs (dfs_visited st ++ [current]) (dfs_parent st) stack))
          in Hmid'.
        destruct (dfs_expand_measure g current
                    (mkDfs (dfs_visited st ++ [current]) (dfs_parent st) stack))
          as [Hv' Hl'].
        simpl in Hv', Hl'. apply IH.
        -- destruct Hmid' as [Htree Hparent Hvisited Hstk Hs Hc Hclosed Hdone
                               Htarget].
           split; try done; [by left|].
           intros u e Hu He. destruct (decide (u = current)) as [->|Huc].
           ++ apply Hdone. simpl. by apply elem_of_reverse.
           ++ by apply (Hclosed u e).
        -- rewrite Hv'.
           pose proof (pending_add g (dfs_visited st) current Hvis').
           rewrite Hstack, length_app in Hfuel. simpl in Hfuel. lia.
  - (* the stack is empty *)
    apply array_pop_None in Hpop as Hstack. simpl.
    exists [], (dfs_visited st). split; [done|]. split.
    { intros v Hv. apply (dfs_inv_visited_reachable _ _ _ _ _ Hinv).
      by apply (fi_visited _ _ _ _ Hinv). }
    right. split; [done|].
    assert (∀ a es b, path g a es b → a ∈ dfs_visited st → b ∈ dfs_visited st)
      as Hclos.
    { induction 1 as [a|a e es b He Hp IHp]; intros Ha; [done|].
      apply IHp. destruct (fi_closed _ _ _ _ Hinv a e Ha He) as [?|Hin]; [done|].
      rewrite Hstack in Hin. by apply elem_of_nil in Hin. }
    assert (s ∈ dfs_visited st) as Hs.
    { destruct (fi_start _ _ _ _ Hinv) as [?|Hs]; [done|]. congruence. }
    split.
    + intros v [es Hp]. by eapply Hclos.
    + intros [es Hp]. apply (fi_target _ _ _ _ Hinv). by eapply Hclos.
Qed.

(** X7: DFS finds a path exactly when there is one.  Run long enough,
    [dfs] ends with a [Done] event; its path is empty if and only if the
    end cannot be reached from the start; a path that is not empty is a
    path of the graph from the start to the end that passes no node
    twice; every node of [visited] can be reached from the start; and
    when the path is empty, [visited] holds every node that can be
    reached. *)
Theorem dfs_finds_a_simple_path g startId endId fuel :
  (edge_count g + 2 ≤ fuel)%nat →
  ∃ p visited,
    done_event (dfs fuel g startId endId) = Some (Done p visited None) ∧
    (p = [] ↔ ¬ reachable g startId endId) ∧
    (p ≠ [] → NoDup p ∧
       ∃ es, p = startId :: (e_node <$> es) ∧ path g startId es endId) ∧
    (∀ v, v ∈ visited → reachable g startId v) ∧
    (p = [] → ∀ v, reachable g startId v → v ∈ visited).
Proof.
  intros Hfuel. unfold dfs.
  destruct (dfs_loop_outcome g startId endId fuel (dfs_init startId)
              (dfs_inv_init g startId endId))
    as (p & visited & Hdone & Hvis & Hcase).
  { pose proof (pending_le_edge_count g (dfs_visited (dfs_init startId))).
    change (length (dfs_stack (dfs_init startId))) with 1%nat. lia. }
  exists p, visited. split; [done|].
  destruct Hcase as [(es & -> & Hpath & Hnd)|(-> & Hall & Hno)].
  - split; [|split; [|done]].
    + split; [done|]. intros Hno. destruct Hno. by exists es.
    + intros _. split; [done|]. by exists es.
  - split; [done|]. split; [done|]. done.
Qed.

Lemma dfs_finds_a_simple_path_witness :
  ∃ p visited,
    done_event (dfs 8 example_graph "A" "C") = Some (Done p visited None) ∧
    (p = [] ↔ ¬ reachable example_graph "A" "C") ∧
    (p ≠ [] → NoDup p ∧
       ∃ es, p = "A" :: (e_node <$> es) ∧ path example_graph "A" es "C") ∧
    (∀ v, v ∈ visited → reachable example_graph "A" v) ∧
    (p = [] → ∀ v, reachable example_graph "A" v → v ∈ visited).
Proof.
  apply (dfs_finds_a_simple_path example_graph "A" "C" 8).
  vm_compute. lia.
Defined.

(** ** Dijkstra, whatever the sign of the weights *)








(** ** A*: the path it returns, whatever the priorities *)

Section AStarOutcome.
Context {num : Type} `{Number num}.







End AStarOutcome.



Lemma default_weighted_check g :
  forallb (λ kv, forallb (default_entry g kv.1) kv.2) (edges g) = true →
  default_weighted g.
Proof.
  intros Hall u e (adj & Hin & He)%getNeighbors_entry.
  rewrite forallb_forall in Hall.
  apply list_elem_of_In, Hall in Hin. simpl in Hin.
  rewrite forallb_forall in Hin. apply list_elem_of_In, Hin in He.
  unfold default_entry in He.
  destruct (Graph.getNode g u) as [nu|]; [|done].
  destruct (Graph.getNode g (e_node e)) as [nv|]; [|done].
  apply bool_decide_eq_true in He. by exists nu, nv.
Qed.

(** X10: A* does not always return a shortest path, even when every
    weight is the default one.  On five nodes of a diagonal, with roads
    S-G (weight 11), S-M1 (7), M1-M2, M2-M3 and M3-G (1 each), the entry of
    G, of priority 11, leaves the heap before that of M1, of priority
    7 + hypot(3, 3): [aStar] reports the road S-G and the distance 11,
    where the path through M1, M2 and M3, which [dijkstra] reports,
    weighs 10. *)
Theorem aStar_can_miss_the_shortest_path :
  default_weighted detour_graph ∧
  path detour_graph "S"
    [mkEdge "M1" 7; mkEdge "M2" 1; mkEdge "M3" 1; mkEdge "G" 1] "G" ∧
  done_event (aStar (num := PrimFloat.float) 12 detour_graph "S" "G")
    = Some (Done ["S"; "G"] ["S"; "G"] (Some (Finite 11))) ∧
  done_event (dijkstra 12 detour_graph "S" "G")
    = Some (Done ["S"; "M1"; "M2"; "M3"; "G"] ["S"; "M1"; "M2"; "M3"; "G"]
              (Some (Finite 10))).
Proof.
  split; [by apply default_weighted_check|].
  split; [|split; by vm_compute].
  repeat (apply path_cons; [vm_compute; by repeat constructor|]).
  apply path_nil.
Qed.

(** ** No node is visited twice *)

Lemma visit_nodes_yield_done parent endId visited dist :
  visit_nodes (yield_done parent endId visited dist) = [].
Proof. unfold yield_done. by destruct (reconstructPath parent endId). Qed.

Lemma bfs_enqueue_fold_shape c l :
  ∀ st, ∃ new,
    bfs_queue (foldl (bfs_enqueue c) st l) = bfs_queue st ++ new ∧
    bfs_visited (foldl (bfs_enqueue c) st l) = bfs_visited st ++ new ∧
    NoDup new ∧ ∀ x, x ∈ new → x ∉ bfs_visited st.
Proof.
  induction l as [|e l IH]; intros st; simpl.
  { exists []. rewrite !app_nil_r. split; [done|]. split; [done|].
    split; [apply NoDup_nil_2|]. by intros x ?%elem_of_nil. }
  unfold bfs_enqueue at 2 4. cbv zeta.
  destruct (JsSet.has (bfs_visited st) (e_node e)) eqn:Hvis; [apply IH|].
  assert (JsSet.add (bfs_visited st) (e_node e) = bfs_visited st ++ [e_node e])
    as ->.
  { unfold JsSet.add. by rewrite Hvis. }
  apply set_has_false in Hvis.
  destruct (IH (mkBfs (bfs_visited st ++ [e_node e])
                  (JsMap.set (bfs_parent st) (e_node e) (Some c))
                  (bfs_queue st ++ [e_node e])))
    as (new & Hq & Hv & Hnd & Hnew).
  simpl in Hq, Hv, Hnew. exists (e_node e :: new).
  rewrite Hq, Hv, <- !app_assoc. split; [done|]. split; [done|]. split.
  - apply NoDup_cons. split; [|done]. intros Hin. apply (Hnew _ Hin).
    apply elem_of_app. right. left.
  - intros x [->|Hx]%elem_of_cons; [done|].
    intros Hin. apply (Hnew _ Hx), elem_of_app. by left.
Qed.

Lemma bfs_loop_visits g endId fuel :
  ∀ st, NoDup (bfs_queue st) →
        (∀ q, q ∈ bfs_queue st → q ∈ bfs_visited st) →
        NoDup (visit_nodes (bfs_loop fuel g endId st)) ∧
        ∀ v, v ∈ visit_nodes (bfs_loop fuel g endId st) →
             v ∈ bfs_queue st ∨ v ∉ bfs_visited st.
Proof.
  induction fuel as [|fuel IH]; intros st Hnd Hsub.
  { simpl. split; [apply NoDup_nil_2|]. by intros v ?%elem_of_nil. }
  rewrite bfs_loop_S. destruct (bfs_queue st) as [|c queue] eqn:Hq.
  { simpl. split; [apply NoDup_nil_2|]. by intros v ?%elem_of_nil. }
  apply NoDup_cons in Hnd as [Hc Hnd]. simpl.
  destruct (decide (c = endId)) as [->|Hce].
  { rewrite visit_nodes_yield_done. split.
    - apply NoDup_singleton.
    - intros v ->%list_elem_of_singleton. left. left. }
  destruct (bfs_enqueue_fold_shape c (Graph.getNeighbors g c)
              (mkBfs (bfs_visited st) (bfs_parent st) queue))
    as (new & Hq' & Hv' & Hnew & Hfresh).
  simpl in Hq', Hv', Hfresh.
  set (st' := foldl (bfs_enqueue c) _ (Graph.getNeighbors g c)) in *.
  destruct (IH st') as [Hnd' Hin'].
  { rewrite Hq'. apply NoDup_app. split; [done|]. split; [|done].
    intros x Hx Hx'. apply (Hfresh x Hx'), Hsub. by right. }
  { intros q. rewrite Hq', Hv', !elem_of_app.
    intros [Hq0|?]; [|by right]. left. apply Hsub. by right. }
  split.
  - apply NoDup_cons. split; [|done]. intros Hin.
    destruct (Hin' c Hin) as [Hcq|Hcv].
    + rewrite Hq' in Hcq. apply elem_of_app in Hcq as [?|Hcn]; [done|].
      apply (Hfresh c Hcn), Hsub. left.
    + apply Hcv. rewrite Hv'. apply elem_of_app. left. apply Hsub. left.
  - intros v [->|Hv]%elem_of_cons; [left; left|].
    destruct (Hin' v Hv) as [Hvq|Hvv].
    + rewrite Hq' in Hvq. apply elem_of_app in Hvq as [?|Hvn].
      * left. by right.
      * right. by apply Hfresh.
    + right. intros Hvis. apply Hvv. rewrite Hv'. apply elem_of_app. by left.
Qed.

Lemma dfs_loop_visits g endId fuel :
  ∀ st, NoDup (visit_nodes (dfs_loop fuel g endId st)) ∧
        ∀ v, v ∈ visit_nodes (dfs_loop fuel g endId st) → v ∉ dfs_visited st.
Proof.
  induction fuel as [|fuel IH]; intros st.
  { simpl. split; [apply NoDup_nil_2|]. by intros v ?%elem_of_nil. }
  rewrite dfs_loop_S.
  destruct (array_pop (dfs_stack st)) as [[c|] stack].
  2: { simpl. split; [apply NoDup_nil_2|]. by intros v ?%elem_of_nil. }
  destruct (JsSet.has (dfs_visited st) c) eqn:Hvis.
  { apply (IH (mkDfs (dfs_visited st) (dfs_parent st) stack)). }
  assert (JsSet.add (dfs_visited st) c = dfs_visited st ++ [c]) as Hadd.
  { unfold JsSet.add. by rewrite Hvis. }
  apply set_has_false in Hvis. cbv zeta. rewrite Hadd. simpl.
  destruct (decide (c = endId)) as [->|Hce].
  { rewrite visit_nodes_yield_done. split.
    - apply NoDup_singleton.
    - by intros v ->%list_elem_of_singleton. }
  destruct (dfs_expand_measure g c
              (mkDfs (dfs_visited st ++ [c]) (dfs_parent st) stack))
    as [Hv' _].
  destruct (IH (dfs_expand g c
                  (mkDfs (dfs_visited st ++ [c]) (dfs_parent st) stack)))
    as [Hnd' Hin'].
  rewrite Hv' in Hin'. simpl in Hin'. split.
  - apply NoDup_cons. split; [|done]. intros Hin.
    apply (Hin' c Hin), elem_of_app. right. left.
  - intros v [->|Hv]%elem_of_cons; [done|].
    intros Hvv. apply (Hin' v Hv), elem_of_app. by left.
Qed.

Lemma dijkstra_loop_visits g endId fuel :
  ∀ st, NoDup (visit_nodes (dijkstra_loop fuel g endId st)) ∧
        ∀ v, v ∈ visit_nodes (dijkstra_loop fuel g endId st) →
             v ∉ dj_visited st.
Proof.
  induction fuel as [|fuel IH]; intros st.
  { simpl. split; [apply NoDup_nil_2|]. by intros v ?%elem_of_nil. }
  rewrite dijkstra_loop_S.
  destruct (0 <? MinHeap.size (dj_heap st))%nat.
  2: { simpl. split; [apply NoDup_nil_2|]. by intros v ?%elem_of_nil. }
  destruct (MinHeap.pop Z.ltb (dj_heap st)) as [[top|] heap].
  2: { simpl. split; [apply NoDup_nil_2|]. by intros v ?%elem_of_nil. }
  set (c := node top).
  destruct (JsSet.has (dj_visited st) c) eqn:Hvis.
  { apply (IH (mkDijkstra (dj_dist st) (dj_parent st) (dj_visited st) heap)). }
  assert (JsSet.add (dj_visited st) c = dj_visited st ++ [c]) as Hadd.
  { unfold JsSet.add. by rewrite Hvis. }
  apply set_has_false in Hvis. rewrite Hadd. simpl.
  destruct (decide (c = endId)) as [->|Hce].
  { rewrite visit_nodes_yield_done. split.
    - apply NoDup_singleton.
    - by intros v ->%list_elem_of_singleton. }
  destruct (dijkstra_relax_fold_measure c (priority top)
              (Graph.getNeighbors g c)
              (mkDijkstra (dj_dist st) (dj_parent st) (dj_visited st ++ [c])
                 heap)) as [Hv' _].
  destruct (IH (foldl (dijkstra_relax c (priority top))
                  (mkDijkstra (dj_dist st) (dj_parent st)
                     (dj_visited st ++ [c]) heap)
                  (Graph.getNeighbors g c))) as [Hnd' Hin'].
  rewrite Hv' in Hin'. simpl in Hin'. split.
  - apply NoDup_cons. split; [|done]. intros Hin.
    apply (Hin' c Hin), elem_of_app. right. left.
  - intros v [->|Hv]%elem_of_cons; [done|].
    intros Hvv. apply (Hin' v Hv), elem_of_app. by left.
Qed.

Section AStarVisits.
Context {num : Type} `{Number num}.

Lemma aStar_loop_visits g endId fuel :
  ∀ st : @AStarState num,
    NoDup (visit_nodes (aStar_loop fuel g endId st)) ∧
    ∀ v, v ∈ visit_nodes (aStar_loop fuel g endId st) → v ∉ as_visited st.
Proof.
  induction fuel as [|fuel IH]; intros st.
  { simpl. split; [apply NoDup_nil_2|]. by intros v ?%elem_of_nil. }
  rewrite aStar_loop_S.
  destruct (0 <? MinHeap.size (as_heap st))%nat.
  2: { simpl. split; [apply NoDup_nil_2|]. by intros v ?%elem_of_nil. }
  destruct (MinHeap.pop num_ltb (as_heap st)) as [[top|] heap].
  2: { simpl. split; [apply NoDup_nil_2|]. by intros v ?%elem_of_nil. }
  set (c := node top).
  destruct (JsSet.has (as_visited st) c) eqn:Hvis.
  { apply (IH (mkAStar (as_gScore st) (as_fScore st) (as_parent st)
                 (as_visited st) heap)). }
  assert (JsSet.add (as_visited st) c = as_visited st ++ [c]) as Hadd.
  { unfold JsSet.add. by rewrite Hvis. }
  apply set_has_false in Hvis. rewrite Hadd. simpl.
  destruct (decide (c = endId)) as [->|Hce].
  { rewrite visit_nodes_yield_done. split.
    - apply NoDup_singleton.
    - by intros v ->%list_elem_of_singleton. }
  destruct (foldl _ _ _) as [st'|] eqn:Hfold.
  2: { simpl. split; [apply NoDup_singleton|].
       by intros v ->%list_elem_of_singleton. }
  destruct (aStar_relax_fold_measure _ _ _ _ _ _ Hfold) as [Hv' _].
  destruct (IH st') as [Hnd' Hin']. rewrite Hv' in Hin'. simpl in Hin'.
  split.
  - apply NoDup_cons. split; [|done]. intros Hin.
    apply (Hin' c Hin), elem_of_app. right. left.
  - intros v [->|Hv]%elem_of_cons; [done|].
    intros Hvv. apply (Hin' v Hv), elem_of_app. by left.
Qed.
End AStarVisits.

(** X11: no search visits a node twice.  In the events that an
    algorithm yields, however far it is run, no two [Visit] events are
    for the same node; so the count of visited nodes that the application
    displays for a leg is a count of different nodes. *)
Theorem no_node_is_visited_twice {num : Type} `{Number num}
    algo fuel g startId endId :
  NoDup (visit_nodes (algo_fn (num := num) algo fuel g startId endId)).
Proof.
  destruct algo; simpl.
  - apply bfs_loop_visits.
    + apply NoDup_singleton.
    + intros q ->%list_elem_of_singleton. left.
  - apply dfs_loop_visits.
  - apply dijkstra_loop_visits.
  - unfold aStar. destruct (aStar_init g startId endId); [|apply NoDup_nil_2].
    apply aStar_loop_visits.
Qed.

(** ** The heap as a sorting device *)

Lemma heap_ok_foldl_push {P} (ltb : P → P → bool) :
  (∀ a b, ltb a b = true → ltb b a = false) →
  (∀ a b c, ltb b a = false → ltb c b = false → ltb c a = false) →
  ∀ items data, heap_ok ltb data →
    heap_ok ltb (foldl (MinHeap.push ltb) data items) ∧
    foldl (MinHeap.push ltb) data items ≡ₚ data ++ items.
Proof.
  intros Hasym Htrans. induction items as [|x items IH]; intros data Hok; simpl.
  { by rewrite app_nil_r. }
  destruct (IH (MinHeap.push ltb data x)) as [Hok' Hperm].
  { by apply push_heap_ok. }
  split; [done|]. rewrite Hperm, (push_Permutation ltb data x).
  simpl. apply Permutation_middle.
Qed.

Lemma drain_sorted fuel :
  ∀ data, heap_ok Z.ltb data → (length data ≤ fuel)%nat →
    drain Z.ltb fuel data ≡ₚ data ∧ ascending (drain Z.ltb fuel data).
Proof.
  induction fuel as [|fuel IH]; intros data Hok Hlen.
  { destruct data; [done|simpl in Hlen; lia]. }
  simpl. unfold MinHeap.size.
  destruct (decide (data = [])) as [->|Hne]; [done|].
  assert ((0 <? length data)%nat = true) as ->.
  { apply Nat.ltb_lt. destruct data; [done|simpl; lia]. }
  destruct (pop_nonempty Z.ltb data Hne) as (top & data' & Hpop).
  rewrite Hpop.
  pose proof (pop_Permutation _ _ _ _ Hpop) as Hperm.
  pose proof (pop_heap_ok Z.ltb Zltb_asym Zltb_negtrans _ _ _ Hok Hpop) as Hok'.
  destruct (IH data' Hok') as [Hperm' Hasc'].
  { rewrite Hperm in Hlen. simpl in Hlen. lia. }
  split.
  - by rewrite Hperm, Hperm'.
  - split; [|done]. intros y Hy. rewrite Hperm' in Hy.
    pose proof (pop_min Z.ltb Zltb_asym Zltb_negtrans _ _ _ y Hok Hpop Hy).
    lia.
Qed.

(** X12: the heap sorts.  After any items have been pushed on an empty
    heap, popping until the heap is empty hands the same items over, each
    as often as it was pushed, in an order in which the priority never
    decreases.  A [pop] on the empty heap returns [undefined] and leaves
    it empty. *)
Theorem minheap_pops_in_priority_order (items : list (Entry Z)) :
  let data := foldl (MinHeap.push Z.ltb) [] items in
  MinHeap.size data = length items ∧
  drain Z.ltb (length items) data ≡ₚ items ∧
  ascending (drain Z.ltb (length items) data) ∧
  MinHeap.pop Z.ltb [] = (None, []).
Proof.
  intros data.
  destruct (heap_ok_foldl_push Z.ltb Zltb_asym Zltb_negtrans items [])
    as [Hok Hperm]; [apply heap_ok_nil|].
  fold data in Hok, Hperm. simpl in Hperm.
  assert (length data = length items) as Hlen by (by rewrite Hperm).
  split; [done|].
  destruct (drain_sorted (length items) data Hok) as [Hp Ha]; [lia|].
  split; [by rewrite Hp|]. split; [done|]. done.
Qed.

(** ** [_calcPathDist] *)





(** ** The orchestrator: the legs it runs *)

Lemma engines_app eff1 eff2 : engines (eff1 ++ eff2) = engines eff1 ++ engines eff2.
Proof. apply omap_app. Qed.

Lemma engines_no_engine eff :
  Forall (λ x, is_engine x = false) eff → engines eff = [].
Proof.
  induction 1 as [|x eff Hx _ IH]; [done|].
  destruct x; try done; exact IH.
Qed.

Lemma drive_engines t leg first acc : engines (drive t leg first acc).1.1 = [].
Proof.
  apply engines_no_engine.
  eapply Forall_impl; [apply drive_effects|]. by intros x [? _].
Qed.



Lemma legs_of_elem route a b :
  (a, b) ∈ legs_of route → a ∈ route ∧ b ∈ route.
Proof.
  induction route as [|x route IH]; [by intros ?%elem_of_nil|].
  destruct route as [|y route]; [by intros ?%elem_of_nil|].
  change (legs_of (x :: y :: route)) with ((x, y) :: legs_of (y :: route)).
  intros [Heq|Hin]%elem_of_cons.
  - simplify_eq. split; [left|right; left].
  - destruct (IH Hin). split; by right.
Qed.

Section RunLegs.
Context {num : Type} `{Number num}.

Lemma run_legs_cons fuel g algo legs leg a b rest acc :
  run_legs (num := num) fuel g algo legs leg (a :: b :: rest) acc =
  match Graph.getNode g a, Graph.getNode g b with
  | Some fa, Some tb =>
      let '(deff, acc, lend) :=
        drive (algo_fn (num := num) algo fuel g a b) leg true acc in
      let pre := NewEngine a b
                 :: UpdateStatus (StatusLeg (leg + 1) (n_label fa) (n_label tb))
                 :: deff in
      match lend with
      | LegDone path _ dist =>
          match path with
          | _ :: _ =>
              let acc := mkAcc (totalVisited acc)
                           (dist_add (totalDistance acc) (legDist g path dist))
                           (allSegments acc
                              ++ [(path, default ""
                                           (LEG_COLORS
                                              !! (leg `mod` length LEG_COLORS)%nat))])
                           (allVisited acc) in
              let '(eff', e') :=
                run_legs fuel g algo legs (S leg) (b :: rest) acc in
              (pre ++ SetCurrentVisit None
                   :: SetPathSegments (allSegments acc)
                   :: UpdateStats (totalVisited acc) (leg + 1) (totalDistance acc)
                   :: (if (leg <? legs - 1)%nat then [Wait] else [])
                   ++ eff', e')
          | [] =>
              (pre ++ [SetCurrentVisit None;
                       UpdateStatus (StatusNoPath (n_label fa) (n_label tb));
                       RunButton false], Returned)
          end
      | LegNull => let '(eff', e') := finish legs acc in (pre ++ eff', e')
      | LegRejected => (pre, Rejected)
      | LegStuck => (pre, Stuck)
      end
  | _, _ => ([NewEngine a b], Rejected)
  end.
Proof. reflexivity. Qed.

Lemma engines_pre a b st l :
  engines (NewEngine a b :: UpdateStatus st :: l) = (a, b) :: engines l.
Proof. reflexivity. Qed.

Lemma run_legs_engines fuel g algo legs route :
  ∀ leg acc,
    engines (run_legs (num := num) fuel g algo legs leg route acc).1
      `prefix_of` legs_of route.
Proof.
  induction route as [|a route IH]; intros leg acc; [by exists []|].
  destruct route as [|b rest]; [by exists []|].
  rewrite run_legs_cons.
  change (legs_of (a :: b :: rest)) with ((a, b) :: legs_of (b :: rest)).
  destruct (Graph.getNode g a) as [fa|]; [|by apply prefix_cons, prefix_nil].
  destruct (Graph.getNode g b) as [tb|]; [|by apply prefix_cons, prefix_nil].
  pose proof (drive_engines (algo_fn (num := num) algo fuel g a b) leg true acc)
    as Hd.
  destruct (drive _ leg true acc) as [[deff acc'] lend]. cbn [fst snd] in Hd.
  destruct lend as [[|p ps] vis dist| | |]; cbv zeta; cbn [fst snd].
  - rewrite <- !app_comm_cons, engines_pre, engines_app, Hd.
    apply prefix_cons, prefix_nil.
  - specialize (IH (S leg)
      (mkAcc (totalVisited acc')
         (dist_add (totalDistance acc') (legDist g (p :: ps) dist))
         (allSegments acc'
            ++ [(p :: ps, default ""
                            (LEG_COLORS !! (leg `mod` length LEG_COLORS)%nat))])
         (allVisited acc'))).
    destruct (run_legs fuel g algo legs (S leg) (b :: rest) _) as [eff' e'].
    cbn [fst snd] in *.
    rewrite <- !app_comm_cons, engines_pre, engines_app, Hd.
    change (engines (SetCurrentVisit None :: ?x :: ?y :: ?l))
      with (engines l).
    rewrite engines_app.
    assert (engines (if (leg <? legs - 1)%nat then [Wait] else []) = []) as ->.
    { by destruct (leg <? legs - 1)%nat. }
    by apply prefix_cons.
  - unfold finish. cbn [fst snd].
    rewrite <- !app_comm_cons, engines_pre, engines_app, Hd.
    apply prefix_cons, prefix_nil.
  - rewrite engines_pre, Hd. apply prefix_cons, prefix_nil.
  - rewrite engines_pre, Hd. apply prefix_cons, prefix_nil.
Qed.

Lemma find_duplicate_None g route :
  find_duplicate g route = None → ∀ a b, (a, b) ∈ legs_of route → a ≠ b.
Proof.
  induction route as [|x route IH]; [by intros _ a b ?%elem_of_nil|].
  destruct route as [|y route]; [by intros _ a b ?%elem_of_nil|].
  change (find_duplicate g (x :: y :: route))
    with (if decide (x = y) then Some (n_label <$> Graph.getNode g x)
          else find_duplicate g (y :: route)).
  change (legs_of (x :: y :: route)) with ((x, y) :: legs_of (y :: route)).
  case_decide; [done|]. intros Hnone a b [Heq|Hin]%elem_of_cons.
  - by simplify_eq.
  - by apply IH.
Qed.

(** X14: the engines of a run follow the route.  Whatever its inputs,
    [_run] constructs its engines for consecutive legs of the route
    [startId, stop1, stop2, ...] (the empty selections left out), in
    order and from the first leg on; and never for a leg whose two ends
    are the same node, nor for an empty identifier. *)
Theorem run_engines_follow_the_route fuel g startId waypoints algoKey :
  let route := startId :: filter (λ s, s ≠ "") waypoints in
  let r := _run (num := num) fuel g startId waypoints algoKey in
  engines r.1 `prefix_of` legs_of route ∧
  ∀ a b, (a, b) ∈ engines r.1 → a ≠ b ∧ a ≠ "" ∧ b ≠ "".
Proof.
  intros route r. unfold r, _run.
  destruct (decide (startId = "")) as [|Hstart].
  { split; [by exists (legs_of route)|]. by intros a b ?%elem_of_nil. }
  destruct (decide (length (filter (λ s, s ≠ "") waypoints) = 0%nat)).
  { split; [by exists (legs_of route)|]. by intros a b ?%elem_of_nil. }
  fold route.
  destruct (find_duplicate g route) as [[name|]|] eqn:Hdup.
  { split; [by exists (legs_of route)|]. by intros a b ?%elem_of_nil. }
  { split; [by exists (legs_of route)|]. by intros a b ?%elem_of_nil. }
  pose proof (run_legs_engines fuel g algoKey (length route - 1) route 0%nat
                (mkAcc 0 (Finite 0) [] [])) as Hpre.
  destruct (run_legs fuel g algoKey (length route - 1) 0%nat route _)
    as [eff e]. cbn [fst snd] in *.
  split; [done|]. intros a b Hin.
  assert ((a, b) ∈ legs_of route) as Hleg.
  { destruct Hpre as [k ->]. apply elem_of_app. by left. }
  split; [by eapply find_duplicate_None|].
  assert (∀ x, x ∈ route → x ≠ "") as Hne.
  { intros x [->|Hx]%elem_of_cons; [done|].
    by apply list_elem_of_filter in Hx as [? _]. }
  apply legs_of_elem in Hleg as [Ha Hb]. split; by apply Hne.
Qed.
End RunLegs.

(** ** The orchestrator: a trip that completes *)

Section RunComplete.
Context {num : Type} `{Number num}.




End RunComplete.


(** ** The trip of the application *)

Lemma insert_swap_Permutation {A} (l : list A) i j a b :
  l !! i = Some a → l !! j = Some b → <[j := a]> (<[i := b]> l) ≡ₚ l.
Proof.
  intros Ha Hb. destruct (decide (i = j)) as [->|Hij].
  - simplify_eq. rewrite list_insert_insert_eq. by rewrite list_insert_id.
  - set (d1 := <[i := b]> l).
    assert (d1 !! j = Some b) as Hd1j.
    { unfold d1. by rewrite list_lookup_insert_ne. }
    assert (d1 !! i = Some b) as Hd1i.
    { unfold d1. apply list_lookup_insert_eq. by eapply lookup_lt_Some. }
    assert (delete j d1 ≡ₚ delete i l) as Hdel.
    { apply (Permutation_cons_inv (a := b)).
      rewrite <- (delete_Permutation d1 j b Hd1j).
      rewrite (delete_Permutation d1 i b Hd1i).
      unfold d1. by rewrite delete_insert_same. }
    rewrite (delete_Permutation (<[j := a]> d1) j a); cycle 1.
    { apply list_lookup_insert_eq. by eapply lookup_lt_Some. }
    rewrite delete_insert_same, Hdel.
    by rewrite <- (delete_Permutation l i a Ha).
Qed.

Section TripFacts.
Import PathfinderApp.

Lemma swap_at_Permutation ws i j : swap_at ws i j ≡ₚ ws.
Proof.
  unfold swap_at.
  destruct (ws !! i) as [wi|] eqn:Hi; [|done].
  destruct (ws !! j) as [wj|] eqn:Hj; [|done].
  by apply insert_swap_Permutation.
Qed.

Lemma swap_at_lookup ws i j :
  (i < length ws)%nat → (j < length ws)%nat →
  swap_at ws i j !! i = ws !! j ∧ swap_at ws i j !! j = ws !! i.
Proof.
  intros Hi Hj. unfold swap_at.
  destruct (lookup_lt_is_Some_2 _ _ Hi) as [a Ha].
  destruct (lookup_lt_is_Some_2 _ _ Hj) as [b Hb].
  rewrite Ha, Hb. split.
  - destruct (decide (i = j)) as [->|Hij].
    + rewrite list_lookup_insert_eq by (by rewrite length_insert). congruence.
    + rewrite list_lookup_insert_ne by done.
      by rewrite list_lookup_insert_eq.
  - by rewrite list_lookup_insert_eq by (by rewrite length_insert).
Qed.

Lemma move_Permutation {A} (l : list A) start toIndex moved :
  l !! start = Some moved →
  take toIndex (delete start l) ++ moved :: drop toIndex (delete start l) ≡ₚ l.
Proof.
  intros Hm. rewrite <- Permutation_middle, take_drop.
  by rewrite <- delete_Permutation.
Qed.












(** X17: moving a stop keeps the stops.  [_swapWaypoints] with an index
    out of range changes nothing; otherwise the two waypoints trade
    places.  The [drop] handler takes the waypoint at the dragged index
    out and puts it in at the index of the item it is dropped on.  In
    both cases the waypoints after are those before, in another order,
    and the renderer is given the selected stops in the new order. *)
Theorem moving_keeps_the_stops a :
  (∀ i j,
     waypoints (_swapWaypoints a i j) ≡ₚ waypoints a ∧
     (¬ (0 ≤ i < Z.of_nat (length (waypoints a)) ∧
         0 ≤ j < Z.of_nat (length (waypoints a))) →
      _swapWaypoints a i j = a) ∧
     (0 ≤ i < Z.of_nat (length (waypoints a)) →
      0 ≤ j < Z.of_nat (length (waypoints a)) →
      waypoints (_swapWaypoints a i j) !! Z.to_nat i
        = waypoints a !! Z.to_nat j ∧
      waypoints (_swapWaypoints a i j) !! Z.to_nat j
        = waypoints a !! Z.to_nat i ∧
      waypointNodes (renderer (_swapWaypoints a i j))
        = stops (waypoints (_swapWaypoints a i j)))) ∧
  (∀ fromIndex toIndex,
     (fromIndex < length (waypoints a))%nat →
     (toIndex < length (waypoints a))%nat →
     fromIndex ≠ toIndex →
     ∃ a', on_drop a (Some (Z.of_nat fromIndex)) toIndex = Some a' ∧
           waypoints a' ≡ₚ waypoints a ∧
           waypoints a' !! toIndex = waypoints a !! fromIndex ∧
           waypointNodes (renderer a') = stops (waypoints a')).
Proof.
  split.
  - intros i j. unfold _swapWaypoints. cbv zeta.
    destruct ((i <? 0) || (j <? 0) || _ || _) eqn:Hguard.
    + split; [done|]. split; [done|]. intros Hi Hj. exfalso.
      repeat (apply orb_true_iff in Hguard as [Hguard|Hguard]); lia.
    + repeat (apply orb_false_iff in Hguard as [Hguard ?]).
      simpl. split; [apply swap_at_Permutation|]. split; [lia|].
      intros Hi Hj.
      destruct (swap_at_lookup (waypoints a) (Z.to_nat i) (Z.to_nat j))
        as [Hl1 Hl2]; [lia|lia|]. done.
  - intros fromIndex toIndex Hfrom Hto Hne. unfold on_drop.
    rewrite decide_False by (intros [= ?]; lia). cbv zeta.
    assert (splice_start (length (waypoints a)) (Some (Z.of_nat fromIndex))
            = fromIndex) as ->.
    { unfold splice_start. simpl.
      destruct (Z.of_nat fromIndex <? 0) eqn:Hneg; lia. }
    destruct (lookup_lt_is_Some_2 _ _ Hfrom) as [moved Hmoved].
    rewrite Hmoved. eexists. split; [done|]. simpl.
    split; [by apply move_Permutation|]. split; [|done].
    rewrite lookup_app_r by (rewrite length_take, length_delete by eauto; lia).
    rewrite length_take, length_delete by eauto.
    by replace (toIndex - toIndex `min` (length (waypoints a) - 1))%nat
      with 0%nat by lia.
Qed.

Lemma moving_keeps_the_stops_witness :
  ∃ a', on_drop (_addWaypoint (_addWaypoint init "zoo") "library")
          (Some 2) 0 = Some a' ∧
        wp_nodeId <$> waypoints a' = ["library"; ""; "zoo"].
Proof.
  destruct (proj2 (moving_keeps_the_stops
                     (_addWaypoint (_addWaypoint init "zoo") "library"))
              2%nat 0%nat) as (a' & Hdrop & _); [simpl; lia|simpl; lia|done|].
  exists a'. split; [exact Hdrop|].
  vm_compute in Hdrop. by injection Hdrop as <-.
Defined.

(** X18: an edit of the trip does not end a run.  No action on the trip
    but the reset changes [isRunning] or enables the run button; a click
    on a node of the map while a search runs changes nothing; removing a
    stop, selecting a stop and changing the start clear the pending
    timers of the animation all the same, and the reset clears the
    timers, [isRunning] and the run button together. *)
Theorem trip_edits_do_not_end_a_run a :
  (∀ act a', act ≠ ResetClick → handle a act = Some a' →
             isRunning a' = isRunning a ∧
             runBtn_disabled a' = runBtn_disabled a) ∧
  (isRunning a = true → ∀ nodeId, onNodeClick a nodeId = a) ∧
  (∀ wpId, animationTimers (_removeWaypoint a wpId) = []) ∧
  (∀ index value, animationTimers (on_select_change a index value) = []) ∧
  (∀ value, animationTimers (on_start_change a value) = []) ∧
  (isRunning (_reset a) = false ∧ runBtn_disabled (_reset a) = false ∧
   animationTimers (_reset a) = []).
Proof.
  split; [|split; [|done]].
  - intros act a' Hact.
    destruct act as [|wpId|index|index|index value|fromIndex toIndex|nodeId
                     |value|]; simpl; try (by intros [= <-]).
    + unfold _swapWaypoints. cbv zeta. destruct (_ || _); by intros [= <-].
    + unfold _swapWaypoints. cbv zeta. destruct (_ || _); by intros [= <-].
    + unfold on_drop. case_decide; [by intros [= <-]|]. cbv zeta.
      destruct (waypoints a !! _); [|done]. by intros [= <-].
    + unfold onNodeClick. intros [= <-].
      destruct (isRunning a) eqn:Hrun; [by rewrite Hrun|].
      case_decide; [done|]. case_decide; [by rewrite Hrun|].
      by destruct (fill_first_empty _ _).
  - intros Hrun nodeId. unfold onNodeClick. by rewrite Hrun.
Qed.

Lemma trip_edits_do_not_end_a_run_witness :
  let a := mkApp (waypoints init) 2 true [7%nat] "home" true true (renderer init) in
  isRunning (_removeWaypoint a 1) = true ∧
  runBtn_disabled (_removeWaypoint a 1) = true ∧
  animationTimers (_removeWaypoint a 1) = [].
Proof.
  intros a.
  destruct (proj1 (trip_edits_do_not_end_a_run a) (RemoveStop 1)
              (_removeWaypoint a 1)) as [Hr1 Hr2]; [done|done|].
  split; [exact Hr1|]. split; [exact Hr2|]. reflexivity.
Defined.
End TripFacts.

(** ** The renderer: which roads are drawn as part of a path *)

Lemma path_has_edge_on_path path a b :
  path_has_edge path a b = true ↔ on_path path a b.
Proof.
  induction path as [|x path IH]; simpl.
  { split; [done|]. intros [i [[Hi _]|[Hi _]]]; done. }
  destruct path as [|y path].
  { split; [done|]. intros [[|i] [[_ Hi]|[_ Hi]]]; done. }
  rewrite !orb_true_iff, !andb_true_iff, !bool_decide_eq_true, IH.
  split.
  - intros [[[-> ->]|[-> ->]]|[i Hi]].
    + exists 0%nat. by left.
    + exists 0%nat. by right.
    + exists (S i). done.
  - intros [[|i] Hi].
    + left. destruct Hi as [[Hx Hy]|[Hx Hy]]; simplify_eq/=; auto.
    + right. by exists i.
Qed.

(** X19: [_isEdgeInAnyPath] gives a road the colour of the first path
    segment on which its two ends follow each other, in one order or the
    other, and [null] when there is no such segment; the answer is the
    same for [(a, b)] and for [(b, a)]. *)
Theorem isEdgeInAnyPath_first_segment pathSegments a b :
  _isEdgeInAnyPath pathSegments a b = _isEdgeInAnyPath pathSegments b a ∧
  (∀ color,
     _isEdgeInAnyPath pathSegments a b = Some color ↔
     ∃ i path, pathSegments !! i = Some (path, color) ∧ on_path path a b ∧
       ∀ j seg, (j < i)%nat → pathSegments !! j = Some seg →
                ¬ on_path seg.1 a b) ∧
  (_isEdgeInAnyPath pathSegments a b = None ↔
   ∀ seg, seg ∈ pathSegments → ¬ on_path seg.1 a b).
Proof.
  assert (∀ path, on_path path a b ↔ on_path path b a) as Hsym.
  { intros path. unfold on_path. split; intros [i [?|?]]; exists i; auto. }
  split; [|split].
  - induction pathSegments as [|seg rest IH]; simpl; [done|].
    destruct (path_has_edge seg.1 a b) eqn:Hab.
    + apply path_has_edge_on_path, Hsym, path_has_edge_on_path in Hab.
      by rewrite Hab.
    + destruct (path_has_edge seg.1 b a) eqn:Hba; [|done].
      apply path_has_edge_on_path, Hsym, path_has_edge_on_path in Hba.
      congruence.
  - induction pathSegments as [|[path0 color0] rest IH]; intros color; simpl.
    { split; [done|]. by intros (i & path & ? & _). }
    destruct (path_has_edge path0 a b) eqn:Hab.
    + apply path_has_edge_on_path in Hab. split.
      * intros [= <-]. exists 0%nat, path0. split; [done|]. split; [done|].
        intros j seg Hj. lia.
      * intros ([|i] & path & Hi & Hon & Hfirst); [by simplify_eq/=|].
        exfalso. by apply (Hfirst 0%nat (path0, color0)); [lia| |].
    + assert (¬ on_path path0 a b) as Hnot.
      { rewrite <- path_has_edge_on_path. by rewrite Hab. }
      rewrite IH. split.
      * intros (i & path & Hi & Hon & Hfirst). exists (S i), path.
        split; [done|]. split; [done|].
        intros [|j] seg Hj Hseg; [by simplify_eq/=|].
        apply (Hfirst j seg); [lia|done].
      * intros ([|i] & path & Hi & Hon & Hfirst); [by simplify_eq/=|].
        exists i, path. split; [done|]. split; [done|].
        intros j seg Hj Hseg. apply (Hfirst (S j) seg); [lia|done].
  - induction pathSegments as [|[path0 color0] rest IH]; simpl.
    { split; [by intros _ seg ?%elem_of_nil|done]. }
    destruct (path_has_edge path0 a b) eqn:Hab.
    + apply path_has_edge_on_path in Hab. split; [done|].
      intros Hall. exfalso. apply (Hall (path0, color0)); [left|done].
    + assert (¬ on_path path0 a b) as Hnot.
      { rewrite <- path_has_edge_on_path. by rewrite Hab. }
      rewrite IH. split.
      * intros Hall seg [->|Hin]%elem_of_cons; [done|by apply Hall].
      * intros Hall seg Hin. apply Hall. by right.
Qed.

(** ** [reconstructPath] by itself *)

Section Walk.
Context (parent : list (Id * option Id)).

Lemma walk_mono fuel :
  ∀ acc c p fuel',
    reconstructPath_loop fuel parent acc c = Some p → (fuel ≤ fuel')%nat →
    reconstructPath_loop fuel' parent acc c = Some p.
Proof.
  induction fuel as [|fuel IH]; intros acc [v|] p fuel' Hwalk Hle.
  - done.
  - rewrite reconstructPath_loop_None in Hwalk |- *. done.
  - destruct fuel' as [|fuel']; [lia|]. simpl in *.
    destruct (JsMap.get parent v) as [next|]; [|done].
    apply (IH _ _ _ _ Hwalk). lia.
  - rewrite reconstructPath_loop_None in Hwalk |- *. done.
Qed.

(** A walk that ends, from [v]: the chain of keys it went through, the
    first one mapped to [null] and every other one to the one before. *)
Lemma walk_chain fuel :
  ∀ acc v p,
    reconstructPath_loop fuel parent acc (Some v) = Some p →
    ∃ chain,
      p = chain ++ acc ∧ last chain = Some v ∧
      (length chain ≤ fuel)%nat ∧
      (∀ fuel' acc', (length chain ≤ fuel')%nat →
         reconstructPath_loop fuel' parent acc' (Some v)
           = Some (chain ++ acc')) ∧
      (∃ root, head chain = Some root ∧ JsMap.get parent root = Some None) ∧
      (∀ i u w, chain !! i = Some u → chain !! S i = Some w →
                JsMap.get parent w = Some (Some u)) ∧
      (∀ i x, chain !! i = Some x →
              reconstructPath_loop (length chain) parent [] (Some x)
                = Some (take (S i) chain)).
Proof.
  induction fuel as [|fuel IH]; intros acc v p; simpl; [done|].
  destruct (JsMap.get parent v) as [[u|]|] eqn:Hv; [| |done].
  - intros Hwalk.
    destruct (IH _ _ _ Hwalk)
      as (chain & -> & Hlast & Hlen & Hany & Hroot & Hstep & Hsub).
    exists (chain ++ [v]). rewrite <- app_assoc. split; [done|].
    split; [by rewrite last_snoc|].
    split; [rewrite length_app; simpl; lia|]. split; [|split; [|split]].
    + intros fuel' acc'. rewrite length_app. simpl. intros Hf.
      destruct fuel' as [|fuel']; [lia|]. simpl. rewrite Hv.
      rewrite Hany by lia. by rewrite <- app_assoc.
    + destruct Hroot as (root & Hhead & Hr). exists root. split; [|done].
      destruct chain; [done|]. done.
    + intros i x w Hi Hw.
      apply lookup_app_Some in Hw as [Hw|[Hge Hw]].
      * apply (Hstep i x w); [|done].
        apply lookup_app_Some in Hi as [Hi|[Hge _]]; [done|].
        apply lookup_lt_Some in Hw. lia.
      * apply list_lookup_singleton_Some in Hw as [Heq <-].
        assert (i = (length chain - 1)%nat) as -> by lia.
        rewrite lookup_app_l in Hi by lia.
        rewrite last_lookup in Hlast.
        replace (Init.Nat.pred (length chain)) with (length chain - 1)%nat
          in Hlast by lia.
        rewrite Hlast in Hi. by simplify_eq.
    + intros i x Hi. rewrite length_app. simpl.
      apply lookup_app_Some in Hi as [Hi|[Hge Hi]].
      * rewrite take_app_le by (apply lookup_lt_Some in Hi; lia).
        apply (walk_mono (length chain)); [by apply Hsub|lia].
      * apply list_lookup_singleton_Some in Hi as [Heq <-].
        assert (i = length chain) as -> by lia.
        rewrite take_ge by (rewrite length_app; simpl; lia).
        replace (length chain + 1)%nat with (S (length chain)) by lia.
        simpl. rewrite Hv. rewrite Hany by lia. done.
  - rewrite reconstructPath_loop_None. intros [= <-].
    exists [v]. split; [done|]. split; [done|]. split; [simpl; lia|].
    split; [|split; [|split]].
    + intros [|fuel'] acc' Hf; simpl in *; [lia|].
      by rewrite Hv, reconstructPath_loop_None.
    + by exists v.
    + intros [|i] u w Hi Hw; simplify_eq/=.
    + intros [|i] x Hi; simplify_eq/=.
      by rewrite Hv.
Qed.

Lemma chain_NoDup chain :
  (∀ i x, chain !! i = Some x →
          reconstructPath_loop (length chain) parent [] (Some x)
            = Some (take (S i) chain)) →
  NoDup chain.
Proof.
  intros Hsub. apply NoDup_alt. intros i j x Hi Hj.
  pose proof (Hsub i x Hi) as H1. rewrite (Hsub j x Hj) in H1.
  injection H1 as H1. apply (f_equal length) in H1.
  rewrite !length_take in H1.
  apply lookup_lt_Some in Hi. apply lookup_lt_Some in Hj. lia.
Qed.

(** X20: [reconstructPath] by itself.  When it returns, the path ends
    at [endId], starts at a key that [parent] maps to [null], every
    other node of the path is mapped by [parent] to the one before it,
    and no node is twice on the path, so that the path is not longer than
    [parent] has keys.  The loop ends within as many turns as [parent]
    has keys or never ends; it never ends when [endId] is not a key. *)
Theorem reconstructPath_follows_parent endId :
  (∀ p, reconstructPath parent endId = Some p →
     last p = Some endId ∧ NoDup p ∧ (length p ≤ length parent)%nat ∧
     (∃ root, head p = Some root ∧ JsMap.get parent root = Some None) ∧
     (∀ i u w, p !! i = Some u → p !! S i = Some w →
               JsMap.get parent w = Some (Some u))) ∧
  (∀ fuel, (length parent ≤ fuel)%nat →
     reconstructPath_loop fuel parent [] (Some endId)
       = reconstructPath parent endId) ∧
  (JsMap.get parent endId = None → reconstructPath parent endId = None).
Proof.
  assert (∀ fuel p,
            reconstructPath_loop fuel parent [] (Some endId) = Some p →
            last p = Some endId ∧ NoDup p ∧ (length p ≤ length parent)%nat ∧
            (∃ root, head p = Some root ∧ JsMap.get parent root = Some None) ∧
            (∀ i u w, p !! i = Some u → p !! S i = Some w →
                      JsMap.get parent w = Some (Some u)) ∧
            reconstructPath_loop (length parent) parent [] (Some endId)
              = Some p) as Hany.
  { intros fuel p Hwalk.
    destruct (walk_chain _ _ _ _ Hwalk)
      as (chain & -> & Hlast & Hlen & Hfuel & Hroot & Hstep & Hsub).
    rewrite app_nil_r in *.
    pose proof (chain_NoDup chain Hsub) as Hnd.
    assert (length chain ≤ length parent)%nat as Hle.
    { assert (chain ⊆ JsMap.keys parent) as Hkeys.
      { intros x [i Hx]%list_elem_of_lookup. destruct i as [|i].
        - destruct Hroot as (root & Hhead & Hr).
          destruct chain as [|y chain]; simplify_eq/=.
          by eapply get_Some_keys.
        - destruct (lookup_lt_is_Some_2 chain i) as [u Hu].
          { apply lookup_lt_Some in Hx. lia. }
          eapply get_Some_keys. by eapply Hstep. }
      pose proof (submseteq_length _ _ (NoDup_submseteq _ _ Hnd Hkeys)) as Hl.
      unfold JsMap.keys in Hl. by rewrite length_fmap in Hl. }
    split; [done|]. split; [done|]. split; [done|]. split; [done|].
    split; [done|]. rewrite (Hfuel (length parent) []) by done.
    by rewrite app_nil_r. }
  split; [|split].
  - intros p Hp. by destruct (Hany _ _ Hp) as (? & ? & ? & ? & ? & _).
  - intros fuel Hfuel. unfold reconstructPath.
    destruct (reconstructPath_loop fuel parent [] (Some endId)) as [p|] eqn:Hw.
    + by destruct (Hany _ _ Hw) as (_ & _ & _ & _ & _ & ->).
    + destruct (reconstructPath_loop (length parent) parent [] (Some endId))
        as [p|] eqn:Hw'; [|done].
      by rewrite (walk_mono _ _ _ _ _ Hw' Hfuel) in Hw.
  - intros Hnone. unfold reconstructPath.
    destruct (length parent); simpl; [done|]. by rewrite Hnone.
Qed.
End Walk.

Lemma reconstructPath_follows_parent_witness :
  reconstructPath [("A", None); ("B", Some "A"); ("C", Some "B")] "C"
    = Some ["A"; "B"; "C"] ∧
  reconstructPath [("A", Some "B"); ("B", Some "A")] "A" = None ∧
  reconstructPath_loop 1000 [("A", Some "B"); ("B", Some "A")] [] (Some "A")
    = None.
Proof.
  split; [reflexivity|]. split; [reflexivity|].
  rewrite (proj1 (proj2 (reconstructPath_follows_parent
                           [("A", Some "B"); ("B", Some "A")] "A")) 1000%nat);
    [reflexivity|simpl; lia].
Defined.

(** ** The heuristic in exact arithmetic *)


